(** * github-merger: a shallow embedding of [src/index.ts] and its properties

    The development follows the TypeScript source function by function:
    the JavaScript built-ins the program calls ([String.prototype.split],
    [trim], [includes], [Array.prototype.sort], [path.extname], ...) are
    modelled first, then the data of the program ([Options], [FileTree],
    the directory listing of a clone), then its functions
    ([generateTreeString], [buildFileTree], [getAvailableBranches],
    [mergeRepositoryFiles] with its inner [processDirectory], [cleanup]),
    and finally the properties.

    Conventions of the model.
    - A JavaScript string is a Rocq [string] holding its UTF-8 encoding
      (the strings of the program are literals of the source or were decoded
      from UTF-8 by Node).  The default [sort] compares the UTF-16 code
      units of its elements, which [JS.codeUnits] computes from the bytes.
      [toLowerCase], [trim] and the regular expressions act on the ASCII
      range, which is where ref names, extensions and the filters live;
      bytes above 127 are left as they are.
    - A path stands for the file it names: the disk is a set of paths, and
      what lies below a directory are the paths that extend it by a slash
      and more.
    - A call that may throw returns an [option] ([None] is the exception)
      when the handler does not look at the error, and an [ExecResult]
      when it does (the message of the rejected [exec] promise).
    - Console output, spinners and colours are presentation and are left
      out. *)

From Stdlib Require Import ZArith Ascii Lia.
From Stdlib Require String.
From stdpp Require Import base option list strings sorting gmap.

Local Open Scope Z_scope.
Local Set Warnings "-register-all,-clear-no-such-hyp".

(** ** JavaScript built-ins on strings and arrays *)

Module JS.

Definition LF : ascii := "010"%char.
Definition CR : ascii := "013"%char.

(** The one-character string holding a line feed, written [\n] in the source. *)
Definition nl : string := String LF EmptyString.

Definition charCode (c : ascii) : Z := Z.of_nat (nat_of_ascii c).

(** [s.startsWith(p)] *)
Fixpoint startsWith (s p : string) : bool :=
  match p, s with
  | EmptyString, _ => true
  | String _ _, EmptyString => false
  | String a p', String b s' => if Ascii.eqb a b then startsWith s' p' else false
  end.

(** The rest of [s] after the prefix [p], when [s] starts with [p]. *)
Fixpoint stripPrefix (p s : string) : option string :=
  match p, s with
  | EmptyString, _ => Some s
  | String _ _, EmptyString => None
  | String a p', String b s' => if Ascii.eqb a b then stripPrefix p' s' else None
  end.

(** [s.includes(needle)] *)
Fixpoint includes (s needle : string) : bool :=
  if startsWith s needle then true
  else match s with
       | EmptyString => false
       | String _ s' => includes s' needle
       end.

(** [s.split("\n")]: the pieces between line feeds; the empty string
    gives one empty piece. *)
Fixpoint split_lines (s : string) : list string :=
  match s with
  | EmptyString => [EmptyString]
  | String c s' =>
      if Ascii.eqb c LF then EmptyString :: split_lines s'
      else match split_lines s' with
           | [] => [String c EmptyString]
           | piece :: pieces => String c piece :: pieces
           end
  end.

(** [pieces.join(sep)] *)
Fixpoint join (sep : string) (pieces : list string) : string :=
  match pieces with
  | [] => EmptyString
  | [piece] => piece
  | piece :: rest => piece +:+ sep +:+ join sep rest
  end.

(** [arr.slice(n)] *)
Definition slice {A} (n : nat) (arr : list A) : list A := drop n arr.

(** White space and line terminators of the ASCII range, as [trim] sees them. *)
Definition isWhiteSpace (c : ascii) : bool :=
  let n := charCode c in
  ((9 <=? n) && (n <=? 13)) || (n =? 32).

Fixpoint trimStart (s : string) : string :=
  match s with
  | EmptyString => EmptyString
  | String c s' => if isWhiteSpace c then trimStart s' else s
  end.

Fixpoint trimEnd (s : string) : string :=
  match s with
  | EmptyString => EmptyString
  | String c s' =>
      match trimEnd s' with
      | EmptyString => if isWhiteSpace c then EmptyString else String c EmptyString
      | r => String c r
      end
  end.

(** [s.trim()] *)
Definition trim (s : string) : string := trimEnd (trimStart s).

Definition lowerChar (c : ascii) : ascii :=
  let n := charCode c in
  if (65 <=? n) && (n <=? 90) then ascii_of_nat (nat_of_ascii c + 32) else c.

(** [s.toLowerCase()] *)
Fixpoint toLowerCase (s : string) : string :=
  match s with
  | EmptyString => EmptyString
  | String c s' => String (lowerChar c) (toLowerCase s')
  end.

(** What a replacement text stands for at a match of a string pattern
    (GetSubstitution of the standard, with no capture): [$$] is a dollar
    sign, [$&] the text matched, [$`] the text before the match and [$']
    the text after it; any other dollar sign stands for itself. *)
Fixpoint getSubstitution (matched before after repl : string) : string :=
  match repl with
  | EmptyString => EmptyString
  | String c rest =>
      if Ascii.eqb c "$" then
        match rest with
        | EmptyString => String c EmptyString
        | String d rest' =>
            if Ascii.eqb d "$" then
              String d (getSubstitution matched before after rest')
            else if Ascii.eqb d "&" then
              matched +:+ getSubstitution matched before after rest'
            else if Ascii.eqb d "`" then
              before +:+ getSubstitution matched before after rest'
            else if Ascii.eqb d "'" then
              after +:+ getSubstitution matched before after rest'
            else String c (getSubstitution matched before after rest)
        end
      else String c (getSubstitution matched before after rest)
  end.

(** The search for the first occurrence of [pat]; [before] is what of the
    string has been passed. *)
Fixpoint replaceFrom (before s pat repl : string) : string :=
  match stripPrefix pat s with
  | Some after => getSubstitution pat before after repl +:+ after
  | None => match s with
            | EmptyString => EmptyString
            | String c s' =>
                String c (replaceFrom (before +:+ String c EmptyString) s' pat repl)
            end
  end.

(** [s.replace(pat, repl)] with a string pattern and a string replacement:
    the first occurrence only. *)
Definition replace (s pat repl : string) : string :=
  replaceFrom EmptyString s pat repl.

(** [arr.includes(x)] on an array of strings. *)
Definition arrayIncludes (arr : list string) (x : string) : bool :=
  bool_decide (x ∈ arr).

(** A continuation byte of UTF-8. *)
Definition isCont (b : Z) : bool := (128 <=? b) && (b <=? 191).

(** The UTF-16 code units of the JavaScript string whose UTF-8 encoding is
    [s].  A code point above [U+FFFF] gives two units, a high and a low
    surrogate.  Bytes that are not well-formed UTF-8 are read as [U+FFFD],
    the way Node's decoder reads them; no string of the program holds any. *)
Fixpoint codeUnits (s : string) : list Z :=
  match s with
  | EmptyString => []
  | String c0 s1 =>
      let b0 := charCode c0 in
      if b0 <? 128 then b0 :: codeUnits s1
      else
        let bad := 65533 :: codeUnits s1 in
        match s1 with
        | EmptyString => [65533]
        | String c1 s2 =>
            let b1 := charCode c1 in
            if (194 <=? b0) && (b0 <=? 223) then
              if isCont b1
              then ((b0 - 192) * 64 + (b1 - 128)) :: codeUnits s2
              else bad
            else if (224 <=? b0) && (b0 <=? 239) then
              if ((if b0 =? 224 then 160 else 128) <=? b1)
                 && (b1 <=? (if b0 =? 237 then 159 else 191))
              then
                match s2 with
                | EmptyString => [65533]
                | String c2 s3 =>
                    let b2 := charCode c2 in
                    if isCont b2
                    then ((b0 - 224) * 4096 + (b1 - 128) * 64 + (b2 - 128))
                         :: codeUnits s3
                    else 65533 :: codeUnits s2
                end
              else bad
            else if (240 <=? b0) && (b0 <=? 244) then
              if ((if b0 =? 240 then 144 else 128) <=? b1)
                 && (b1 <=? (if b0 =? 244 then 143 else 191))
              then
                match s2 with
                | EmptyString => [65533]
                | String c2 s3 =>
                    let b2 := charCode c2 in
                    if isCont b2 then
                      match s3 with
                      | EmptyString => [65533]
                      | String c3 s4 =>
                          let b3 := charCode c3 in
                          if isCont b3 then
                            let cp := (b0 - 240) * 262144 + (b1 - 128) * 4096
                                      + (b2 - 128) * 64 + (b3 - 128) in
                            (55296 + (cp - 65536) / 1024)
                            :: (56320 + (cp - 65536) mod 1024)
                            :: codeUnits s4
                          else 65533 :: codeUnits s3
                      end
                    else 65533 :: codeUnits s2
                end
              else bad
            else bad
        end
  end.

(** Sequences of code units compared unit by unit, the shorter first when
    it is a prefix of the other. *)
Fixpoint compareUnits (a b : list Z) : comparison :=
  match a, b with
  | [], [] => Eq
  | [], _ :: _ => Lt
  | _ :: _, [] => Gt
  | x :: a', y :: b' =>
      match x ?= y with
      | Eq => compareUnits a' b'
      | c => c
      end
  end.

(** The comparison of the default [Array.prototype.sort()]: the elements
    are compared as strings, code unit by code unit. *)
Definition defaultCompare (a b : string) : Z :=
  match compareUnits (codeUnits a) (codeUnits b) with
  | Lt => -1
  | Eq => 0
  | Gt => 1
  end.

(** [Array.prototype.sort] is stable; for a consistent comparison the
    standard fixes its result, the stable sorted arrangement, which is what
    inserting the elements from the right computes. *)
Section Sort.
Context {A : Type}.

Fixpoint insert (cmp : A → A → Z) (x : A) (l : list A) : list A :=
  match l with
  | [] => [x]
  | y :: l' => if cmp x y <=? 0 then x :: l else y :: insert cmp x l'
  end.

Fixpoint sort (cmp : A → A → Z) (l : list A) : list A :=
  match l with
  | [] => []
  | x :: l' => insert cmp x (sort cmp l')
  end.

(** The same with a comparison function that may throw: the exception
    leaves [sort]. *)
Fixpoint insertM (cmp : A → A → option Z) (x : A) (l : list A) : option (list A) :=
  match l with
  | [] => Some [x]
  | y :: l' =>
      c ← cmp x y;
      if c <=? 0 then Some (x :: l)
      else r ← insertM cmp x l'; Some (y :: r)
  end.

Fixpoint sortM (cmp : A → A → option Z) (l : list A) : option (list A) :=
  match l with
  | [] => Some []
  | x :: l' => s ← sortM cmp l'; insertM cmp x s
  end.
End Sort.

End JS.

(** ** Node's [path] module (POSIX flavour) *)

Module Path.

Definition sep : string := "/".

(** [path.join(dir, item)] for a normalised [dir] and a plain entry name. *)
Definition join (dir item : string) : string := dir +:+ sep +:+ item.

(** The variables of the scanning loop of [path.extname]. *)
Record ExtScan := MkExtScan {
  startDot : Z;
  startPart : Z;
  end_ : Z;
  matchedSlash : bool;
  preDotState : Z
}.

Definition extInit : ExtScan := MkExtScan (-1) 0 (-1) true 0.

Definition setStartPart (v : Z) (st : ExtScan) : ExtScan :=
  MkExtScan (startDot st) v (end_ st) (matchedSlash st) (preDotState st).
Definition setStartDot (v : Z) (st : ExtScan) : ExtScan :=
  MkExtScan v (startPart st) (end_ st) (matchedSlash st) (preDotState st).
Definition setPreDotState (v : Z) (st : ExtScan) : ExtScan :=
  MkExtScan (startDot st) (startPart st) (end_ st) (matchedSlash st) v.
Definition markEnd (v : Z) (st : ExtScan) : ExtScan :=
  MkExtScan (startDot st) (startPart st) v false (preDotState st).

(** One pass of [for (let i = path.length - 1; i >= 0; --i)]: [revPath]
    holds the characters at indices [i], [i-1], ..., [0]. *)
Fixpoint extnameLoop (revPath : list ascii) (i : Z) (st : ExtScan) : ExtScan :=
  match revPath with
  | [] => st
  | code :: rest =>
      if Ascii.eqb code "/" then
        if negb (matchedSlash st) then setStartPart (i + 1) st
        else extnameLoop rest (i - 1) st
      else
        let st1 := if end_ st =? -1 then markEnd (i + 1) st else st in
        let st2 :=
          if Ascii.eqb code "." then
            if startDot st1 =? -1 then setStartDot i st1
            else if negb (preDotState st1 =? 1) then setPreDotState 1 st1
            else st1
          else if negb (startDot st1 =? -1) then setPreDotState (-1) st1
          else st1 in
        extnameLoop rest (i - 1) st2
  end.

(** [path.extname(path)] *)
Definition extname (path : string) : string :=
  let chars := String.list_ascii_of_string path in
  let st := extnameLoop (rev chars) (Z.of_nat (length chars) - 1) extInit in
  if (startDot st =? -1)
     || (end_ st =? -1)
     || (preDotState st =? 0)
     || ((preDotState st =? 1)
         && (startDot st =? end_ st - 1)
         && (startDot st =? startPart st + 1))
  then EmptyString
  else String.substring (Z.to_nat (startDot st))
                        (Z.to_nat (end_ st - startDot st)) path.

End Path.

(** ** Data of the program *)

(** [interface Options]: every field is optional. *)
Record Options := MkOptions {
  excludeDirs : option (list string);
  excludeFiles : option (list string);
  outputPath : option string;
  includeExtensions : option (list string);
  branch : option string
}.

Inductive NodeType := file | directory.

(** [interface FileTree]: [children] is absent on the nodes built for files. *)
Inductive FileTree := MkFileTree {
  name : string;
  type : NodeType;
  children : option (list FileTree)
}.

(** What a clone holds on disk.  The entries of a directory come in the
    order [fs.readdirSync] lists them.  A directory that cannot be listed
    is, for every walk of the program, like one that holds a single entry
    on which [fs.statSync] throws: the walks of the merge throw when they
    enter it, and the scan for extensions finds nothing in it. *)
Inductive Entry :=
| File (item : string) (content : string)
| Dir (item : string) (items : list Entry)
| Dangling (item : string)
    (* [fs.statSync] throws on it, e.g. a link to nothing *)
| Unreadable (item : string).
    (* a file on which [fs.readFileSync] throws, e.g. for want of permission *)

Definition entryName (e : Entry) : string :=
  match e with
  | File item _ | Dir item _ | Dangling item | Unreadable item => item
  end.

(** [fs.statSync(fullPath).isDirectory()] *)
Definition isDirectory (e : Entry) : option bool :=
  match e with
  | File _ _ => Some false
  | Dir _ _ => Some true
  | Dangling _ => None
  | Unreadable _ => Some false
  end.

(** The nesting depth of a listing: an upper bound on the depth of the
    recursion of a walk over it. *)
Fixpoint entryHeight (e : Entry) : nat :=
  match e with
  | Dir _ sub => S (foldr (λ c h, Nat.max (entryHeight c) h) O sub)
  | _ => O
  end.

Definition listingHeight (l : list Entry) : nat :=
  foldr (λ c h, Nat.max (entryHeight c) h) O l.

(** The outcome of an [exec] of git: the promise resolves with the standard
    output or is rejected with an [Error] carrying a message. *)
Inductive ExecResult :=
| Resolved (stdout : string)
| Rejected (message : string).

(** What the remote answers to the three commands of [getAvailableBranches]. *)
Record GitRemote := MkGitRemote {
  lsRemoteHeads : ExecResult;   (* git ls-remote --heads <url> *)
  cloneBare : ExecResult;       (* git clone --bare <url> <tempDir> *)
  branchRemote : ExecResult     (* cd <tempDir> && git branch -r *)
}.

(** The outcome of [git clone] into a fresh directory. *)
Inductive CloneResult :=
| Cloned (listing : list Entry)
| CloneFailed (message : string).

(** What one call of [mergeRepositoryFiles] reads from its surroundings. *)
Record Run := MkRun {
  uniqueId : string;            (* Date.now().toString(36) + Math.random()... *)
  now : string;                 (* new Date().toISOString() *)
  cloneOutcome : CloneResult
}.

(** The mutable surroundings: the module variable [tempDirectories] and the
    part of the disk the program touches. *)
Record World := MkWorld {
  tempDirectories : list string;
  onDisk : gset string;         (* the paths that exist *)
  undeletable : gset string;    (* directories on which [fs.rmSync] fails *)
  unwritable : gset string;     (* paths on which [fs.writeFileSync] fails *)
  written : list (string * string)
    (* the [fs.writeFileSync] calls that went through, oldest first *)
}.

(** ** File-system calls *)

Definition existsSync (dir : string) (w : World) : bool :=
  bool_decide (dir ∈ onDisk w).

(** The path [p] is [dir] or lies below it. *)
Definition under (dir p : string) : bool :=
  bool_decide (p = dir) || JS.startsWith p (dir +:+ Path.sep).

(** [fs.rmSync(dir, { recursive: true, force: true })]: the directory goes
    with all that lies below it.  When the call throws, the directory is
    still there; what of its contents was deleted before is not followed. *)
Definition rmSync (dir : string) (w : World) : option World :=
  if bool_decide (dir ∈ undeletable w) then None
  else Some (MkWorld (tempDirectories w)
                     (filter (λ p, under dir p = false) (onDisk w))
                     (undeletable w) (unwritable w) (written w)).

(** [fs.writeFileSync(file, data)]: the file exists afterwards. *)
Definition writeFileSync (file : string) (data : string) (w : World) : option World :=
  if bool_decide (file ∈ unwritable w) then None
  else Some (MkWorld (tempDirectories w) ({[file]} ∪ onDisk w) (undeletable w)
                     (unwritable w) (written w ++ [(file, data)])).

(** [tempDirectories.push(dir)] *)
Definition pushTemp (dir : string) (w : World) : World :=
  MkWorld (tempDirectories w ++ [dir]) (onDisk w) (undeletable w)
          (unwritable w) (written w).

(** [tempDirectories = tempDirectories.filter(dir => dir !== tempDir)] *)
Definition dropTemp (tempDir : string) (w : World) : World :=
  MkWorld (filter (λ dir, dir ≠ tempDir) (tempDirectories w)) (onDisk w)
          (undeletable w) (unwritable w) (written w).

(** The paths of the entries of a listing of [dir], at every depth, that
    [fs.existsSync] finds: all but those [fs.statSync] throws on. *)
Fixpoint entryPaths (dir : string) (e : Entry) : list string :=
  match e with
  | File item _ | Unreadable item => [Path.join dir item]
  | Dir item sub =>
      Path.join dir item :: flat_map (entryPaths (Path.join dir item)) sub
  | Dangling _ => []
  end.

Definition listingPaths (dir : string) (listing : list Entry) : list string :=
  flat_map (entryPaths dir) listing.

(** A successful [git clone] creates its destination and, below it, what
    the clone holds. *)
Definition cloneInto (dir : string) (listing : list Entry) (w : World) : World :=
  MkWorld (tempDirectories w)
          ({[dir]} ∪ list_to_set (listingPaths dir listing) ∪ onDisk w)
          (undeletable w) (unwritable w) (written w).

(** [try { m } catch (error) { handler }] for a handler that ignores the error. *)
Definition tryCatch {A} (m : option A) (handler : A) : A :=
  match m with
  | Some a => a
  | None => handler
  end.

(** ** [cleanup] *)




(** ** [getRepoNameFromUrl] *)

(** The text after the last slash of [s], when [s] has a slash. *)
Fixpoint afterLastSlash (s : string) : option string :=
  match s with
  | EmptyString => None
  | String c s' =>
      match afterLastSlash s' with
      | Some r => Some r
      | None => if Ascii.eqb c "/" then Some s' else None
      end
  end.

(** The lazy group [([^\/]+?)] before [(\.git)?$]: the shortest non-empty
    prefix of the segment that is followed by nothing or by one [.git]. *)
Fixpoint lazyName (seg : string) : string :=
  match seg with
  | EmptyString => EmptyString
  | String c rest =>
      if bool_decide (rest = ".git") then String c EmptyString
      else String c (lazyName rest)
  end.

(** [url.match(/\/([^\/]+?)(\.git)?$/)]: the pattern can only start at the
    last slash, and needs a character after it. *)
Definition getRepoNameFromUrl (url : string) : string :=
  match afterLastSlash url with
  | Some (String c rest) => lazyName (String c rest)
  | _ => "repository"
  end.

(** ** [generateTreeString] *)

Definition elbow : string := "└─ ".
Definition tee : string := "├─ ".
Definition blank : string := "   ".
Definition pipe : string := "│  ".

Definition isNil {A} (l : list A) : bool :=
  match l with
  | [] => true
  | _ => false
  end.

Fixpoint generateTreeString (structure : FileTree) (prefix : string) (isLast : bool)
  : string :=
  match structure with
  | MkFileTree nm _ kids =>
      let marker := if isLast then elbow else tee in
      let tree := prefix +:+ marker +:+ nm +:+ JS.nl in
      match kids with
      | Some cs =>
          let childPrefix := prefix +:+ (if isLast then blank else pipe) in
          (* forEach: [index === children.length - 1] holds on the last child *)
          (fix forEach (l : list FileTree) (tree : string) : string :=
             match l with
             | [] => tree
             | child :: rest =>
                 forEach rest
                   (tree +:+ generateTreeString child childPrefix (isNil rest))
             end) cs tree
      | None => tree
      end
  end.

(** ** [getAvailableBranches] *)

Definition hasLineTerminator (s : string) : bool :=
  JS.includes s JS.nl || JS.includes s (String JS.CR EmptyString).

(** [line.match(/refs\/heads\/(.+)$/)], giving group 1: the first place
    where [refs/heads/] is followed, up to the end of the line, by one or
    more characters none of which ends a line. *)
Fixpoint matchRefsHeads (line : string) : option string :=
  let later := match line with
               | EmptyString => None
               | String _ line' => matchRefsHeads line'
               end in
  match JS.stripPrefix "refs/heads/" line with
  | Some (String c rest) =>
      if hasLineTerminator (String c rest) then later else Some (String c rest)
  | _ => later
  end.

Definition nonBlank (line : string) : bool :=
  negb (bool_decide (JS.trim line = EmptyString)).

(** The names of tier 1, before sorting. *)
Definition remoteHeadNames (stdout : string) : list string :=
  omap matchRefsHeads (filter (λ line, nonBlank line = true) (JS.split_lines stdout)).

(** The mapping of the fallback tier: a line of [git branch -r]. *)
Definition fallbackName (line : string) : option string :=
  let trimmed := JS.trim line in
  if JS.startsWith trimmed "origin/" && negb (JS.includes trimmed "->")
  then Some (JS.replace trimmed "origin/" EmptyString)
  else None.

Definition fallbackNames (branchOutput : string) : list string :=
  filter (λ b, b ≠ "HEAD")
    (omap fallbackName
       (filter (λ line, nonBlank line = true) (JS.split_lines branchOutput))).

Definition defaultBranches : list string := ["main"; "master"].

(** [src/index.ts], lines 192-282.  [None] is the [null] of the source. *)
Definition getAvailableBranches (git : GitRemote) : option (list string) :=
  match lsRemoteHeads git with
  | Resolved stdout =>
      let branches := JS.sort JS.defaultCompare (remoteHeadNames stdout) in
      if (length branches =? 0)%nat then
        (* inner try *)
        match cloneBare git with
        | Resolved _ =>
            match branchRemote git with
            | Resolved branchOutput =>
                let fallbackBranches :=
                  JS.sort JS.defaultCompare (fallbackNames branchOutput) in
                if (0 <? length fallbackBranches)%nat then Some fallbackBranches
                else Some defaultBranches
            | Rejected _ => None
            end
        | Rejected _ => None
        end
      else Some branches
  | Rejected message =>
      if JS.includes message "not found" then None
      else Some defaultBranches
  end.

(** The older copy of the function kept in the repository beside
    [src/index.ts]: no inner [try], and a [catch] that always answers with
    the defaults. *)
Definition getAvailableBranches_legacy (git : GitRemote) : list string :=
  match lsRemoteHeads git with
  | Resolved stdout =>
      let branches := JS.sort JS.defaultCompare (remoteHeadNames stdout) in
      if (length branches =? 0)%nat then
        match cloneBare git with
        | Resolved _ =>
            match branchRemote git with
            | Resolved branchOutput =>
                let fallbackBranches :=
                  JS.sort JS.defaultCompare (fallbackNames branchOutput) in
                if (0 <? length fallbackBranches)%nat then fallbackBranches
                else defaultBranches
            | Rejected _ => defaultBranches
            end
        | Rejected _ => defaultBranches
        end
      else branches
  | Rejected _ => defaultBranches
  end.

(** ** The walks over a clone *)

(** [for (const item of items) body], the body threading a value. *)
Definition forOf {S} (body : Entry → S → option S)
  : list Entry → S → option S :=
  fix loop (items : list Entry) (s : S) : option S :=
    match items with
    | [] => Some s
    | item :: rest => s' ← body item s; loop rest s'
    end.

(** [!includeExtensions || includeExtensions.map((e) => e.toLowerCase()).includes(ext)] *)
Definition extensionIncluded (includeExtensions : option (list string)) (ext : string)
  : bool :=
  match includeExtensions with
  | None => true
  | Some exts => JS.arrayIncludes (JS.toLowerCase <$> exts) ext
  end.

(** [childTree.children && childTree.children.length > 0] *)
Definition hasChildren (t : FileTree) : bool :=
  match children t with
  | Some (_ :: _) => true
  | _ => false
  end.

(** What [fs.readdirSync] gives on the path of an entry that is a directory. *)
Definition entryItems (e : Entry) : list Entry :=
  match e with
  | Dir _ sub => sub
  | _ => []
  end.

Section Program.

(** [String.prototype.localeCompare] follows the collation of the host's
    locale, and [os.tmpdir()] is the host's: both are taken as given. *)
Variable localeCompare : string → string → Z.
Variable TEMP_BASE_DIR : string.

(** The comparison function given to [items.sort] in [buildFileTree]. *)
Definition compareItems (a b : Entry) : option Z :=
  aIsDir ← isDirectory a;
  bIsDir ← isDirectory b;
  if aIsDir && negb bIsDir then Some (-1)
  else if negb aIsDir && bIsDir then Some 1
  else Some (localeCompare (entryName a) (entryName b)).

(** The body of the loop of [buildFileTree] over the sorted items; [recurse]
    is the recursive call, [kids] is [structure.children]. *)
Definition buildItem (recurse : list Entry → string → option FileTree)
    (excludeDirs : list string) (includeExtensions : option (list string))
    (item : Entry) (kids : list FileTree) : option (list FileTree) :=
  stat ← isDirectory item;
  if (stat : bool) then
    if negb (JS.arrayIncludes excludeDirs (entryName item)) then
      childTree ← recurse (entryItems item) (entryName item);
      (* Only add directories that have children (after filtering) *)
      if hasChildren childTree then Some (kids ++ [childTree]) else Some kids
    else Some kids
  else
    let ext := JS.toLowerCase (Path.extname (entryName item)) in
    if extensionIncluded includeExtensions ext
    then Some (kids ++ [MkFileTree (entryName item) file None])
    else Some kids.

(** [buildFileTree(directory, excludeDirs, repoName, includeExtensions)];
    the directory is given by its listing [items].  The recursion goes
    through the sorted array, so it is bounded by [depth], the number of
    nested calls allowed; [S (listingHeight items)] is always enough
    (see [buildFileTree_depth]). *)
Fixpoint buildFileTree (depth : nat) (items : list Entry)
    (excludeDirs : list string) (repoName : string)
    (includeExtensions : option (list string)) : option FileTree :=
  match depth with
  | O => None
  | S depth' =>
      sortedItems ← JS.sortM compareItems items;
      kids ← forOf
               (buildItem
                  (λ sub nm, buildFileTree depth' sub excludeDirs nm includeExtensions)
                  excludeDirs includeExtensions)
               sortedItems [];
      Some (MkFileTree repoName directory (Some kids))
  end.

(** The inner function [processDirectory] of [mergeRepositoryFiles]; the
    variables it closes over are the section's, and [mergedContent] is
    threaded through. *)
Section ProcessDirectory.
Variables (excludeDirs excludeFiles : list string).
Variable includeExtensions : option (list string).
Variables (tempDir repoName : string).

(** The test that guards [fs.readFileSync] in the loop. *)
Definition qualifies (item : string) : bool :=
  let ext := JS.toLowerCase (Path.extname item) in
  negb (JS.arrayIncludes excludeFiles item)
  && extensionIncluded includeExtensions ext.

Definition fileBlock (fullPath content : string) : string :=
  JS.nl +:+ "// File: "
    +:+ JS.replace fullPath (tempDir +:+ Path.sep) (repoName +:+ "/")
    +:+ JS.nl +:+ content +:+ JS.nl.

(** The body of the loop, for the entry [e] of [directory]. *)
Fixpoint processItem (directory : string) (e : Entry) (mergedContent : string)
  : option string :=
  let fullPath := Path.join directory (entryName e) in
  match e with
  | Dangling _ => None
  | Dir item sub =>
      if negb (JS.arrayIncludes excludeDirs item)
      then forOf (λ e' mc, processItem fullPath e' mc) sub mergedContent
      else Some mergedContent
  | File item content =>
      if qualifies item
      then Some (mergedContent +:+ fileBlock fullPath content)
      else Some mergedContent
  | Unreadable item =>
      (* [fs.readFileSync(fullPath, "utf8")] throws *)
      if qualifies item then None else Some mergedContent
  end.

Definition processDirectory (directory : string) (items : list Entry)
    (mergedContent : string) : option string :=
  forOf (processItem directory) items mergedContent.
End ProcessDirectory.

Definition defaultExcludeDirs : list string :=
  ["node_modules"; ".git"; "dist"; "build"; ".github"; ".vscode"].
Definition defaultExcludeFiles : list string :=
  [".env"; ".gitignore"; "package-lock.json"; "yarn.lock"; ".DS_Store"].
Definition defaultOutputPath : string := "merged-output.txt".

(** [branch ? ` (branch: ${branch})` : empty] *)
Definition branchNote (branch : option string) : string :=
  match branch with
  | Some (String c b) => " (branch: " +:+ String c b +:+ ")"
  | _ => EmptyString
  end.

(** The diagram placed in the header:
    [repoName + "/\n" + generateTreeString(fileTree, prefix, true).split("\n").slice(2).join("\n")],
    with the empty prefix *)
Definition treeString (repoName : string) (fileTree : FileTree) : string :=
  repoName +:+ "/" +:+ JS.nl
    +:+ JS.join JS.nl
          (JS.slice 2 (JS.split_lines (generateTreeString fileTree EmptyString true))).

Definition header (githubUrl : string) (branch : option string) (stamp : string)
    (diagram : string) : string :=
  "// Source: " +:+ githubUrl +:+ branchNote branch +:+ JS.nl
    +:+ "// Merged on: " +:+ stamp +:+ JS.nl +:+ JS.nl
    +:+ "/*" +:+ JS.nl
    +:+ diagram
    +:+ "*/" +:+ JS.nl +:+ JS.nl.

(** The [try] block of [mergeRepositoryFiles]: [None] is an exception,
    [Some b] is [return b]. *)
Definition mergeAttempt (githubUrl : string) (excludeDirs excludeFiles : list string)
    (outputPath : string) (includeExtensions : option (list string))
    (branch : option string) (tempDir repoName : string) (run : Run) (w : World)
  : option bool * World :=
  match cloneOutcome run with
  | CloneFailed _ => (Some false, w)
  | Cloned listing =>
      let w := cloneInto tempDir listing w in
      match buildFileTree (S (listingHeight listing)) listing excludeDirs repoName
              includeExtensions with
      | None => (None, w)
      | Some fileTree =>
          (* Check if file tree is empty (no files matched the criteria) *)
          if negb (hasChildren fileTree) then (Some false, w)
          else
            let mergedContent :=
              header githubUrl branch (now run) (treeString repoName fileTree) in
            match processDirectory excludeDirs excludeFiles includeExtensions
                    tempDir repoName tempDir listing mergedContent with
            | None => (None, w)
            | Some mergedContent =>
                match writeFileSync outputPath mergedContent w with
                | None => (None, w)
                | Some w => (Some true, w)
                end
            end
      end
  end.

(** [mergeRepositoryFiles(githubUrl, options)].  The first component is
    the value the promise resolves with; [None] when it is rejected, which
    only the [finally] block can cause. *)
Definition mergeRepositoryFiles (githubUrl : string) (options : Options)
    (run : Run) (w : World) : option bool * World :=
  let excludeDirs := default defaultExcludeDirs (excludeDirs options) in
  let excludeFiles := default defaultExcludeFiles (excludeFiles options) in
  let outputPath := default defaultOutputPath (outputPath options) in
  let includeExtensions := includeExtensions options in
  let branch := branch options in
  let tempDir := Path.join TEMP_BASE_DIR ("repo-" +:+ uniqueId run) in
  let w := pushTemp tempDir w in
  let repoName := getRepoNameFromUrl githubUrl in
  (* try ... catch (error) { return false } *)
  let '(attempt, w) :=
    mergeAttempt githubUrl excludeDirs excludeFiles outputPath includeExtensions
      branch tempDir repoName run w in
  let result := tryCatch attempt false in
  (* finally *)
  if existsSync tempDir w then
    match rmSync tempDir w with
    | None => (None, w)
    | Some w => (Some result, dropTemp tempDir w)
    end
  else (Some result, dropTemp tempDir w).

End Program.

(** ** [isValidGitHubUrl] *)

(** Regular expressions, as far as the pattern of [isValidGitHubUrl] uses
    them; a character class is given by its membership test.  The test of
    a pattern anchored at both ends is by derivatives. *)
Module Re.

Inductive Regex : Type :=
| Never
| Empty
| Class (p : ascii → bool)
| Seq (r1 r2 : Regex)
| Alt (r1 r2 : Regex)
| Plus (r : Regex).

(** One given character. *)
Definition chr (c : ascii) : Regex := Class (Ascii.eqb c).

(** A literal text. *)
Fixpoint lit (s : string) : Regex :=
  match s with
  | EmptyString => Empty
  | String c s' => Seq (chr c) (lit s')
  end.

(** [r?] *)
Definition opt (r : Regex) : Regex := Alt r Empty.

Fixpoint nullable (r : Regex) : bool :=
  match r with
  | Never => false
  | Empty => true
  | Class _ => false
  | Seq r1 r2 => nullable r1 && nullable r2
  | Alt r1 r2 => nullable r1 || nullable r2
  | Plus r => nullable r
  end.

Fixpoint derive (c : ascii) (r : Regex) : Regex :=
  match r with
  | Never => Never
  | Empty => Never
  | Class p => if p c then Empty else Never
  | Seq r1 r2 =>
      if nullable r1 then Alt (Seq (derive c r1) r2) (derive c r2)
      else Seq (derive c r1) r2
  | Alt r1 r2 => Alt (derive c r1) (derive c r2)
  | Plus r' => Seq (derive c r') (opt (Plus r'))
  end.

(** [/^r$/.test(s)] *)
Fixpoint test (r : Regex) (s : string) : bool :=
  match s with
  | EmptyString => nullable r
  | String c s' => test (derive c r) s'
  end.

(** [\w] *)
Definition word (c : ascii) : bool :=
  let n := JS.charCode c in
  ((48 <=? n) && (n <=? 57)) || ((65 <=? n) && (n <=? 90))
  || ((97 <=? n) && (n <=? 122)) || (n =? 95).

End Re.

(** [[\w-]] and [[\w.-]] *)
Definition ownerChar (c : ascii) : bool := Re.word c || Ascii.eqb c "-".
Definition repoChar (c : ascii) : bool :=
  Re.word c || Ascii.eqb c "." || Ascii.eqb c "-".

(** [/^(https?:\/\/)?(www\.)?github\.com\/[\w-]+\/[\w.-]+(\/(tree|blob)\/[\w.-]+)?$/] *)
Definition gitHubUrlPattern : Re.Regex :=
  Re.Seq (Re.opt (Re.Seq (Re.lit "http")
                    (Re.Seq (Re.opt (Re.chr "s")) (Re.lit "://"))))
 (Re.Seq (Re.opt (Re.lit "www."))
 (Re.Seq (Re.lit "github.com/")
 (Re.Seq (Re.Plus (Re.Class ownerChar))
 (Re.Seq (Re.chr "/")
 (Re.Seq (Re.Plus (Re.Class repoChar))
         (Re.opt (Re.Seq (Re.chr "/")
                 (Re.Seq (Re.Alt (Re.lit "tree") (Re.lit "blob"))
                 (Re.Seq (Re.chr "/")
                         (Re.Plus (Re.Class repoChar))))))))))).

Definition isValidGitHubUrl (url : string) : bool :=
  Re.test gitHubUrlPattern url.

(** The answers the prompt of [promptForGitHubUrl] lets through: its
    [validate] returns [true]. *)
Definition promptAccepts (input : string) : bool :=
  negb (bool_decide (JS.trim input = EmptyString)) && isValidGitHubUrl input.

(** ** [getAvailableFileExtensions] *)

(** [extensions.add(ext)] on a [Set], kept in the order of insertion. *)
Definition setAdd (x : string) (s : list string) : list string :=
  if bool_decide (x ∈ s) then s else s ++ [x].

(** The body of the loop of the inner [scanDirectorySync], for the entry
    [e]: an entry on which [fs.statSync] throws is skipped by the inner
    [catch].  (The outer [catch] is for a directory that cannot be
    listed: nothing is found in it, as in a directory whose one entry is
    skipped.) *)
Fixpoint scanItem (excludeDirs : list string) (e : Entry) (extensions : list string)
  : list string :=
  match e with
  | Dangling _ => extensions
  | Dir item sub =>
      if negb (JS.arrayIncludes excludeDirs item)
      then foldl (λ exts e', scanItem excludeDirs e' exts) extensions sub
      else extensions
  | File item _ | Unreadable item =>
      let ext := JS.toLowerCase (Path.extname item) in
      if negb (bool_decide (ext = EmptyString)) then setAdd ext extensions
      else extensions
  end.

Definition scanDirectorySync (excludeDirs : list string) (items : list Entry)
    (extensions : list string) : list string :=
  foldl (λ exts e, scanItem excludeDirs e exts) extensions items.

(** [getAvailableFileExtensions(directory, excludeDirs)], the directory
    given by its listing: [Array.from(extensions).sort()]. *)
Definition getAvailableFileExtensions (items : list Entry) (excludeDirs : list string)
  : list string :=
  JS.sort JS.defaultCompare (scanDirectorySync excludeDirs items []).

(** ** The choices of [main] between the scan and the merge *)

(** The directories [main] leaves out of the scan for extensions. *)
Definition scanExcludeDirs : list string := ["node_modules"; ".git"; "dist"; "build"].

(** [selectedExtensions], from the extensions found and the answer
    [fileSelection] to the checkbox prompt (asked only when some extension
    was found). *)
Definition selectExtensions (availableExtensions fileSelection : list string)
  : list string :=
  if (0 <? length availableExtensions)%nat then
    if JS.arrayIncludes fileSelection "*ALL*" then availableExtensions
    else if (0 <? length fileSelection)%nat then fileSelection
    else availableExtensions
  else [].

(** The options [main] hands to [mergeRepositoryFiles]:
    [{ branch: selectedBranch, includeExtensions: selectedExtensions,
       outputPath: outputPath || defaultOutput }]. *)
Definition mainOptions (repoName : string) (selectedBranch : option string)
    (selectedExtensions : list string) (outputPath : string) : Options :=
  MkOptions None None
    (Some match outputPath with
          | EmptyString => repoName +:+ ".txt"
          | _ => outputPath
          end)
    (Some selectedExtensions) selectedBranch.

(** ** The older copy of [mergeRepositoryFiles] *)

(** The [try] block of the copy kept beside [src/index.ts]: the clone is an
    [exec] inside the block, the tree is not tested for children, nothing is
    returned.  [None] is an exception. *)
Definition mergeAttempt_legacy (localeCompare : string → string → Z)
    (githubUrl : string) (excludeDirs excludeFiles : list string)
    (outputPath : string) (includeExtensions : option (list string))
    (branch : option string) (tempDir repoName : string) (run : Run) (w : World)
  : option unit * World :=
  match cloneOutcome run with
  | CloneFailed _ => (None, w)
  | Cloned listing =>
      let w := cloneInto tempDir listing w in
      match buildFileTree localeCompare (S (listingHeight listing)) listing
              excludeDirs repoName includeExtensions with
      | None => (None, w)
      | Some fileTree =>
          let mergedContent :=
            header githubUrl branch (now run) (treeString repoName fileTree) in
          match processDirectory excludeDirs excludeFiles includeExtensions
                  tempDir repoName tempDir listing mergedContent with
          | None => (None, w)
          | Some mergedContent =>
              match writeFileSync outputPath mergedContent w with
              | None => (None, w)
              | Some w => (Some (), w)
              end
          end
      end
  end.

(** The [catch] block logs and throws the error again; the [finally] block
    is the one of [src/index.ts].  [None] is a rejected promise. *)
Definition mergeRepositoryFiles_legacy (localeCompare : string → string → Z)
    (TEMP_BASE_DIR githubUrl : string) (options : Options) (run : Run) (w : World)
  : option unit * World :=
  let excludeDirs := default defaultExcludeDirs (excludeDirs options) in
  let excludeFiles := default defaultExcludeFiles (excludeFiles options) in
  let outputPath := default defaultOutputPath (outputPath options) in
  let includeExtensions := includeExtensions options in
  let branch := branch options in
  let tempDir := Path.join TEMP_BASE_DIR ("repo-" +:+ uniqueId run) in
  let w := pushTemp tempDir w in
  let repoName := getRepoNameFromUrl githubUrl in
  let '(attempt, w) :=
    mergeAttempt_legacy localeCompare githubUrl excludeDirs excludeFiles outputPath
      includeExtensions branch tempDir repoName run w in
  if existsSync tempDir w then
    match rmSync tempDir w with
    | None => (None, w)
    | Some w => (attempt, dropTemp tempDir w)
    end
  else (attempt, dropTemp tempDir w).

(** ** Notions used in the statements *)

(** The nodes of a tree, the root first, and those below the root. *)
Fixpoint nodes (t : FileTree) : list FileTree :=
  match t with
  | MkFileTree _ _ kids =>
      t :: match kids with
           | Some cs => flat_map nodes cs
           | None => []
           end
  end.

Definition descendants (t : FileTree) : list FileTree :=
  match children t with
  | Some cs => flat_map nodes cs
  | None => []
  end.

(** The number of file nodes of a tree. *)
Fixpoint fileCount (t : FileTree) : nat :=
  match t with
  | MkFileTree _ file _ => 1
  | MkFileTree _ directory (Some cs) => sum_list (map fileCount cs)
  | MkFileTree _ directory None => 0
  end.

(** A node that is not an empty directory and has a file in or below it. *)
Definition populated (n : FileTree) : Prop :=
  (type n = directory → ∃ c cs, children n = Some (c :: cs))
  ∧ (1 ≤ fileCount n)%nat.

(** The files a walk in listing order reaches from an entry of [directory],
    directories named in [excludeDirs] left aside: full path, name, contents
    (none for a file that cannot be read). *)
Fixpoint reached (excludeDirs : list string) (directory : string) (e : Entry)
  : list (string * string * string) :=
  match e with
  | File item content => [(Path.join directory item, item, content)]
  | Dir item sub =>
      if JS.arrayIncludes excludeDirs item then []
      else flat_map (reached excludeDirs (Path.join directory item)) sub
  | Dangling _ => []
  | Unreadable item => [(Path.join directory item, item, EmptyString)]
  end.

Definition reachedFiles (excludeDirs : list string) (directory : string)
    (items : list Entry) : list (string * string * string) :=
  flat_map (reached excludeDirs directory) items.

(** The text of the [// File:] units of a sequence of files. *)
Fixpoint renderBlocks (tempDir repoName : string) (fs : list (string * string * string))
  : string :=
  match fs with
  | [] => EmptyString
  | (fullPath, _, content) :: rest =>
      fileBlock tempDir repoName fullPath content
        +:+ renderBlocks tempDir repoName rest
  end.

(** A dot somewhere after the first character of a name. *)
Definition hasDotAfterFirst (item : string) : bool :=
  match item with
  | EmptyString => false
  | String _ rest => JS.includes rest "."
  end.

(** No entry on which [fs.statSync] throws, at any depth. *)
Fixpoint noDangling (e : Entry) : bool :=
  match e with
  | Dangling _ => false
  | File _ _ | Unreadable _ => true
  | Dir _ sub => forallb noDangling sub
  end.

(** The lines of the diagram of a tree, one for each node: the prefix, the
    marker of the node and its name; the children come below their parent,
    behind the prefix extended by the continuation. *)
Fixpoint treeLines (t : FileTree) (prefix : string) (isLast : bool)
  : list string :=
  match t with
  | MkFileTree nm _ kids =>
      (prefix +:+ (if isLast then elbow else tee) +:+ nm)
      :: match kids with
         | Some cs =>
             (fix each (l : list FileTree) : list string :=
                match l with
                | [] => []
                | child :: rest =>
                    treeLines child (prefix +:+ (if isLast then blank else pipe))
                      (isNil rest)
                    ++ each rest
                end) cs
         | None => []
         end
  end.

(** Lines put together, each ended by a line feed. *)
Fixpoint unlines (ls : list string) : string :=
  match ls with
  | [] => EmptyString
  | l :: rest => l +:+ JS.nl +:+ unlines rest
  end.

(** A string without line feed. *)
Fixpoint oneLine (s : string) : bool :=
  match s with
  | EmptyString => true
  | String c s' => negb (Ascii.eqb c JS.LF) && oneLine s'
  end.

(** The files of a tree in the order of the tree, each with its path from
    the root and its name. *)
Fixpoint leaves (prefix : string) (t : FileTree) : list (string * string) :=
  match t with
  | MkFileTree nm file _ => [(prefix +:+ nm, nm)]
  | MkFileTree nm directory (Some cs) =>
      flat_map (leaves (prefix +:+ nm +:+ "/")) cs
  | MkFileTree nm directory None => []
  end.

(** [s] with its first occurrence of [pat] exchanged for [repl], taken as
    it stands. *)
Fixpoint replaceLiteral (s pat repl : string) : string :=
  match JS.stripPrefix pat s with
  | Some rest => repl +:+ rest
  | None => match s with
            | EmptyString => EmptyString
            | String c s' => String c (replaceLiteral s' pat repl)
            end
  end.

(** The path of the file at [fullPath] with the name of the repository in
    the place of the directory of the clone.  It is what comes after
    [// File:] when the name holds no dollar sign (see [fileBlock_plain]). *)
Definition markerPath (tempDir repoName fullPath : string) : string :=
  replaceLiteral fullPath (tempDir +:+ Path.sep) (repoName +:+ "/").

(** [a] is not after [b] in the order of the default [sort]: that of the
    UTF-16 code units. *)
Definition codeUnitLe (a b : string) : Prop :=
  JS.compareUnits (JS.codeUnits a) (JS.codeUnits b) ≠ Gt.

(** [a] may stand before [b] for the comparison of [buildFileTree]. *)
Definition leItems (localeCompare : string → string → Z) (a b : Entry) : bool :=
  match compareItems localeCompare a b with
  | Some c => c <=? 0
  | None => false
  end.

Fixpoint inOrder {A} (le : A → A → bool) (l : list A) : bool :=
  match l with
  | [] => true
  | x :: l' =>
      match l' with
      | [] => true
      | y :: _ => le x y
      end && inOrder le l'
  end.

(** A clone whose every directory that a walk enters is listed by
    [fs.readdirSync] in the order [buildFileTree] sorts it to. *)
Fixpoint canonical (localeCompare : string → string → Z) (excludeDirs : list string)
    (e : Entry) : bool :=
  match e with
  | Dir item sub =>
      JS.arrayIncludes excludeDirs item
      || (inOrder (leItems localeCompare) sub
          && forallb (canonical localeCompare excludeDirs) sub)
  | _ => true
  end.

Definition canonicalListing (localeCompare : string → string → Z)
    (excludeDirs : list string) (items : list Entry) : bool :=
  inOrder (leItems localeCompare) items
  && forallb (canonical localeCompare excludeDirs) items.

(** The tree [mergeRepositoryFiles] builds in a call, when it gets there. *)
Definition builtTree (localeCompare : string → string → Z) (githubUrl : string)
    (options : Options) (run : Run) : option FileTree :=
  match cloneOutcome run with
  | Cloned listing =>
      buildFileTree localeCompare (S (listingHeight listing)) listing
        (default defaultExcludeDirs (excludeDirs options))
        (getRepoNameFromUrl githubUrl) (includeExtensions options)
  | CloneFailed _ => None
  end.

(** The directory a call of [mergeRepositoryFiles] works in. *)
Definition tempDirOf (TEMP_BASE_DIR : string) (run : Run) : string :=
  Path.join TEMP_BASE_DIR ("repo-" +:+ uniqueId run).

(** [s] ends with [suffix]. *)
Fixpoint endsWith (s suffix : string) : bool :=
  bool_decide (s = suffix)
  || match s with
     | EmptyString => false
     | String _ s' => endsWith s' suffix
     end.

(** [a] may stand before [b] among the children of a node: a directory
    before a file, and otherwise the name of [a] not after that of [b]. *)
Definition nodeBefore (localeCompare : string → string → Z) (a b : FileTree)
  : Prop :=
  match type a, type b with
  | directory, file => True
  | file, directory => False
  | _, _ => localeCompare (name a) (name b) ≤ 0
  end.


(** The same walk comes, at or below the entry, to one that stops the
    merge: an entry on which [fs.statSync] throws, or a file that passes
    the test of [processDirectory] and cannot be read. *)
Fixpoint stopsMerge (excludeDirs excludeFiles : list string)
    (includeExtensions : option (list string)) (e : Entry) : bool :=
  match e with
  | Dangling _ => true
  | File _ _ => false
  | Unreadable item => qualifies excludeFiles includeExtensions item
  | Dir item sub =>
      negb (JS.arrayIncludes excludeDirs item)
      && existsb (stopsMerge excludeDirs excludeFiles includeExtensions) sub
  end.

(** The texts a regular expression stands for. *)
Inductive Matches : Re.Regex → string → Prop :=
| MatchesEmpty : Matches Re.Empty EmptyString
| MatchesClass p c : p c = true → Matches (Re.Class p) (String c EmptyString)
| MatchesSeq r1 r2 s1 s2 :
    Matches r1 s1 → Matches r2 s2 → Matches (Re.Seq r1 r2) (s1 +:+ s2)
| MatchesAltL r1 r2 s : Matches r1 s → Matches (Re.Alt r1 r2) s
| MatchesAltR r1 r2 s : Matches r2 s → Matches (Re.Alt r1 r2) s
| MatchesPlusOne r s : Matches r s → Matches (Re.Plus r) s
| MatchesPlusMore r s1 s2 :
    Matches r s1 → Matches (Re.Plus r) s2 → Matches (Re.Plus r) (s1 +:+ s2).

(** Every character of [s] passes the test [p]. *)
Fixpoint allChars (p : ascii → bool) (s : string) : bool :=
  match s with
  | EmptyString => true
  | String c s' => p c && allChars p s'
  end.

(** The characters of the URLs that [isValidGitHubUrl] lets through. *)
Definition urlChar (c : ascii) : bool :=
  repoChar c || Ascii.eqb c "/" || Ascii.eqb c ":".

(** ** Sample inputs *)

Module Samples.

(** A comparison by code units stands for [localeCompare] in the examples. *)
Definition compareNames : string → string → Z := JS.defaultCompare.
Definition tmp : string := "/tmp/github-merger".

Definition tab : string := String "009"%char EmptyString.

(** A line of [git ls-remote --heads]. *)
Definition headLine (sha nm : string) : string :=
  sha +:+ tab +:+ "refs/heads/" +:+ nm +:+ JS.nl.

Definition gitNotFound : GitRemote :=
  MkGitRemote (Rejected "Command failed: git ls-remote: remote: Repository not found.")
              (Rejected EmptyString) (Rejected EmptyString).
Definition gitUnreachable : GitRemote :=
  MkGitRemote (Rejected "Command failed: git ls-remote: Could not resolve host: github.com")
              (Rejected EmptyString) (Rejected EmptyString).
Definition gitNoHeadsCloneFails : GitRemote :=
  MkGitRemote (Resolved EmptyString)
              (Rejected "Command failed: git clone --bare: early EOF")
              (Resolved EmptyString).
Definition gitNoHeadsNoBranches : GitRemote :=
  MkGitRemote (Resolved EmptyString) (Resolved EmptyString) (Resolved EmptyString).
Definition gitMainTwice : GitRemote :=
  MkGitRemote (Resolved (headLine "1f3a" "main" +:+ headLine "9c2e" "main"))
              (Rejected EmptyString) (Rejected EmptyString).
Definition gitTwoHeads : GitRemote :=
  MkGitRemote (Resolved (headLine "1f3a" "main" +:+ headLine "9c2e" "dev"))
              (Rejected EmptyString) (Rejected EmptyString).

Definition emptyWorld : World := MkWorld [] ∅ ∅ ∅ [].

(** A clone, listed by name: [docs] holds no TypeScript, [node_modules] is
    excluded by default. *)
Definition listingA : list Entry :=
  [ File "a.ts" "top";
    File "b.md" "# b";
    Dir "docs" [File "guide.md" "guide"];
    Dir "node_modules" [File "x.ts" "x"];
    Dir "src" [File "a.ts" "let a"] ].
Definition srcNode : FileTree :=
  MkFileTree "src" directory (Some [MkFileTree "a.ts" file None]).
Definition treeA : FileTree :=
  MkFileTree "repo" directory (Some [srcNode; MkFileTree "a.ts" file None]).
Definition emptyTree : FileTree := MkFileTree "repo" directory (Some []).
Definition urlA : string := "https://github.com/u/repo.git".
Definition runA : Run := MkRun "k1" "2024-01-01T00:00:00.000Z" (Cloned listingA).
Definition onlyTs : Options := MkOptions None None None (Some [".ts"]) None.
Definition onlyRs : Options := MkOptions None None None (Some [".rs"]) None.

(** The text written for [listingA] with [onlyTs]. *)
Definition outputA : string :=
  "// Source: https://github.com/u/repo.git" +:+ JS.nl
    +:+ "// Merged on: 2024-01-01T00:00:00.000Z" +:+ JS.nl +:+ JS.nl
    +:+ "/*" +:+ JS.nl
    +:+ "repo/" +:+ JS.nl
    +:+ blank +:+ pipe +:+ elbow +:+ "a.ts" +:+ JS.nl
    +:+ blank +:+ elbow +:+ "a.ts" +:+ JS.nl
    +:+ "*/" +:+ JS.nl +:+ JS.nl
    +:+ JS.nl +:+ "// File: repo/a.ts" +:+ JS.nl +:+ "top" +:+ JS.nl
    +:+ JS.nl +:+ "// File: repo/src/a.ts" +:+ JS.nl +:+ "let a" +:+ JS.nl.

(** A world in which the directory of [runA] cannot be deleted. *)
Definition stuckWorld : World :=
  MkWorld [] ∅ {[tempDirOf tmp runA]} ∅ [].

(** The output of [git branch -r] in a bare clone with one branch. *)
Definition branchListing : string :=
  "  origin/HEAD -> origin/dev" +:+ JS.nl +:+ "  origin/dev" +:+ JS.nl.

(** The same clone as [listingA] without what the filters drop, once
    listed by name and once directories first. *)
Definition listedByName : list Entry :=
  [ File "a.ts" "top"; Dir "src" [File "a.ts" "let a"] ].
Definition listedCanonically : list Entry :=
  [ Dir "src" [File "a.ts" "let a"]; File "a.ts" "top" ].
Definition blockTop : string :=
  JS.nl +:+ "// File: repo/a.ts" +:+ JS.nl +:+ "top" +:+ JS.nl.
Definition blockSrc : string :=
  JS.nl +:+ "// File: repo/src/a.ts" +:+ JS.nl +:+ "let a" +:+ JS.nl.

(** A directory with names that have no extension. *)
Definition listingC : list Entry :=
  [ File ".gitignore" "dist"; File "Makefile" "all:"; File "a.ts" "let a" ].

(** A call of [mergeRepositoryFiles] whose clone fails. *)
Definition runFailed : Run :=
  MkRun "k1" "2024-01-01T00:00:00.000Z"
    (CloneFailed "Command failed: git clone: Repository not found.").
(** A world with another call's directory registered and on disk. *)
Definition busyWorld : World :=
  MkWorld ["/tmp/github-merger/scan-k0"] {["/tmp/github-merger/scan-k0"]} ∅ ∅ [].
(** What [main] hands over when the scan found no extension. *)
Definition nothingFound : Options :=
  mainOptions "repo" None (selectExtensions [] ["*ALL*"]) EmptyString.

(** No head on the remote, one branch in the bare clone. *)
Definition gitFallbackDev : GitRemote :=
  MkGitRemote (Resolved EmptyString) (Resolved EmptyString) (Resolved branchListing).

(** A clone with files at three depths, one excluded by name, some left
    out by their extension, and an excluded directory. *)
Definition listingD : list Entry :=
  [ File "X.TS" "x";
    File "secrets.env" "s";
    Dir "src" [ File "b.ts" "b";
                File "notes.md" "n";
                Dir "deep" [File "c.env" "c"; File "secrets.env" "t"] ];
    Dir "node_modules" [File "y.ts" "y"] ].
Definition outputD : string :=
  JS.nl +:+ "// File: repo/X.TS" +:+ JS.nl +:+ "x" +:+ JS.nl
    +:+ JS.nl +:+ "// File: repo/src/b.ts" +:+ JS.nl +:+ "b" +:+ JS.nl
    +:+ JS.nl +:+ "// File: repo/src/deep/c.env" +:+ JS.nl +:+ "c" +:+ JS.nl.

(** A clone with a file that passes the tests and cannot be read, below a
    file that can. *)
Definition listingLocked : list Entry :=
  [ File "a.ts" "let a"; Dir "src" [Unreadable "b.ts"] ].


End Samples.

(** * Properties *)

(** ** Facts about the built-ins *)

Section SortFacts.
Context {A : Type}.
Implicit Types (l : list A) (x : A).

Lemma insert_Permutation (cmp : A → A → Z) x l : JS.insert cmp x l ≡ₚ x :: l.
Proof.
  induction l as [|y l IH]; simpl; [done|].
  destruct (cmp x y <=? 0); [done|].
  rewrite IH. apply Permutation_swap.
Qed.

Lemma sort_Permutation (cmp : A → A → Z) l : JS.sort cmp l ≡ₚ l.
Proof.
  induction l as [|x l IH]; simpl; [done|].
  by rewrite insert_Permutation, IH.
Qed.

Lemma insertM_Permutation (cmp : A → A → option Z) x l r :
  JS.insertM cmp x l = Some r → r ≡ₚ x :: l.
Proof.
  revert r. induction l as [|y l IH]; simpl; intros r Hr.
  - by inversion Hr.
  - destruct (cmp x y) as [c|]; simpl in Hr; [|done].
    destruct (c <=? 0).
    + by inversion Hr.
    + destruct (JS.insertM cmp x l) as [r'|]; simpl in Hr; [|done].
      inversion Hr; subst. rewrite (IH r' eq_refl). apply Permutation_swap.
Qed.

Lemma sortM_Permutation (cmp : A → A → option Z) l s :
  JS.sortM cmp l = Some s → s ≡ₚ l.
Proof.
  revert s. induction l as [|x l IH]; simpl; intros s Hs.
  - by inversion Hs.
  - destruct (JS.sortM cmp l) as [s'|]; simpl in Hs; [|done].
    rewrite (insertM_Permutation _ _ _ _ Hs). by rewrite (IH s' eq_refl).
Qed.

(** An array already in order is left as it is. *)
Lemma sortM_in_order (cmp : A → A → option Z) l :
  Sorted (λ a b, ∃ c, cmp a b = Some c ∧ c ≤ 0) l → JS.sortM cmp l = Some l.
Proof.
  induction 1 as [|x l Hl IH Hhd]; simpl; [done|].
  rewrite IH. simpl. destruct Hhd as [|y l (c & Hc & Hle)]; simpl; [done|].
  rewrite Hc. simpl. by rewrite (proj2 (Z.leb_le _ _) Hle).
Qed.

(** When the comparison never throws, [sortM] is [sort]. *)
Lemma sortM_pure (cmp : A → A → Z) l :
  JS.sortM (λ a b, Some (cmp a b)) l = Some (JS.sort cmp l).
Proof.
  assert (Hins : ∀ x l, JS.insertM (λ a b, Some (cmp a b)) x l
                        = Some (JS.insert cmp x l)).
  { intros x k. induction k as [|y k IH]; simpl; [done|].
    destruct (cmp x y <=? 0); [done|]. by rewrite IH. }
  induction l as [|x l IH]; simpl; [done|].
  rewrite IH. simpl. apply Hins.
Qed.

(** For a total comparison the result is in order. *)
Lemma insert_Sorted (cmp : A → A → Z) x l :
  (∀ a b, 0 < cmp a b → cmp b a ≤ 0) →
  Sorted (λ a b, cmp a b ≤ 0) l → Sorted (λ a b, cmp a b ≤ 0) (JS.insert cmp x l).
Proof.
  intros Htot. induction 1 as [|y l Hl IH Hhd]; simpl.
  - repeat constructor.
  - destruct (Z.leb_spec (cmp x y) 0) as [Hle|Hgt].
    + constructor; [by constructor|by constructor].
    + constructor; [done|].
      destruct Hhd as [|z l Hz]; simpl.
      * constructor. by apply Htot.
      * destruct (Z.leb_spec (cmp x z) 0); constructor; [by apply Htot|done].
Qed.

Lemma sort_Sorted (cmp : A → A → Z) l :
  (∀ a b, 0 < cmp a b → cmp b a ≤ 0) →
  Sorted (λ a b, cmp a b ≤ 0) (JS.sort cmp l).
Proof.
  intros Htot. induction l as [|x l IH]; simpl; [constructor|].
  by apply insert_Sorted.
Qed.
End SortFacts.

Lemma forOf_ext {S} (f g : Entry → S → option S) (l : list Entry) (s : S) :
  (∀ e s', e ∈ l → f e s' = g e s') → forOf f l s = forOf g l s.
Proof.
  revert s. induction l as [|e l IH]; intros s Hfg; simpl; [done|].
  rewrite (Hfg e s) by left.
  destruct (g e s) as [s'|]; simpl; [|done].
  apply IH. intros e' s'' He'. apply Hfg. by right.
Qed.

Lemma forOf_app {S} (f : Entry → S → option S) (l1 l2 : list Entry) (s : S) :
  forOf f (l1 ++ l2) s = forOf f l1 s ≫= forOf f l2.
Proof.
  revert s. induction l1 as [|e l1 IH]; intros s; simpl; [done|].
  destruct (f e s) as [s'|]; simpl; [apply IH|done].
Qed.

(** An invariant of the threaded value is kept by the loop. *)
Lemma forOf_invariant {S} (P : S → Prop) (f : Entry → S → option S)
    (l : list Entry) (s r : S) :
  (∀ e s1 s2, e ∈ l → P s1 → f e s1 = Some s2 → P s2) →
  P s → forOf f l s = Some r → P r.
Proof.
  revert s. induction l as [|e l IH]; intros s Hstep Hs Hr; simpl in Hr.
  - by inversion Hr; subst.
  - destruct (f e s) as [s'|] eqn:Hf; simpl in Hr; [|done].
    apply (IH s'); [|by eapply Hstep; [left| |]|done].
    intros e' s1 s2 He'. apply Hstep. by right.
Qed.

Lemma entryHeight_elem (e : Entry) (l : list Entry) :
  e ∈ l → (entryHeight e ≤ listingHeight l)%nat.
Proof.
  induction 1 as [e l|e e' l _ IH]; unfold listingHeight; simpl.
  - lia.
  - unfold listingHeight in IH. lia.
Qed.

Lemma entryItems_height (e : Entry) (l : list Entry) :
  e ∈ l → isDirectory e = Some true →
  (listingHeight (entryItems e) < listingHeight l)%nat.
Proof.
  intros He Hdir. apply entryHeight_elem in He.
  destruct e as [| item sub | |]; simpl in *; try done;
    try (unfold listingHeight; lia).
Qed.

(** ** [buildFileTree] *)

Section BuildFileTree.
Variable localeCompare : string → string → Z.
Variables (excludeDirs : list string) (includeExtensions : option (list string)).

Local Notation "'build'" := (λ depth items repoName,
  buildFileTree localeCompare depth items excludeDirs repoName includeExtensions)
  (only parsing).

Lemma buildItem_ext (f g : list Entry → string → option FileTree) e kids :
  (isDirectory e = Some true →
   f (entryItems e) (entryName e) = g (entryItems e) (entryName e)) →
  buildItem f excludeDirs includeExtensions e kids
  = buildItem g excludeDirs includeExtensions e kids.
Proof.
  intros Hfg. unfold buildItem.
  destruct (isDirectory e) as [[]|]; simpl; [|done..].
  destruct (negb _); [|done]. by rewrite Hfg.
Qed.

(** Any depth above the height of the listing gives the same result: the
    bound on the recursion is never what stops [buildFileTree] there. *)
Lemma buildFileTree_depth d1 d2 items repoName :
  (listingHeight items < d1)%nat → (listingHeight items < d2)%nat →
  build d1 items repoName = build d2 items repoName.
Proof.
  revert d2 items repoName.
  induction d1 as [|d1 IH]; intros [|d2] items repoName H1 H2; try lia.
  simpl. destruct (JS.sortM _ items) as [sorted|] eqn:Hsort; simpl; [|done].
  apply sortM_Permutation in Hsort.
  rewrite (forOf_ext _
    (buildItem (λ sub nm, build d2 sub nm) excludeDirs includeExtensions));
    [done|].
  intros e kids He. apply buildItem_ext. intros Hdir.
  rewrite Hsort in He.
  pose proof (entryItems_height _ _ He Hdir). apply IH; lia.
Qed.

Lemma compareItems_total a b :
  noDangling a = true → noDangling b = true →
  is_Some (compareItems localeCompare a b).
Proof.
  unfold compareItems. destruct a, b; simpl; try done; intros _ _; eauto.
Qed.

Lemma insertM_total (P : Entry → Prop) cmp x l :
  (∀ a b, P a → P b → is_Some (cmp a b)) →
  P x → Forall P l → is_Some (JS.insertM cmp x l).
Proof.
  intros Hcmp Hx. induction 1 as [|y l Hy Hl IH]; simpl; [by eexists|].
  destruct (Hcmp x y Hx Hy) as [c ->]. simpl.
  destruct (c <=? 0); [by eexists|].
  destruct IH as [r ->]. by eexists.
Qed.

Lemma sortM_total (P : Entry → Prop) cmp l :
  (∀ a b, P a → P b → is_Some (cmp a b)) →
  Forall P l → is_Some (JS.sortM cmp l).
Proof.
  intros Hcmp. induction 1 as [|x l Hx Hl IH]; simpl; [by eexists|].
  destruct IH as [s Hs]. rewrite Hs. simpl.
  apply (insertM_total P); [done..|].
  apply sortM_Permutation in Hs. by rewrite Hs.
Qed.

Lemma forOf_total {S} (f : Entry → S → option S) l s :
  (∀ e s', e ∈ l → is_Some (f e s')) → is_Some (forOf f l s).
Proof.
  revert s. induction l as [|e l IH]; intros s Hf; simpl; [by eexists|].
  destruct (Hf e s) as [s' ->]; [left|]. simpl.
  apply IH. intros e' s'' He'. apply Hf. by right.
Qed.

(** [buildFileTree] returns a tree on every clone in which each entry can
    be examined. *)
Lemma buildFileTree_total depth items repoName :
  forallb noDangling items = true → (listingHeight items < depth)%nat →
  is_Some (build depth items repoName).
Proof.
  revert items repoName.
  induction depth as [|depth IH]; intros items repoName Hok Hh; [lia|].
  simpl.
  assert (Hall : Forall (λ e, noDangling e = true) items).
  { apply Forall_forall. intros e He.
    apply (proj1 (forallb_forall _ _) Hok). by apply list_elem_of_In. }
  destruct (sortM_total (λ e, noDangling e = true)
              (compareItems localeCompare) items) as [sorted Hsort];
    [apply compareItems_total|done|].
  rewrite Hsort. simpl.
  apply sortM_Permutation in Hsort.
  destruct (forOf_total
    (buildItem (λ sub nm, build depth sub nm) excludeDirs includeExtensions)
    sorted []) as [kids ->]; [|by eexists].
  intros e kids He. rewrite Hsort in He.
  assert (Hnd : noDangling e = true)
    by (by apply (proj1 (Forall_forall _ _) Hall)).
  unfold buildItem.
  destruct e as [item content|item sub|item|item]; simpl in *; [| |done|].
  - destruct (extensionIncluded _ _); by eexists.
  - destruct (negb _); [|by eexists].
    destruct (IH sub item) as [t ->]; [done| |].
    + pose proof (entryItems_height (Dir item sub) items He eq_refl).
      simpl in *. lia.
    + simpl. destruct (hasChildren t); by eexists.
  - destruct (extensionIncluded _ _); by eexists.
Qed.

Lemma nodes_unfold t : nodes t = t :: descendants t.
Proof. by destruct t. Qed.

Lemma Forall_flat_map_nodes (Q : FileTree → Prop) (l : list FileTree) :
  Forall Q (flat_map nodes l) ↔ Forall (λ k, Forall Q (nodes k)) l.
Proof.
  induction l as [|k l IH]; simpl.
  - split; constructor.
  - rewrite Forall_app, Forall_cons, IH. tauto.
Qed.

Section NodeInvariant.
(** A property [Q] of nodes that holds of the file nodes the loop pushes
    and of a directory node as soon as it has children that have it. *)
Variable Q : FileTree → Prop.
Hypothesis Q_file : ∀ item,
  extensionIncluded includeExtensions (JS.toLowerCase (Path.extname item)) = true →
  Q (MkFileTree item file None).
Hypothesis Q_directory : ∀ nm c cs,
  Forall Q (c :: cs) → Q (MkFileTree nm directory (Some (c :: cs))).

Lemma buildItem_nodes (rec : list Entry → string → option FileTree) e kids kids' :
  (∀ sub nm t, rec sub nm = Some t →
     type t = directory ∧ Forall Q (descendants t)) →
  Forall (λ k, Forall Q (nodes k)) kids →
  buildItem rec excludeDirs includeExtensions e kids = Some kids' →
  Forall (λ k, Forall Q (nodes k)) kids'.
Proof.
  intros Hrec Hkids. unfold buildItem.
  destruct (isDirectory e) as [[]|]; simpl; [| |done].
  - destruct (negb _); [|by intros [= <-]].
    destruct (rec _ _) as [t|] eqn:Ht; simpl; [|done].
    destruct (hasChildren t) eqn:Hc; intros [= <-]; [|done].
    apply Forall_app. split; [done|]. constructor; [|done].
    destruct (Hrec _ _ _ Ht) as [Hty Hdesc].
    rewrite nodes_unfold. constructor; [|done].
    destruct t as [nm ty [[|c cs]|]]; simpl in *; try done. subst ty.
    apply Q_directory.
    unfold descendants in Hdesc. cbn [children] in Hdesc.
    apply Forall_flat_map_nodes in Hdesc.
    eapply Forall_impl; [exact Hdesc|].
    intros k Hk. cbv beta in Hk. rewrite nodes_unfold in Hk.
    by apply Forall_cons in Hk as [? _].
  - destruct (extensionIncluded _ _) eqn:Hext; intros [= <-]; [|done].
    apply Forall_app. split; [done|].
    constructor; [|done]. simpl. constructor; [|done]. by apply Q_file.
Qed.

(** [Q] holds of every node below the root of the tree built. *)
Lemma buildFileTree_nodes depth items repoName t :
  build depth items repoName = Some t →
  type t = directory ∧ Forall Q (descendants t).
Proof.
  revert items repoName t.
  induction depth as [|depth IH]; intros items repoName t; simpl; [done|].
  destruct (JS.sortM _ items) as [sorted|]; simpl; [|done].
  destruct (forOf _ sorted []) as [kids|] eqn:Hloop; simpl; [|done].
  intros [= <-]. split; [done|].
  unfold descendants. cbn [children]. apply Forall_flat_map_nodes.
  eapply (forOf_invariant _ _ sorted [] kids); [|constructor|exact Hloop].
  intros e s1 s2 _ Hs1. by apply buildItem_nodes; [apply IH|].
Qed.
End NodeInvariant.

(** No directory below the root is empty, and each holds a file. *)
Lemma buildFileTree_populated depth items repoName t :
  build depth items repoName = Some t → Forall populated (descendants t).
Proof.
  intros Ht. eapply buildFileTree_nodes; [| |exact Ht].
  - intros item _. split; simpl; [done|lia].
  - intros nm c cs [[_ Hc] _]%Forall_cons. split; [by eauto|].
    change (1 ≤ fileCount c + sum_list (map fileCount cs))%nat. lia.
Qed.

(** Every file node of the tree passed the test on extensions. *)
Lemma buildFileTree_files_included depth items repoName t :
  build depth items repoName = Some t →
  Forall (λ n, type n = file →
            extensionIncluded includeExtensions
              (JS.toLowerCase (Path.extname (name n))) = true)
         (descendants t).
Proof.
  intros Ht.
  eapply (buildFileTree_nodes (λ n, type n = file → _)); [| |exact Ht];
    simpl; [by intros item Hext _|done].
Qed.

End BuildFileTree.

(** ** [processDirectory] *)

Lemma Entry_nested_ind (P : Entry → Prop) :
  (∀ item content, P (File item content)) →
  (∀ item sub, Forall P sub → P (Dir item sub)) →
  (∀ item, P (Dangling item)) →
  (∀ item, P (Unreadable item)) →
  ∀ e, P e.
Proof.
  intros HF HD HG HU. fix IH 1. intros [item content|item sub|item|item].
  - apply HF.
  - apply HD. induction sub as [|e sub IHs]; constructor; [apply IH|apply IHs].
  - apply HG.
  - apply HU.
Qed.

Lemma append_cons (x : ascii) (a b : string) :
  String x a +:+ b = String x (a +:+ b).
Proof. reflexivity. Qed.

Lemma append_assoc (a b c : string) : (a +:+ b) +:+ c = a +:+ b +:+ c.
Proof.
  induction a as [|x a IH]; [done|]. rewrite !append_cons. by rewrite IH.
Qed.

Lemma append_empty_r (a : string) : a +:+ EmptyString = a.
Proof.
  induction a as [|x a IH]; [done|]. rewrite append_cons. by rewrite IH.
Qed.

Lemma renderBlocks_app tempDir repoName fs gs :
  renderBlocks tempDir repoName (fs ++ gs)
  = renderBlocks tempDir repoName fs +:+ renderBlocks tempDir repoName gs.
Proof.
  induction fs as [|[[fullPath item] content] fs IH]; [done|].
  cbn [renderBlocks app]. by rewrite IH, append_assoc.
Qed.

Section ProcessDirectoryFacts.
Variables (excludeDirs excludeFiles : list string).
Variable includeExtensions : option (list string).
Variables (tempDir repoName : string).

Local Notation "'process'" :=
  (processItem excludeDirs excludeFiles includeExtensions tempDir repoName)
  (only parsing).
Local Notation "'selected'" :=
  (filter (λ f : string * string * string,
             qualifies excludeFiles includeExtensions f.1.2 = true))
  (only parsing).

Lemma forOf_processItem_appends (l : list Entry) directory mc mc' :
  Forall (λ e, ∀ directory mc mc', process directory e mc = Some mc' →
     mc' = mc +:+ renderBlocks tempDir repoName
                    (selected (reached excludeDirs directory e))) l →
  forOf (process directory) l mc = Some mc' →
  mc' = mc +:+ renderBlocks tempDir repoName
                 (selected (reachedFiles excludeDirs directory l)).
Proof.
  intros Hl. revert mc. induction Hl as [|e l He Hl IH]; intros mc; simpl.
  - intros [= <-]. by rewrite append_empty_r.
  - destruct (process directory e mc) as [mc1|] eqn:H1; simpl; [|done].
    intros H2. apply IH in H2. apply He in H1. subst mc1.
    unfold reachedFiles in *. simpl.
    by rewrite filter_app, renderBlocks_app, <- append_assoc.
Qed.

(** The walk appends the units of the files it reaches that pass the
    test, in the order it reaches them, and nothing else. *)
Lemma processItem_appends e : ∀ directory mc mc',
  process directory e mc = Some mc' →
  mc' = mc +:+ renderBlocks tempDir repoName
                 (selected (reached excludeDirs directory e)).
Proof.
  induction e as [item content|item sub IH|item|item] using Entry_nested_ind;
    intros directory mc mc'; simpl.
  - rewrite filter_cons, filter_nil. simpl.
    destruct (qualifies _ _ item) eqn:Hq.
    + rewrite decide_True by done. intros [= <-]. simpl.
      by rewrite append_empty_r.
    + rewrite decide_False by done. intros [= <-]. by rewrite append_empty_r.
  - destruct (JS.arrayIncludes excludeDirs item); simpl.
    + intros [= <-]. by rewrite append_empty_r.
    + by apply forOf_processItem_appends.
  - done.
  - rewrite filter_cons, filter_nil. simpl.
    destruct (qualifies _ _ item) eqn:Hq; [done|].
    rewrite decide_False by done. intros [= <-]. by rewrite append_empty_r.
Qed.

Lemma processDirectory_appends directory items mc mc' :
  processDirectory excludeDirs excludeFiles includeExtensions tempDir repoName
    directory items mc = Some mc' →
  mc' = mc +:+ renderBlocks tempDir repoName
                 (selected (reachedFiles excludeDirs directory items)).
Proof.
  apply forOf_processItem_appends, Forall_forall.
  intros e _. apply processItem_appends.
Qed.

(** The walk ends normally exactly on the clones in which it comes to no
    entry that cannot be examined and to no file that passes the test and
    cannot be read. *)
Lemma processItem_Some_iff e : ∀ directory mc,
  is_Some (process directory e mc)
  ↔ stopsMerge excludeDirs excludeFiles includeExtensions e = false.
Proof.
  induction e as [item content|item sub IH|item|item] using Entry_nested_ind;
    intros directory mc; cbn [processItem stopsMerge].
  - split; [done|]. intros _. destruct (qualifies _ _ item); by eexists.
  - destruct (negb _); cbn [andb]; [|by split; [|eexists]].
    revert mc. induction IH as [|e sub He _ IHsub]; intros mc;
      cbn [forOf existsb]; [by split; [|eexists]|].
    rewrite orb_false_iff, <- (He (Path.join directory item) mc).
    destruct (processItem _ _ _ _ _ _ e mc) as [mc1|]; cbn [mbind option_bind].
    + rewrite (IHsub mc1). split; [by split; [eexists|]|by intros [_ ?]].
    + split; [by intros [? [=]]|by intros [[? [=]] _]].
  - split; [by intros [? [=]]|done].
  - destruct (qualifies _ _ item); [split; [by intros [? [=]]|done]|].
    by split; [|eexists].
Qed.

Lemma processDirectory_Some_iff directory items mc :
  is_Some (processDirectory excludeDirs excludeFiles includeExtensions tempDir
             repoName directory items mc)
  ↔ existsb (stopsMerge excludeDirs excludeFiles includeExtensions) items = false.
Proof.
  unfold processDirectory. revert mc.
  induction items as [|e items IH]; intros mc; cbn [forOf existsb];
    [by split; [|eexists]|].
  rewrite orb_false_iff, <- (processItem_Some_iff e directory mc).
  destruct (processItem _ _ _ _ _ _ e mc) as [mc1|]; cbn [mbind option_bind].
  - rewrite (IH mc1). split; [by split; [eexists|]|by intros [_ ?]].
  - split; [by intros [? [=]]|by intros [[? [=]] _]].
Qed.

(** What [processDirectory] does, on every clone. *)
Lemma processDirectory_run directory items mc :
  processDirectory excludeDirs excludeFiles includeExtensions tempDir repoName
    directory items mc
  = if existsb (stopsMerge excludeDirs excludeFiles includeExtensions) items
    then None
    else Some (mc +:+ renderBlocks tempDir repoName
                        (selected (reachedFiles excludeDirs directory items))).
Proof.
  pose proof (processDirectory_Some_iff directory items mc) as Hiff.
  destruct (processDirectory _ _ _ _ _ _ _ _) as [mc'|] eqn:Hrun.
  - rewrite (proj1 Hiff) by by eexists.
    by rewrite (processDirectory_appends _ _ _ _ Hrun).
  - destruct (existsb _ items); [done|].
    by destruct (proj2 Hiff eq_refl) as [? [=]].
Qed.
End ProcessDirectoryFacts.

(** ** [path.extname] and the test on extensions *)

Lemma includes_dot_cons (c : ascii) (s : string) :
  JS.includes (String c s) "." = Ascii.eqb "." c || JS.includes s ".".
Proof.
  cbn [JS.includes JS.startsWith].
  destruct (Ascii.eqb "." c); [by destruct s|done].
Qed.

Lemma includes_dot_false (s : string) :
  JS.includes s "." = false →
  Forall (λ c, c ≠ "."%char) (String.list_ascii_of_string s).
Proof.
  induction s as [|c s IH]; [constructor|].
  rewrite includes_dot_cons. intros [Hc Hs]%orb_false_iff.
  simpl. constructor; [|by apply IH].
  apply Ascii.eqb_neq in Hc. congruence.
Qed.

(** As long as the scan of [path.extname] has met no dot, [startDot] and
    [preDotState] keep their initial values. *)
Lemma extnameLoop_no_dot (l : list ascii) : ∀ i st,
  Path.startDot st = -1 → Path.preDotState st = 0 →
  Forall (λ c, c ≠ "."%char) l →
  Path.startDot (Path.extnameLoop l i st) = -1
  ∧ Path.preDotState (Path.extnameLoop l i st) = 0.
Proof.
  induction l as [|c l IH]; intros i st Hsd Hpd Hl;
    cbn [Path.extnameLoop]; [done|].
  apply Forall_cons in Hl as [Hc Hl].
  destruct (Ascii.eqb c "/").
  - destruct (negb _); [done|]. by apply IH.
  - apply Ascii.eqb_neq in Hc. rewrite Hc.
    destruct (Path.end_ st =? -1); simpl; rewrite Hsd; simpl; by apply IH.
Qed.

Lemma extnameLoop_dot_first (l : list ascii) (c : ascii) : ∀ i st,
  Path.startDot st = -1 → Path.preDotState st = 0 →
  Forall (λ c, c ≠ "."%char) l →
  Path.startDot (Path.extnameLoop (l ++ [c]) i st) = -1
  ∨ Path.preDotState (Path.extnameLoop (l ++ [c]) i st) = 0.
Proof.
  induction l as [|a l IH]; intros i st Hsd Hpd Hl;
    cbn [Path.extnameLoop app].
  - destruct (Ascii.eqb c "/").
    + destruct (negb _); by left.
    + destruct (Ascii.eqb c ".");
        destruct (Path.end_ st =? -1); simpl; rewrite Hsd; simpl; auto.
  - apply Forall_cons in Hl as [Ha Hl].
    destruct (Ascii.eqb a "/").
    + destruct (negb _); [by left|]. by apply IH.
    + apply Ascii.eqb_neq in Ha. rewrite Ha.
      destruct (Path.end_ st =? -1); simpl; rewrite Hsd; simpl; by apply IH.
Qed.

(** A name with no dot after its first character has no extension. *)
Lemma extname_no_dot (item : string) :
  hasDotAfterFirst item = false → Path.extname item = EmptyString.
Proof.
  destruct item as [|c rest]; [done|]. simpl. intros Hdot.
  apply includes_dot_false in Hdot.
  unfold Path.extname. cbn [String.list_ascii_of_string rev].
  set (st := Path.extnameLoop _ _ _).
  assert (Hst : Path.startDot st = -1 ∨ Path.preDotState st = 0).
  { subst st. apply extnameLoop_dot_first; [done..|]. by apply Forall_rev. }
  destruct Hst as [-> | ->]; simpl; [done|].
  by rewrite !orb_true_r.
Qed.

Lemma toLowerCase_empty (e : string) :
  JS.toLowerCase e = EmptyString ↔ e = EmptyString.
Proof. by destruct e. Qed.

Lemma lowered_includes_empty (exts : list string) :
  JS.arrayIncludes (JS.toLowerCase <$> exts) EmptyString = true ↔ EmptyString ∈ exts.
Proof.
  unfold JS.arrayIncludes. rewrite bool_decide_eq_true, list_elem_of_fmap.
  split.
  - intros (e & He & Hin). destruct e; [done|discriminate He].
  - intros Hin. exists EmptyString. by split.
Qed.

Lemma dot_prefixed_not_empty (exts : list string) :
  Forall (λ e, JS.startsWith e "." = true) exts → EmptyString ∉ exts.
Proof.
  intros Hall Hin. by apply (proj1 (Forall_forall _ _) Hall) in Hin.
Qed.

(** The test of the loop of [processDirectory], read as a proposition. *)
Lemma qualifies_spec excludeFiles includeExtensions item :
  qualifies excludeFiles includeExtensions item = true ↔
  (item ∉ excludeFiles)
  ∧ (match includeExtensions with
     | None => True
     | Some exts =>
         JS.toLowerCase (Path.extname item) ∈ JS.toLowerCase <$> exts
     end).
Proof.
  unfold qualifies, extensionIncluded, JS.arrayIncludes.
  rewrite andb_true_iff, negb_true_iff, bool_decide_eq_false.
  destruct includeExtensions as [exts|];
    [by rewrite bool_decide_eq_true|tauto].
Qed.

(** ** [getAvailableBranches] *)

Lemma compareUnits_antisym (a : list Z) : ∀ b,
  JS.compareUnits b a = CompOpp (JS.compareUnits a b).
Proof.
  induction a as [|x a IH]; intros [|y b]; cbn [JS.compareUnits]; try done.
  rewrite (Z.compare_antisym x y).
  destruct (x ?= y); cbn [CompOpp]; [apply IH|done..].
Qed.

Lemma compareUnits_trans (a : list Z) : ∀ b c,
  JS.compareUnits a b ≠ Gt → JS.compareUnits b c ≠ Gt →
  JS.compareUnits a c ≠ Gt.
Proof.
  induction a as [|x a IH]; intros [|y b] [|z c]; cbn [JS.compareUnits];
    try done.
  destruct (Z.compare_spec x y) as [->|Hxy|Hxy]; [| |done].
  - destruct (Z.compare_spec y z) as [->|Hyz|Hyz]; [apply IH|done..].
  - intros _. destruct (Z.compare_spec y z) as [->|Hyz|Hyz]; [| |done];
      intros _; destruct (Z.compare_spec x z); try done; lia.
Qed.

Lemma defaultCompare_total (a b : string) :
  0 < JS.defaultCompare a b → JS.defaultCompare b a ≤ 0.
Proof.
  unfold JS.defaultCompare.
  rewrite (compareUnits_antisym (JS.codeUnits a) (JS.codeUnits b)).
  destruct (JS.compareUnits _ _); simpl; lia.
Qed.

Lemma defaultCompare_le (a b : string) :
  JS.defaultCompare a b ≤ 0 ↔ codeUnitLe a b.
Proof.
  unfold JS.defaultCompare, codeUnitLe.
  destruct (JS.compareUnits _ _); simpl; split; try done; lia.
Qed.

Lemma defaultCompare_trans (a b c : string) :
  JS.defaultCompare a b ≤ 0 → JS.defaultCompare b c ≤ 0 →
  JS.defaultCompare a c ≤ 0.
Proof.
  rewrite !defaultCompare_le. apply compareUnits_trans.
Qed.

Lemma Sorted_weaken {A} (R R' : A → A → Prop) (l : list A) :
  (∀ a b, R a b → R' a b) → Sorted R l → Sorted R' l.
Proof.
  intros HR. induction 1 as [|x l Hl IH Hhd]; constructor; [done|].
  destruct Hhd; constructor. by apply HR.
Qed.

(** The default [sort()] puts names in non-decreasing order and keeps each
    of them, as many times as it occurs. *)
Lemma default_sort_Sorted (l : list string) :
  Sorted codeUnitLe (JS.sort JS.defaultCompare l).
Proof.
  eapply Sorted_weaken; [|apply sort_Sorted, defaultCompare_total].
  intros a b. apply defaultCompare_le.
Qed.

Lemma stripPrefix_Some (p s r : string) :
  JS.stripPrefix p s = Some r → s = p +:+ r.
Proof.
  revert s. induction p as [|a p IH]; intros s; cbn [JS.stripPrefix].
  - by intros [= ->].
  - destruct s as [|b s]; [done|].
    destruct (Ascii.eqb_spec a b) as [->|]; [|done].
    intros Hr. rewrite append_cons. by rewrite <- (IH s Hr).
Qed.

(** What the pattern [/refs\/heads\/(.+)$/] extracts is the non-empty end
    of the line that follows an occurrence of [refs/heads/]. *)
Lemma matchRefsHeads_sound (line nm : string) :
  matchRefsHeads line = Some nm →
  nm ≠ EmptyString ∧ ∃ before, line = before +:+ "refs/heads/" +:+ nm.
Proof.
  induction line as [|c line IH].
  - simpl. done.
  - cbn [matchRefsHeads].
    destruct (JS.stripPrefix _ (String c line)) as [[|d rest]|] eqn:Hp.
    + intros Hl. destruct (IH Hl) as [Hne [before ->]].
      split; [done|]. by exists (String c before).
    + destruct (hasLineTerminator _).
      * intros Hl. destruct (IH Hl) as [Hne [before ->]].
        split; [done|]. by exists (String c before).
      * intros [= <-]. split; [done|]. exists EmptyString.
        by apply stripPrefix_Some in Hp.
    + intros Hl. destruct (IH Hl) as [Hne [before ->]].
      split; [done|]. by exists (String c before).
Qed.

Lemma sort_nil_length (l : list string) :
  (length (JS.sort JS.defaultCompare l) =? 0)%nat = true ↔ l = [].
Proof.
  rewrite Nat.eqb_eq, (Permutation_length (sort_Permutation _ l)).
  apply length_zero_iff_nil.
Qed.

(** ** [cleanup] *)

Lemma under_refl (dir : string) : under dir dir = true.
Proof. unfold under. by rewrite bool_decide_eq_true_2. Qed.

Lemma not_elem_of_removed (dir : string) (disk : gset string) :
  dir ∉ filter (λ p, under dir p = false) disk.
Proof.
  rewrite elem_of_filter, under_refl. by intros [? _].
Qed.



(** ** [mergeRepositoryFiles] *)

Section MergeFacts.
Variable localeCompare : string → string → Z.
Variable TEMP_BASE_DIR : string.

(** The [try] block writes at most once, to [outputPath], and only after it
    built a tree that has children; it touches nothing else but the disk. *)
Lemma mergeAttempt_written githubUrl excludeDirs excludeFiles outputPath
    includeExtensions branch tempDir repoName run w :
  let out := mergeAttempt localeCompare githubUrl excludeDirs excludeFiles
               outputPath includeExtensions branch tempDir repoName run w in
  let built := match cloneOutcome run with
               | Cloned listing =>
                   buildFileTree localeCompare (S (listingHeight listing)) listing
                     excludeDirs repoName includeExtensions
               | CloneFailed _ => None
               end in
  tempDirectories out.2 = tempDirectories w
  ∧ undeletable out.2 = undeletable w
  ∧ ((written out.2 = written w ∧ out.1 ≠ Some true)
     ∨ (∃ data t, written out.2 = written w ++ [(outputPath, data)]
                  ∧ built = Some t ∧ hasChildren t = true))
  ∧ (∀ t, built = Some t → hasChildren t = false →
       out.1 = Some false ∧ written out.2 = written w).
Proof.
  unfold mergeAttempt. cbv zeta.
  destruct (cloneOutcome run) as [listing|msg]; cbn [fst snd].
  - destruct (buildFileTree _ _ _ _ _ _) as [t|]; cbn [fst snd].
    + destruct (hasChildren t) eqn:Hc; cbn [fst snd negb].
      * destruct (processDirectory _ _ _ _ _ _ _ _) as [mc|]; cbn [fst snd].
        -- unfold writeFileSync.
           destruct (bool_decide _); cbn [fst snd cloneInto written
             tempDirectories undeletable];
             (split; [done|split; [done|split; [|by intros ? [= <-]; congruence]]]).
           ++ by left.
           ++ right. by exists mc, t.
        -- split; [done|split; [done|split; [by left|]]].
           intros ? [= <-]. congruence.
      * split; [done|split; [done|split; [by left|]]]. by intros ? [= <-].
    + split; [done|split; [done|split; [by left|done]]].
  - split; [done|split; [done|split; [by left|done]]].
Qed.

End MergeFacts.

(** ** The order of the two walks *)

Lemma inOrder_Sorted (localeCompare : string → string → Z) (l : list Entry) :
  inOrder (leItems localeCompare) l = true →
  Sorted (λ a b, ∃ c, compareItems localeCompare a b = Some c ∧ c ≤ 0) l.
Proof.
  induction l as [|x l IH]; [constructor|].
  cbn [inOrder]. intros [Hhd Hl]%andb_true_iff.
  constructor; [by apply IH|].
  destruct l as [|y l]; constructor.
  unfold leItems in Hhd. destruct (compareItems _ x y) as [c|]; [|done].
  exists c. split; [done|]. by apply Z.leb_le.
Qed.

Lemma stripPrefix_app (p s : string) : JS.stripPrefix p (p +:+ s) = Some s.
Proof.
  induction p as [|a p IH]; [by destruct s|].
  rewrite append_cons. cbn [JS.stripPrefix]. by rewrite Ascii.eqb_refl.
Qed.

Lemma includes_char_cons (d c : ascii) (s : string) :
  JS.includes (String c s) (String d EmptyString)
  = Ascii.eqb d c || JS.includes s (String d EmptyString).
Proof.
  cbn [JS.includes JS.startsWith].
  destruct (Ascii.eqb d c); [by destruct s|done].
Qed.

Lemma includes_char_app (d : ascii) (a b : string) :
  JS.includes (a +:+ b) (String d EmptyString)
  = JS.includes a (String d EmptyString) || JS.includes b (String d EmptyString).
Proof.
  induction a as [|c a IH]; [done|].
  rewrite append_cons, !includes_char_cons, IH. by rewrite orb_assoc.
Qed.

(** A string that starts with the pattern: the replacement, read at that
    match, takes the place of the pattern. *)
Lemma replace_prefix (p r s : string) :
  JS.replace (p +:+ s) p r = JS.getSubstitution p EmptyString s r +:+ s.
Proof.
  unfold JS.replace.
  destruct (p +:+ s) eqn:Hps; cbn [JS.replaceFrom];
    rewrite <- Hps, stripPrefix_app; done.
Qed.

(** A replacement without dollar sign stands for itself. *)
Lemma getSubstitution_plain (matched before after repl : string) :
  JS.includes repl "$" = false →
  JS.getSubstitution matched before after repl = repl.
Proof.
  induction repl as [|c repl IH]; [done|].
  rewrite includes_char_cons. intros [Hc Hrepl]%orb_false_iff.
  cbn [JS.getSubstitution]. rewrite (Ascii.eqb_sym c "$"), Hc.
  by rewrite (IH Hrepl).
Qed.

Lemma replace_plain (s pat repl : string) :
  JS.includes repl "$" = false →
  JS.replace s pat repl = replaceLiteral s pat repl.
Proof.
  intros Hrepl. unfold JS.replace. generalize EmptyString as before.
  induction s as [|c s IH]; intros before;
    cbn [JS.replaceFrom replaceLiteral];
    destruct (JS.stripPrefix pat _) as [after|];
    rewrite ?getSubstitution_plain by done; try done.
  by rewrite IH.
Qed.

Lemma replaceLiteral_prefix (p r s : string) :
  replaceLiteral (p +:+ s) p r = r +:+ s.
Proof.
  destruct (p +:+ s) eqn:Hps; cbn [replaceLiteral];
    rewrite <- Hps, stripPrefix_app; done.
Qed.

(** The path of a file of the clone, the name of the repository in the
    place of [tempDir]. *)
Lemma markerPath_below (tempDir repoName rest : string) :
  markerPath tempDir repoName (tempDir +:+ "/" +:+ rest)
  = (repoName +:+ "/") +:+ rest.
Proof.
  unfold markerPath, Path.sep. rewrite <- append_assoc.
  apply replaceLiteral_prefix.
Qed.

(** With no dollar sign in the name of the repository, the path written
    after [// File:] is the one of [markerPath]. *)
Lemma fileBlock_plain (tempDir repoName fullPath content : string) :
  JS.includes repoName "$" = false →
  fileBlock tempDir repoName fullPath content
  = JS.nl +:+ "// File: " +:+ markerPath tempDir repoName fullPath
      +:+ JS.nl +:+ content +:+ JS.nl.
Proof.
  intros Hname. unfold fileBlock, markerPath.
  rewrite replace_plain; [done|].
  by rewrite includes_char_app, Hname.
Qed.

Section Order.
Variable localeCompare : string → string → Z.
Variables (excludeDirs : list string) (includeExtensions : option (list string)).
(** What happens to the full path of a file on its way to the output. *)
Variable g : string → string.

Local Notation "'build'" := (λ depth items repoName,
  buildFileTree localeCompare depth items excludeDirs repoName includeExtensions)
  (only parsing).
Local Notation "'kept'" :=
  (filter (λ f : string * string * string,
     extensionIncluded includeExtensions
       (JS.toLowerCase (Path.extname f.1.2)) = true))
  (only parsing).
Local Notation "'marked'" :=
  (map (λ f : string * string * string, (g f.1.1, f.1.2))) (only parsing).

(** The loop of [buildFileTree] over a listing taken as it is: the files
    of the children it pushes are the files a walk in listing order
    reaches, in the same order. *)
Lemma forOf_buildItem_leaves (rec : list Entry → string → option FileTree)
    (D Y : string) (l : list Entry) : ∀ acc kids,
  (∀ sub nm t D' Y',
     canonicalListing localeCompare excludeDirs sub = true →
     rec sub nm = Some t →
     (∀ s, g (D' +:+ "/" +:+ s) = Y' +:+ s) →
     ∃ kids', t = MkFileTree nm directory (Some kids')
              ∧ flat_map (leaves Y') kids'
                = marked (kept (reachedFiles excludeDirs D' sub))) →
  (∀ s, g (D +:+ "/" +:+ s) = Y +:+ s) →
  forallb (canonical localeCompare excludeDirs) l = true →
  forOf (buildItem rec excludeDirs includeExtensions) l acc = Some kids →
  flat_map (leaves Y) kids
  = flat_map (leaves Y) acc ++ marked (kept (reachedFiles excludeDirs D l)).
Proof.
  intros acc kids Hrec Hg. revert acc.
  induction l as [|e l IH]; intros acc Hcan Hloop.
  - cbn in Hloop. injection Hloop as <-. by rewrite app_nil_r.
  - cbn [forallb] in Hcan. apply andb_true_iff in Hcan as [He Hl].
    cbn [forOf] in Hloop.
    destruct (buildItem rec excludeDirs includeExtensions e acc)
      as [acc1|] eqn:Hitem; [|done].
    cbn [mbind option_bind] in Hloop.
    rewrite (IH acc1 Hl Hloop).
    unfold reachedFiles. cbn [flat_map].
    rewrite filter_app, map_app, app_assoc. f_equal.
    unfold buildItem in Hitem.
    destruct e as [item content|item sub|item|item]; cbn [isDirectory] in Hitem;
      cbn [mbind option_bind entryName entryItems] in Hitem; [| |done|].
    + cbn [reached]. rewrite filter_cons, filter_nil. cbn [fst snd].
      destruct (extensionIncluded _ _) eqn:Hext.
      * injection Hitem as <-. rewrite decide_True by done.
        rewrite flat_map_app. cbn [flat_map leaves map]. rewrite app_nil_r.
        unfold Path.join, Path.sep. cbn [fst snd]. by rewrite Hg.
      * injection Hitem as <-. rewrite decide_False by done.
        by rewrite app_nil_r.
    + cbn [reached canonical] in *.
      destruct (JS.arrayIncludes excludeDirs item); cbn [negb orb] in *.
      * injection Hitem as <-. by rewrite app_nil_r.
      * destruct (rec sub item) as [t|] eqn:Ht; [|done].
        cbn [mbind option_bind] in Hitem.
        destruct (Hrec sub item t (Path.join D item) (Y +:+ item +:+ "/")
                    He Ht) as (kids' & -> & Hleaves).
        { intros s'. unfold Path.join, Path.sep.
          by rewrite !append_assoc, Hg. }
        fold (reachedFiles excludeDirs (Path.join D item) sub).
        rewrite <- Hleaves.
        destruct kids' as [|k kids']; cbn [hasChildren children] in Hitem;
          injection Hitem as <-.
        -- by rewrite app_nil_r.
        -- rewrite flat_map_app. cbn [flat_map leaves]. by rewrite app_nil_r.
    + cbn [reached]. rewrite filter_cons, filter_nil. cbn [fst snd].
      destruct (extensionIncluded _ _) eqn:Hext.
      * injection Hitem as <-. rewrite decide_True by done.
        rewrite flat_map_app. cbn [flat_map leaves map]. rewrite app_nil_r.
        unfold Path.join, Path.sep. cbn [fst snd]. by rewrite Hg.
      * injection Hitem as <-. rewrite decide_False by done.
        by rewrite app_nil_r.
Qed.

(** On a clone listed in canonical order, the files of the tree, in the
    order of the tree, are the files a walk in listing order reaches that
    pass the test on extensions. *)
Lemma buildFileTree_leaves depth : ∀ items repoName t D Y,
  canonicalListing localeCompare excludeDirs items = true →
  build depth items repoName = Some t →
  (∀ s, g (D +:+ "/" +:+ s) = Y +:+ s) →
  ∃ kids, t = MkFileTree repoName directory (Some kids)
          ∧ flat_map (leaves Y) kids
            = marked (kept (reachedFiles excludeDirs D items)).
Proof.
  induction depth as [|depth IH]; intros items repoName t D Y Hcan Hb Hg;
    [done|].
  cbn [buildFileTree] in Hb.
  unfold canonicalListing in Hcan. apply andb_true_iff in Hcan as [Hord Hall].
  rewrite (sortM_in_order _ _ (inOrder_Sorted _ _ Hord)) in Hb.
  cbn [mbind option_bind] in Hb.
  destruct (forOf _ items []) as [kids|] eqn:Hloop; [|done].
  cbn [mbind option_bind] in Hb. injection Hb as <-.
  exists kids. split; [done|].
  apply (forOf_buildItem_leaves _ D Y items [] kids) in Hloop; [done| |done..].
  intros sub nm t D' Y' Hsub Ht Hg'. by apply (IH sub nm t D' Y').
Qed.

(** Passing both tests is passing the test on extensions and then not being
    excluded by name. *)
Lemma selected_by_name (excludeFiles : list string)
    (R : list (string * string * string)) :
  map (λ f : string * string * string, g f.1.1)
      (filter (λ f : string * string * string,
                 qualifies excludeFiles includeExtensions f.1.2 = true) R)
  = map fst (filter (λ l : string * string, l.2 ∉ excludeFiles)
                    (marked (kept R))).
Proof.
  unfold qualifies, JS.arrayIncludes.
  induction R as [|[[fullPath item] content] R IH]; [reflexivity|].
  rewrite !filter_cons. cbn [fst snd].
  destruct (extensionIncluded _ _);
    destruct (bool_decide_reflect (item ∈ excludeFiles)) as [Hin|Hout];
    cbn [negb andb]; repeat case_decide; try done;
    cbn [map fst snd]; rewrite ?filter_cons; cbn [fst snd];
    repeat case_decide; try done; cbn [map fst]; by rewrite IH.
Qed.
End Order.

(** ** [generateTreeString] and the diagram of the header *)

Lemma FileTree_nested_ind (P : FileTree → Prop) :
  (∀ nm ty, P (MkFileTree nm ty None)) →
  (∀ nm ty cs, Forall P cs → P (MkFileTree nm ty (Some cs))) →
  ∀ t, P t.
Proof.
  intros Hleaf Hnode. fix IH 1. intros [nm ty [cs|]]; [|apply Hleaf].
  apply Hnode. induction cs as [|c cs IHcs]; constructor; [apply IH|apply IHcs].
Qed.

Lemma unlines_app (l1 l2 : list string) :
  unlines (l1 ++ l2) = unlines l1 +:+ unlines l2.
Proof.
  induction l1 as [|l l1 IH]; [done|].
  cbn [app unlines]. by rewrite IH, !append_assoc.
Qed.

(** [generateTreeString] prints the lines of [treeLines]: one line for each
    node, with its marker, the children behind the continuation prefix. *)
Lemma generateTreeString_lines (t : FileTree) : ∀ prefix isLast,
  generateTreeString t prefix isLast = unlines (treeLines t prefix isLast).
Proof.
  induction t as [nm ty|nm ty cs IH] using FileTree_nested_ind;
    intros prefix isLast; cbn [generateTreeString treeLines unlines].
  - by rewrite !append_assoc, append_empty_r.
  - set (childPrefix := prefix +:+ (if isLast then blank else pipe)).
    set (line := prefix +:+ (if isLast then elbow else tee) +:+ nm).
    replace (prefix +:+ (if isLast then elbow else tee) +:+ nm +:+ JS.nl)
      with (line +:+ JS.nl) by (subst line; by rewrite !append_assoc).
    rewrite <- (append_assoc line JS.nl).
    generalize (line +:+ JS.nl) as tree.
    induction IH as [|c cs Hc _ IHcs]; intros tree.
    + by rewrite append_empty_r.
    + rewrite IHcs, Hc, unlines_app. by rewrite append_assoc.
Qed.

Lemma treeLines_length (t : FileTree) : ∀ prefix isLast,
  length (treeLines t prefix isLast) = length (nodes t).
Proof.
  induction t as [nm ty|nm ty cs IH] using FileTree_nested_ind;
    intros prefix isLast; cbn [treeLines nodes length]; [done|].
  f_equal. set (childPrefix := prefix +:+ (if isLast then blank else pipe)).
  induction IH as [|c cs Hc _ IHcs]; [done|].
  cbn [flat_map]. by rewrite !length_app, Hc, IHcs.
Qed.

Lemma oneLine_app (a b : string) : oneLine (a +:+ b) = oneLine a && oneLine b.
Proof.
  induction a as [|c a IH]; [done|].
  rewrite append_cons. cbn [oneLine]. by rewrite IH, andb_assoc.
Qed.

(** Splitting at line feeds gives back the lines that were put together,
    and an empty piece after the last line feed. *)
Lemma split_lines_cons (l rest : string) :
  oneLine l = true →
  JS.split_lines (l +:+ JS.nl +:+ rest) = l :: JS.split_lines rest.
Proof.
  induction l as [|c l IH]; intros Hl.
  - done.
  - cbn [oneLine] in Hl. apply andb_true_iff in Hl as [Hc Hl].
    rewrite append_cons. cbn [JS.split_lines].
    apply negb_true_iff in Hc. rewrite Hc. by rewrite (IH Hl).
Qed.

Lemma split_lines_unlines (ls : list string) :
  Forall (λ l, oneLine l = true) ls →
  JS.split_lines (unlines ls) = ls ++ [EmptyString].
Proof.
  induction 1 as [|l ls Hl _ IH]; [done|].
  cbn [unlines app]. by rewrite split_lines_cons, IH.
Qed.

Lemma join_unlines (ls : list string) :
  JS.join JS.nl (ls ++ [EmptyString]) = unlines ls.
Proof.
  induction ls as [|l ls IH]; [done|].
  cbn [app unlines]. rewrite <- IH. by destruct ls.
Qed.

Lemma treeLines_oneLine (t : FileTree) : ∀ prefix isLast,
  oneLine prefix = true →
  Forall (λ n, oneLine (name n) = true) (nodes t) →
  Forall (λ l, oneLine l = true) (treeLines t prefix isLast).
Proof.
  induction t as [nm ty|nm ty cs IH] using FileTree_nested_ind;
    intros prefix isLast Hp Hn; cbn [treeLines nodes] in *;
    apply Forall_cons in Hn as [Hnm Hn]; cbn [name] in Hnm.
  - constructor; [|done]. rewrite !oneLine_app, Hp, Hnm. by destruct isLast.
  - constructor; [rewrite !oneLine_app, Hp, Hnm; by destruct isLast|].
    assert (Hcp : oneLine (prefix +:+ (if isLast then blank else pipe)) = true)
      by (rewrite oneLine_app, Hp; by destruct isLast).
    revert Hcp. generalize (prefix +:+ (if isLast then blank else pipe)).
    intros childPrefix Hcp.
    induction IH as [|c cs Hc _ IHcs]; [done|].
    cbn [flat_map] in Hn. apply Forall_app in Hn as [Hn1 Hn2].
    apply Forall_app. split; [by apply Hc|by apply IHcs].
Qed.

(** The diagram of the header: the line of the repository, then the lines of
    [generateTreeString] from the third on.  The second line, which is the
    line of the first child of the root, is dropped with the first. *)
Lemma treeString_lines (repoName : string) (fileTree : FileTree) :
  Forall (λ n, oneLine (name n) = true) (nodes fileTree) →
  treeString repoName fileTree
  = repoName +:+ "/" +:+ JS.nl
      +:+ unlines (drop 2 (treeLines fileTree EmptyString true)).
Proof.
  intros Hnames. unfold treeString, JS.slice.
  rewrite generateTreeString_lines, split_lines_unlines
    by (by apply treeLines_oneLine).
  do 3 f_equal.
  destruct (treeLines fileTree EmptyString true) as [|l1 [|l2 ls]] eqn:Hls;
    [done|done|].
  cbn [app drop]. apply join_unlines.
Qed.

(** With a root that has children, the diagram of the header has one line
    fewer than the tree has nodes. *)
Lemma treeString_line_count (repoName : string) (fileTree : FileTree) :
  Forall (λ n, oneLine (name n) = true) (nodes fileTree) →
  ∃ ls, treeString repoName fileTree = unlines ((repoName +:+ "/") :: ls)
        ∧ length ls = (length (nodes fileTree) - 2)%nat.
Proof.
  intros Hnames. exists (drop 2 (treeLines fileTree EmptyString true)). split.
  - rewrite treeString_lines by done. cbn [unlines]. by rewrite !append_assoc.
  - by rewrite length_drop, treeLines_length.
Qed.

(** * The claims *)

(** C1. In a call of [mergeRepositoryFiles] the output file is written at
    most once, to [outputPath], and only when the tree built after filtering
    has children; when that tree has no children nothing is written and the
    call does not report success: it returns [false] (and its promise is
    rejected instead only if deleting the temporary directory fails). *)
Theorem mergeRepositoryFiles_writes_at_most_once
    (localeCompare : string → string → Z) (TEMP_BASE_DIR githubUrl : string)
    (options : Options) (run : Run) (w : World) :
  let out := mergeRepositoryFiles localeCompare TEMP_BASE_DIR githubUrl options run w in
  let target := default defaultOutputPath (outputPath options) in
  let built := builtTree localeCompare githubUrl options run in
  (written out.2 = written w ∨ ∃ data, written out.2 = written w ++ [(target, data)])
  ∧ (written out.2 ≠ written w → ∃ t, built = Some t ∧ hasChildren t = true)
  ∧ (∀ t, built = Some t → hasChildren t = false →
       written out.2 = written w
       ∧ out.1 ≠ Some true
       ∧ (tempDirOf TEMP_BASE_DIR run ∉ undeletable w → out.1 = Some false)).
Proof.
  intros out target built. subst out. unfold mergeRepositoryFiles. cbv zeta.
  fold (tempDirOf TEMP_BASE_DIR run). set (tempDir := tempDirOf TEMP_BASE_DIR run).
  pose proof (mergeAttempt_written localeCompare githubUrl
    (default defaultExcludeDirs (excludeDirs options))
    (default defaultExcludeFiles (excludeFiles options))
    target (includeExtensions options) (branch options) tempDir
    (getRepoNameFromUrl githubUrl) run (pushTemp tempDir w)) as H.
  cbv zeta in H. fold target.
  destruct (mergeAttempt _ _ _ _ _ _ _ _ _ _ _) as [att w2].
  cbn [fst snd pushTemp written tempDirectories undeletable] in H.
  destruct H as (_ & Hlock & Hwr & Hempty).
  fold (builtTree localeCompare githubUrl options run) in Hwr, Hempty.
  fold built in Hwr, Hempty.
  assert (Hfin : ∀ r w3,
    (if existsSync tempDir w2
     then match rmSync tempDir w2 with
          | Some w => (Some (tryCatch att false), dropTemp tempDir w)
          | None => (None, w2)
          end
     else (Some (tryCatch att false), dropTemp tempDir w2)) = (r, w3) →
    written w3 = written w2
    ∧ (r = None ∧ tempDir ∈ undeletable w2 ∨ r = Some (tryCatch att false))).
  { intros r w3. unfold existsSync, rmSync.
    destruct (bool_decide (tempDir ∈ onDisk w2));
      [destruct (bool_decide_reflect (tempDir ∈ undeletable w2))|];
      intros [= <- <-]; cbn [dropTemp written]; auto. }
  destruct (if existsSync tempDir w2 then _ else _) as [r w3] eqn:Hout.
  destruct (Hfin r w3) as [Hw3 Hr]; [reflexivity|].
  cbn [fst snd]. rewrite Hw3. split; [|split].
  - destruct Hwr as [[-> _]|(data & t & -> & _)]; eauto.
  - intros Hne. destruct Hwr as [[Heq _]|(data & t & _ & Ht & Hc)]; [done|eauto].
  - intros t Ht Hc. destruct (Hempty t Ht Hc) as [-> ->].
    split; [done|]. destruct Hr as [[-> Hin]| ->]; cbn [tryCatch].
    + split; [done|]. intros Hout'. by rewrite Hlock in Hin.
    + split; [done|done].
Qed.

Lemma mergeRepositoryFiles_writes_at_most_once_witness :
  written (mergeRepositoryFiles Samples.compareNames Samples.tmp Samples.urlA
             Samples.onlyRs Samples.runA Samples.emptyWorld).2 = []
  ∧ (mergeRepositoryFiles Samples.compareNames Samples.tmp Samples.urlA
       Samples.onlyRs Samples.runA Samples.emptyWorld).1 = Some false.
Proof.
  destruct (mergeRepositoryFiles_writes_at_most_once Samples.compareNames
              Samples.tmp Samples.urlA Samples.onlyRs Samples.runA
              Samples.emptyWorld) as (_ & _ & Hempty).
  destruct (Hempty Samples.emptyTree) as (Hw & _ & Hr);
    [vm_compute; reflexivity|reflexivity|].
  split; [exact Hw|]. apply Hr. apply not_elem_of_empty.
Defined.

(** A call that finds files writes the merged text once. *)
Example mergeRepositoryFiles_writes :
  mergeRepositoryFiles Samples.compareNames Samples.tmp Samples.urlA
    Samples.onlyTs Samples.runA Samples.emptyWorld
  = (Some true,
     MkWorld [] {["merged-output.txt"]} ∅ ∅
       [("merged-output.txt", Samples.outputA)]).
Proof. vm_compute. reflexivity. Qed.

(** C3 (as amended). When tier 1 succeeds with no name and the clone or the
    listing of the fallback fails, [getAvailableBranches] of [src/index.ts]
    reports failure ([null]); it returns ["main"; "master"] when the fallback
    succeeds and yields no name.  The older copy of the function returns
    that default list in both cases. *)
Theorem getAvailableBranches_fallback (git : GitRemote) (stdout : string) :
  lsRemoteHeads git = Resolved stdout →
  remoteHeadNames stdout = [] →
  ((∃ m, cloneBare git = Rejected m) ∨ (∃ m, branchRemote git = Rejected m) →
     getAvailableBranches git = None
     ∧ getAvailableBranches_legacy git = ["main"; "master"])
  ∧ (∀ o branchOutput,
       cloneBare git = Resolved o → branchRemote git = Resolved branchOutput →
       fallbackNames branchOutput = [] →
       getAvailableBranches git = Some ["main"; "master"]
       ∧ getAvailableBranches_legacy git = ["main"; "master"]).
Proof.
  intros Hls Hnone.
  unfold getAvailableBranches, getAvailableBranches_legacy.
  rewrite Hls, Hnone. cbn [JS.sort length Nat.eqb]. split.
  - intros [[m Hm]|[m Hm]]; rewrite Hm; [done|].
    by destruct (cloneBare git).
  - intros o out Hc Hb Hfb. by rewrite Hc, Hb, Hfb.
Qed.

Lemma getAvailableBranches_fallback_witness :
  getAvailableBranches Samples.gitNoHeadsCloneFails = None
  ∧ getAvailableBranches Samples.gitNoHeadsNoBranches = Some ["main"; "master"].
Proof.
  split.
  - destruct (getAvailableBranches_fallback Samples.gitNoHeadsCloneFails
                EmptyString eq_refl eq_refl) as [H _].
    apply H. left. by eexists.
  - destruct (getAvailableBranches_fallback Samples.gitNoHeadsNoBranches
                EmptyString eq_refl eq_refl) as [_ H].
    by apply (H EmptyString EmptyString).
Defined.

(** C3, as stated, fails: tier 1 succeeds with no name, the bare clone
    fails, and the result is the failure value, not the default list. *)
Lemma getAvailableBranches_fallback_counterexample :
  lsRemoteHeads Samples.gitNoHeadsCloneFails = Resolved EmptyString
  ∧ remoteHeadNames EmptyString = []
  ∧ (∃ m, cloneBare Samples.gitNoHeadsCloneFails = Rejected m)
  ∧ getAvailableBranches Samples.gitNoHeadsCloneFails ≠ Some ["main"; "master"].
Proof. repeat split; [by eexists|discriminate]. Qed.

(** C4. When the remote-heads invocation itself is rejected,
    [getAvailableBranches] returns [null] if the message of the error
    includes "not found", and ["main"; "master"] for any other message. *)
Theorem getAvailableBranches_rejected (git : GitRemote) (message : string) :
  lsRemoteHeads git = Rejected message →
  (JS.includes message "not found" = true → getAvailableBranches git = None)
  ∧ (JS.includes message "not found" = false →
       getAvailableBranches git = Some ["main"; "master"]).
Proof.
  intros Hls. unfold getAvailableBranches. rewrite Hls.
  split; intros ->; reflexivity.
Qed.

Lemma getAvailableBranches_rejected_witness :
  getAvailableBranches Samples.gitNotFound = None
  ∧ getAvailableBranches Samples.gitUnreachable = Some ["main"; "master"].
Proof.
  split.
  - destruct (getAvailableBranches_rejected Samples.gitNotFound _ eq_refl)
      as [H _].
    by apply H.
  - destruct (getAvailableBranches_rejected Samples.gitUnreachable _ eq_refl)
      as [_ H].
    by apply H.
Defined.

(** C5. In the tree [buildFileTree] returns, every directory node other
    than the root has at least one child and at least one file in or below
    it: directories left empty by the filters are pruned at every depth. *)
Theorem buildFileTree_no_empty_directory
    (localeCompare : string → string → Z) (depth : nat) (items : list Entry)
    (excludeDirs : list string) (repoName : string)
    (includeExtensions : option (list string)) (t n : FileTree) :
  buildFileTree localeCompare depth items excludeDirs repoName includeExtensions
    = Some t →
  n ∈ descendants t → type n = directory →
  (∃ c cs, children n = Some (c :: cs)) ∧ (1 ≤ fileCount n)%nat.
Proof.
  intros Ht Hn Hdir. apply buildFileTree_populated in Ht.
  destruct (proj1 (Forall_forall _ _) Ht n Hn) as [Hkids Hcount]. auto.
Qed.

Lemma buildFileTree_no_empty_directory_witness :
  (∃ c cs, children Samples.srcNode = Some (c :: cs))
  ∧ (1 ≤ fileCount Samples.srcNode)%nat.
Proof.
  apply (buildFileTree_no_empty_directory Samples.compareNames 2 Samples.listingA
           defaultExcludeDirs "repo" (Some [".ts"]) Samples.treeA Samples.srcNode).
  - vm_compute. reflexivity.
  - apply list_elem_of_here.
  - reflexivity.
Defined.

(** C8 (as amended). When the remote-heads listing succeeds and yields a
    name, tier 1 returns the names extracted from the non-blank lines that
    match [refs/heads/<name>], in the order of the default [sort] (no name
    after a later one, compared by UTF-16 code units), each as many times
    as it was extracted: the result has no duplicate when the extracted names
    have none. *)
Theorem getAvailableBranches_tier1 (git : GitRemote) (stdout : string) :
  lsRemoteHeads git = Resolved stdout →
  remoteHeadNames stdout ≠ [] →
  ∃ branches,
    getAvailableBranches git = Some branches
    ∧ branches ≡ₚ remoteHeadNames stdout
    ∧ Sorted codeUnitLe branches
    ∧ (NoDup (remoteHeadNames stdout) → NoDup branches)
    ∧ (∀ nm, nm ∈ branches →
         ∃ line before, line ∈ JS.split_lines stdout
                        ∧ line = before +:+ "refs/heads/" +:+ nm).
Proof.
  intros Hls Hne. exists (JS.sort JS.defaultCompare (remoteHeadNames stdout)).
  pose proof (sort_Permutation JS.defaultCompare (remoteHeadNames stdout)) as Hp.
  repeat split.
  - unfold getAvailableBranches. rewrite Hls. cbv zeta.
    destruct (length _ =? 0)%nat eqn:Hlen; [|done].
    by apply sort_nil_length in Hlen.
  - done.
  - apply default_sort_Sorted.
  - intros Hnd. by rewrite Hp.
  - intros nm Hnm. rewrite Hp in Hnm. unfold remoteHeadNames in Hnm.
    apply list_elem_of_omap in Hnm as (line & Hline & Hm).
    apply list_elem_of_filter in Hline as [_ Hline].
    apply matchRefsHeads_sound in Hm as [_ [before ->]]. eauto.
Qed.

Lemma getAvailableBranches_tier1_witness :
  ∃ branches,
    getAvailableBranches Samples.gitTwoHeads = Some branches
    ∧ branches ≡ₚ ["main"; "dev"]
    ∧ Sorted codeUnitLe branches
    ∧ (NoDup ["main"; "dev"] → NoDup branches)
    ∧ (∀ nm, nm ∈ branches →
         ∃ line before,
           line ∈ JS.split_lines (Samples.headLine "1f3a" "main"
                                    +:+ Samples.headLine "9c2e" "dev")
           ∧ line = before +:+ "refs/heads/" +:+ nm).
Proof.
  apply (getAvailableBranches_tier1 Samples.gitTwoHeads _ eq_refl).
  vm_compute. discriminate.
Defined.

(** The order is that of the code units, not of the code points or of the
    bytes: [U+1F600] is written with two surrogates, which come before
    [U+FF5E]. *)
Example sorted_by_code_units :
  getAvailableBranches
    (MkGitRemote
       (Resolved (Samples.headLine "1f3a" "～wave"
                  +:+ Samples.headLine "9c2e" "😀grin"))
       (Rejected EmptyString) (Rejected EmptyString))
  = Some ["😀grin"; "～wave"]
  ∧ String.ltb "～wave" "😀grin" = true.
Proof. split; vm_compute; reflexivity. Qed.

(** C8, as stated, fails: a name that comes on two lines is returned twice. *)
Lemma getAvailableBranches_tier1_counterexample :
  getAvailableBranches Samples.gitMainTwice = Some ["main"; "main"]
  ∧ ¬ NoDup ["main"; "main"].
Proof.
  split; [reflexivity|].
  intros Hnd. apply NoDup_cons in Hnd as [Hnot _]. apply Hnot. left.
Qed.



(** C7. The walk of the Merger appends the contents of exactly the files it
    reaches whose name is not in [excludeFiles] and, when [includeExtensions]
    is present, whose lower-cased extension is among its lower-cased
    members; both conditions must hold.  It does so on every clone and at
    every depth of it, in the directories not excluded; it throws, and
    nothing is kept, exactly when it comes to an entry that cannot be
    examined or to a file passing both conditions that cannot be read. *)
Theorem processDirectory_appends_qualifying
    (excludeDirs excludeFiles : list string)
    (includeExtensions : option (list string))
    (tempDir repoName directory : string) (items : list Entry) (mc : string) :
  processDirectory excludeDirs excludeFiles includeExtensions tempDir repoName
    directory items mc
  = (if existsb (stopsMerge excludeDirs excludeFiles includeExtensions) items
     then None
     else Some (mc +:+ renderBlocks tempDir repoName
                         (filter (λ f : string * string * string,
                                    qualifies excludeFiles includeExtensions f.1.2
                                    = true)
                                 (reachedFiles excludeDirs directory items))))
  ∧ (∀ item,
       qualifies excludeFiles includeExtensions item = true ↔
       (item ∉ excludeFiles)
       ∧ (match includeExtensions with
          | None => True
          | Some exts =>
              JS.toLowerCase (Path.extname item) ∈ JS.toLowerCase <$> exts
          end)).
Proof.
  split; [apply processDirectory_run|].
  intros item. apply qualifies_spec.
Qed.

Lemma processDirectory_appends_qualifying_witness :
  processDirectory defaultExcludeDirs ["secrets.env"] (Some [".ts"; ".env"])
    Samples.tmp "repo" Samples.tmp Samples.listingD EmptyString
  = Some Samples.outputD
  ∧ processDirectory defaultExcludeDirs ["secrets.env"] (Some [".ts"; ".env"])
      Samples.tmp "repo" Samples.tmp Samples.listingLocked EmptyString
    = None.
Proof.
  split.
  - destruct (processDirectory_appends_qualifying defaultExcludeDirs
                ["secrets.env"] (Some [".ts"; ".env"]) Samples.tmp "repo"
                Samples.tmp Samples.listingD EmptyString) as [-> _].
    vm_compute. reflexivity.
  - destruct (processDirectory_appends_qualifying defaultExcludeDirs
                ["secrets.env"] (Some [".ts"; ".env"]) Samples.tmp "repo"
                Samples.tmp Samples.listingLocked EmptyString) as [-> _].
    vm_compute. reflexivity.
Defined.

(** The cases the specification singles out. *)
Example upper_case_extension_matches :
  qualifies defaultExcludeFiles (Some [".ts"]) "X.TS" = true.
Proof. reflexivity. Qed.

Example excluded_by_name_without_extension_filter :
  qualifies ["secrets.env"] None "secrets.env" = false.
Proof. reflexivity. Qed.

Example excluded_by_name_with_extension_included :
  qualifies ["secrets.env"] (Some [".env"]) "secrets.env" = false.
Proof. reflexivity. Qed.

(** C10. A name with no dot after its first character has an empty
    extension; when [includeExtensions] is present, a file with an empty
    extension is in the tree, and its contents in the merged output, only if
    the empty string is a member of [includeExtensions], which is never the
    case for a list of extensions that all start with a dot. *)
Theorem extensionless_needs_empty_extension
    (localeCompare : string → string → Z) (depth : nat) (items : list Entry)
    (excludeDirs excludeFiles exts : list string)
    (repoName tempDir directory : string) :
  (∀ item, hasDotAfterFirst item = false → Path.extname item = EmptyString)
  ∧ (∀ t n,
       buildFileTree localeCompare depth items excludeDirs repoName (Some exts)
         = Some t →
       n ∈ descendants t → type n = file →
       Path.extname (name n) = EmptyString → EmptyString ∈ exts)
  ∧ (∀ mc mc',
       processDirectory excludeDirs excludeFiles (Some exts) tempDir repoName
         directory items mc = Some mc' →
       let appended :=
         filter (λ f : string * string * string,
                   qualifies excludeFiles (Some exts) f.1.2 = true)
                (reachedFiles excludeDirs directory items) in
       mc' = mc +:+ renderBlocks tempDir repoName appended
       ∧ ∀ f, f ∈ appended →
              Path.extname f.1.2 = EmptyString → EmptyString ∈ exts)
  ∧ (Forall (λ e, JS.startsWith e "." = true) exts → EmptyString ∉ exts).
Proof.
  split; [exact extname_no_dot|]. split; [|split].
  - intros t n Ht Hn Hfile Hext.
    apply buildFileTree_files_included in Ht.
    pose proof (proj1 (Forall_forall _ _) Ht n Hn Hfile) as Hin.
    rewrite Hext in Hin. by apply lowered_includes_empty.
  - intros mc mc' Hrun appended. split; [by apply processDirectory_appends|].
    intros f [Hq _]%list_elem_of_filter Hext.
    apply qualifies_spec in Hq as [_ Hq]. rewrite Hext in Hq.
    apply lowered_includes_empty. unfold JS.arrayIncludes.
    by apply bool_decide_eq_true.
  - apply dot_prefixed_not_empty.
Qed.

Example dotfile_has_no_extension : Path.extname ".gitignore" = EmptyString.
Proof. reflexivity. Qed.

Example plain_name_has_no_extension : Path.extname "Makefile" = EmptyString.
Proof. reflexivity. Qed.

Example extensionless_left_out :
  buildFileTree Samples.compareNames 1 Samples.listingC [] "repo" (Some [".ts"])
  = Some (MkFileTree "repo" directory (Some [MkFileTree "a.ts" file None])).
Proof. reflexivity. Qed.

Example extensionless_kept_by_empty_member :
  buildFileTree Samples.compareNames 1 Samples.listingC [] "repo" (Some [EmptyString])
  = Some (MkFileTree "repo" directory
            (Some [MkFileTree ".gitignore" file None;
                   MkFileTree "Makefile" file None])).
Proof. reflexivity. Qed.

(** The release at the end of [mergeRepositoryFiles] is not guarded the way
    the one of [cleanup] is: when the deletion fails, the promise of the call
    is rejected and the directory stays, on disk and in the registry. *)
Example mergeRepositoryFiles_release_raises :
  (mergeRepositoryFiles Samples.compareNames Samples.tmp Samples.urlA
     Samples.onlyRs Samples.runA Samples.stuckWorld).1 = None
  ∧ tempDirOf Samples.tmp Samples.runA
    ∈ tempDirectories
        (mergeRepositoryFiles Samples.compareNames Samples.tmp Samples.urlA
           Samples.onlyRs Samples.runA Samples.stuckWorld).2.
Proof.
  split; [vm_compute; reflexivity|]. vm_compute. apply list_elem_of_here.
Qed.

(** The fallback tier on a bare clone with the single branch [dev]. *)
Example fallback_single_branch :
  getAvailableBranches
    (MkGitRemote (Resolved EmptyString) (Resolved EmptyString)
       (Resolved Samples.branchListing))
  = Some ["dev"].
Proof. reflexivity. Qed.

(** C2 (as amended). The walk of the Merger takes the entries of each
    directory in the order [fs.readdirSync] lists them, without sorting: the
    [// File:] units follow the listing order.  The files so appended,
    each taken by its path below the name of the repository (the path
    written after [// File:] when that name holds no dollar sign), come in
    the order of the tree of [buildFileTree] (without the files excluded by
    name) when every directory entered is already listed directories first,
    each group in the order of [localeCompare]. *)
Theorem processDirectory_follows_listing
    (localeCompare : string → string → Z) (depth : nat) (items : list Entry)
    (excludeDirs excludeFiles : list string)
    (includeExtensions : option (list string))
    (tempDir repoName : string) (t : FileTree) (mc : string) :
  buildFileTree localeCompare depth items excludeDirs repoName includeExtensions
    = Some t →
  existsb (stopsMerge excludeDirs excludeFiles includeExtensions) items = false →
  let appended :=
    filter (λ f : string * string * string,
              qualifies excludeFiles includeExtensions f.1.2 = true)
           (reachedFiles excludeDirs tempDir items) in
  processDirectory excludeDirs excludeFiles includeExtensions tempDir repoName
    tempDir items mc
  = Some (mc +:+ renderBlocks tempDir repoName appended)
  ∧ (JS.includes repoName "$" = false →
       ∀ fullPath content,
         fileBlock tempDir repoName fullPath content
         = JS.nl +:+ "// File: " +:+ markerPath tempDir repoName fullPath
             +:+ JS.nl +:+ content +:+ JS.nl)
  ∧ (canonicalListing localeCompare excludeDirs items = true →
       map (λ f : string * string * string, markerPath tempDir repoName f.1.1)
           appended
       = map fst (filter (λ l : string * string, l.2 ∉ excludeFiles)
                         (leaves EmptyString t))).
Proof.
  intros Ht Hrun appended. split; [|split].
  - by rewrite processDirectory_run, Hrun.
  - intros Hname fullPath content. by apply fileBlock_plain.
  - intros Hcan. subst appended.
    destruct (buildFileTree_leaves localeCompare excludeDirs includeExtensions
                (markerPath tempDir repoName) depth items repoName t tempDir
                (repoName +:+ "/") Hcan Ht) as (kids & -> & Hleaves).
    { intros rest. apply markerPath_below. }
    rewrite selected_by_name. cbn [leaves].
    change (EmptyString +:+ repoName +:+ "/") with (repoName +:+ "/").
    by rewrite Hleaves.
Qed.

Lemma processDirectory_follows_listing_witness :
  processDirectory defaultExcludeDirs defaultExcludeFiles (Some [".ts"])
    Samples.tmp "repo" Samples.tmp Samples.listedCanonically EmptyString
  = Some (Samples.blockSrc +:+ Samples.blockTop)
  ∧ map (λ f : string * string * string, markerPath Samples.tmp "repo" f.1.1)
        (filter (λ f : string * string * string,
                   qualifies defaultExcludeFiles (Some [".ts"]) f.1.2 = true)
                (reachedFiles defaultExcludeDirs Samples.tmp
                   Samples.listedCanonically))
    = map fst (filter (λ l : string * string, l.2 ∉ defaultExcludeFiles)
                      (leaves EmptyString Samples.treeA)).
Proof.
  destruct (processDirectory_follows_listing Samples.compareNames 2
              Samples.listedCanonically defaultExcludeDirs defaultExcludeFiles
              (Some [".ts"]) Samples.tmp "repo" Samples.treeA EmptyString)
    as (Hout & _ & Horder).
  - vm_compute. reflexivity.
  - vm_compute. reflexivity.
  - split; [|apply Horder; vm_compute; reflexivity].
    rewrite Hout. vm_compute. reflexivity.
Defined.

(** A dollar sign in the name of the repository is read as a pattern of
    the replacement: the path written is not the one of the tree. *)
Example dollar_in_repository_name :
  fileBlock "/tmp/x" "re$$po" "/tmp/x/a.ts" "c"
  = JS.nl +:+ "// File: re$po/a.ts" +:+ JS.nl +:+ "c" +:+ JS.nl
  ∧ markerPath "/tmp/x" "re$$po" "/tmp/x/a.ts" = "re$$po/a.ts".
Proof. split; vm_compute; reflexivity. Qed.

(** C2, as stated, fails: for a clone listed by name the tree puts
    [src/a.ts] before [a.ts] and the merged text has them the other way
    round; listed directories first, the same clone gives another text. *)
Lemma processDirectory_follows_listing_counterexample :
  buildFileTree Samples.compareNames 2 Samples.listedByName defaultExcludeDirs
    "repo" (Some [".ts"]) = Some Samples.treeA
  ∧ map fst (leaves EmptyString Samples.treeA) = ["repo/src/a.ts"; "repo/a.ts"]
  ∧ processDirectory defaultExcludeDirs defaultExcludeFiles (Some [".ts"])
      Samples.tmp "repo" Samples.tmp Samples.listedByName EmptyString
    = Some (Samples.blockTop +:+ Samples.blockSrc)
  ∧ processDirectory defaultExcludeDirs defaultExcludeFiles (Some [".ts"])
      Samples.tmp "repo" Samples.tmp Samples.listedCanonically EmptyString
    = Some (Samples.blockSrc +:+ Samples.blockTop)
  ∧ Samples.blockTop +:+ Samples.blockSrc ≠ Samples.blockSrc +:+ Samples.blockTop.
Proof.
  repeat split; try (vm_compute; reflexivity). vm_compute. discriminate.
Qed.

(** C6 (the code departs from it). The tree [Samples.treeA] has four nodes
    and [generateTreeString] prints one line for each, but the diagram placed
    in the header has lost the line of [src], the first child of the root:
    [slice(2)] drops the line of the root and the line after it. *)
Theorem treeString_omits_first_child :
  length (nodes Samples.treeA) = 4%nat
  ∧ JS.split_lines (generateTreeString Samples.treeA EmptyString true)
    = [ elbow +:+ "repo";
        blank +:+ tee +:+ "src";
        blank +:+ pipe +:+ elbow +:+ "a.ts";
        blank +:+ elbow +:+ "a.ts";
        EmptyString ]
  ∧ JS.split_lines (treeString "repo" Samples.treeA)
    = [ "repo/";
        blank +:+ pipe +:+ elbow +:+ "a.ts";
        blank +:+ elbow +:+ "a.ts";
        EmptyString ]
  ∧ (blank +:+ tee +:+ "src") ∉ JS.split_lines (treeString "repo" Samples.treeA).
Proof.
  split; [reflexivity|]. split; [vm_compute; reflexivity|].
  split; [vm_compute; reflexivity|].
  intros Hin. vm_compute in Hin.
  repeat (apply elem_of_cons in Hin as [Heq|Hin]; [discriminate Heq|]).
  by apply elem_of_nil in Hin.
Qed.

(** * Further properties *)

(** ** Strings *)

Lemma startsWith_stripPrefix (s p : string) :
  JS.startsWith s p = true → ∃ r, s = p +:+ r.
Proof.
  revert s. induction p as [|a p IH]; intros s.
  - intros _. by exists s.
  - destruct s as [|b s]; cbn [JS.startsWith]; [done|].
    destruct (Ascii.eqb_spec a b) as [->|]; [|done].
    intros [r ->]%IH. by exists r.
Qed.

Lemma includes_cons (c : ascii) (s needle : string) :
  JS.includes (String c s) needle = false → JS.includes s needle = false.
Proof. cbn [JS.includes]. by destruct (JS.startsWith (String c s) needle). Qed.

Lemma includes_app_r (a b needle : string) :
  JS.includes (a +:+ b) needle = false → JS.includes b needle = false.
Proof.
  induction a as [|c a IH]; [exact (λ H, H)|].
  rewrite append_cons. intros H%includes_cons. by apply IH.
Qed.

Lemma startsWith_cons_neq (c d : ascii) (s : string) :
  c ≠ d → JS.startsWith (String c s) (String d EmptyString) = false.
Proof.
  intros Hne. cbn [JS.startsWith].
  destruct (Ascii.eqb_spec d c) as [->|]; done.
Qed.

(** ** [getAvailableBranches]: every tier *)

Lemma sort_not_nil (l : list string) :
  l ≠ [] → JS.sort JS.defaultCompare l ≠ [].
Proof.
  intros Hl Hs. apply Hl.
  apply Permutation_nil_r. rewrite <- Hs. by rewrite sort_Permutation.
Qed.

Lemma defaultBranches_Sorted : Sorted codeUnitLe defaultBranches.
Proof.
  constructor; [repeat constructor|].
  constructor. by vm_compute.
Qed.

(** What a line of [git branch -r] gives in the fallback tier. *)
Lemma fallbackName_Some (line nm : string) :
  fallbackName line = Some nm →
  JS.trim line = "origin/" +:+ nm ∧ JS.includes nm "->" = false.
Proof.
  unfold fallbackName. cbv zeta.
  destruct (JS.startsWith _ _) eqn:Hs; [|done].
  destruct (JS.includes (JS.trim line) "->") eqn:Hi; [done|].
  cbn [andb negb]. intros [= <-].
  apply startsWith_stripPrefix in Hs as [r Hr]. rewrite Hr in *.
  rewrite replace_prefix. cbn [JS.getSubstitution].
  split; [done|]. by apply includes_app_r in Hi.
Qed.

(** X1. Whatever tier answers, a list of branches returned by
    [getAvailableBranches] is never empty and is in the order of the
    default [sort]: no name is after a later one, the names compared by
    their UTF-16 code units.  The same holds of the older copy, which
    always returns a list.  The test [branches.length === 0] of [main]
    therefore never succeeds. *)
Theorem getAvailableBranches_never_empty (git : GitRemote) :
  (∀ bs, getAvailableBranches git = Some bs → bs ≠ [] ∧ Sorted codeUnitLe bs)
  ∧ getAvailableBranches_legacy git ≠ []
  ∧ Sorted codeUnitLe (getAvailableBranches_legacy git).
Proof.
  assert (Hdef : defaultBranches ≠ [] ∧ Sorted codeUnitLe defaultBranches)
    by (split; [done|apply defaultBranches_Sorted]).
  unfold getAvailableBranches, getAvailableBranches_legacy.
  destruct (lsRemoteHeads git) as [stdout|message]; cbv zeta.
  - pose proof (default_sort_Sorted (remoteHeadNames stdout)) as Hb.
    destruct (length (JS.sort _ (remoteHeadNames stdout)) =? 0)%nat eqn:Hlen.
    + destruct (cloneBare git) as [o|m]; [|by split].
      destruct (branchRemote git) as [out|m]; [|by split].
      pose proof (default_sort_Sorted (fallbackNames out)) as Hf.
      destruct (0 <? length (JS.sort _ (fallbackNames out)))%nat eqn:Hfb.
      * apply Nat.ltb_lt in Hfb.
        assert (JS.sort JS.defaultCompare (fallbackNames out) ≠ [])
          by (intros Hnil; rewrite Hnil in Hfb; simpl in Hfb; lia).
        split; [by intros bs [= <-]|done].
      * split; [by intros bs [= <-]|done].
    + apply Nat.eqb_neq in Hlen.
      assert (JS.sort JS.defaultCompare (remoteHeadNames stdout) ≠ [])
        by (intros Hnil; by rewrite Hnil in Hlen).
      split; [by intros bs [= <-]|done].
  - split; [|done].
    intros bs. destruct (JS.includes message "not found"); [done|].
    by intros [= <-].
Qed.

(** X2. When the remote lists no head and the bare clone does list
    branches, [getAvailableBranches] returns the names of the fallback tier,
    not the defaults: in the order of the default [sort] (by UTF-16 code
    units), each the rest of a trimmed line [origin/<name>] of
    [git branch -r], none of them [HEAD] and none holding an arrow [->]. *)
Theorem fallback_tier_names (git : GitRemote) (stdout o branchOutput : string) :
  lsRemoteHeads git = Resolved stdout →
  remoteHeadNames stdout = [] →
  cloneBare git = Resolved o →
  branchRemote git = Resolved branchOutput →
  fallbackNames branchOutput ≠ [] →
  ∃ bs,
    getAvailableBranches git = Some bs
    ∧ bs ≡ₚ fallbackNames branchOutput
    ∧ Sorted codeUnitLe bs
    ∧ ∀ nm, nm ∈ bs →
        nm ≠ "HEAD"
        ∧ JS.includes nm "->" = false
        ∧ ∃ line, line ∈ JS.split_lines branchOutput
                  ∧ JS.trim line = "origin/" +:+ nm.
Proof.
  intros Hls Hnone Hc Hb Hfb.
  exists (JS.sort JS.defaultCompare (fallbackNames branchOutput)).
  pose proof (sort_Permutation JS.defaultCompare (fallbackNames branchOutput)) as Hp.
  split; [|split; [done|split; [apply default_sort_Sorted|]]].
  - unfold getAvailableBranches. rewrite Hls, Hnone, Hc, Hb.
    cbn [JS.sort length Nat.eqb]. cbv zeta.
    destruct (0 <? length _)%nat eqn:Hlen; [done|].
    apply Nat.ltb_ge in Hlen. apply sort_not_nil in Hfb.
    destruct (JS.sort _ _); [done|simpl in Hlen; lia].
  - intros nm Hnm. rewrite Hp in Hnm. unfold fallbackNames in Hnm.
    apply list_elem_of_filter in Hnm as [Hhead Hnm].
    apply list_elem_of_omap in Hnm as (line & Hline & Hname).
    apply list_elem_of_filter in Hline as [_ Hline].
    apply fallbackName_Some in Hname as [Htrim Harrow]. eauto.
Qed.

Lemma fallback_tier_names_witness :
  ∃ bs,
    getAvailableBranches Samples.gitFallbackDev = Some bs
    ∧ bs ≡ₚ ["dev"]
    ∧ Sorted codeUnitLe bs
    ∧ ∀ nm, nm ∈ bs →
        nm ≠ "HEAD"
        ∧ JS.includes nm "->" = false
        ∧ ∃ line, line ∈ JS.split_lines Samples.branchListing
                  ∧ JS.trim line = "origin/" +:+ nm.
Proof.
  apply (fallback_tier_names Samples.gitFallbackDev EmptyString EmptyString
           Samples.branchListing eq_refl eq_refl eq_refl eq_refl).
  vm_compute. discriminate.
Defined.

(** ** [getRepoNameFromUrl] *)

Lemma afterLastSlash_None (s : string) :
  afterLastSlash s = None ↔ JS.includes s "/" = false.
Proof.
  induction s as [|c s IH]; [done|].
  cbn [afterLastSlash]. rewrite includes_char_cons, orb_false_iff, <- IH.
  rewrite (Ascii.eqb_sym "/" c).
  destruct (afterLastSlash s), (Ascii.eqb c "/"); naive_solver.
Qed.

Lemma afterLastSlash_segment (base seg : string) :
  JS.includes seg "/" = false →
  afterLastSlash (base +:+ "/" +:+ seg) = Some seg.
Proof.
  intros Hseg. induction base as [|c base IH].
  - change (EmptyString +:+ "/" +:+ seg) with (String "/" seg).
    cbn [afterLastSlash]. by rewrite (proj2 (afterLastSlash_None seg) Hseg).
  - rewrite append_cons. cbn [afterLastSlash]. by rewrite IH.
Qed.

Lemma afterLastSlash_Some (s r : string) :
  afterLastSlash s = Some r → JS.includes r "/" = false.
Proof.
  induction s as [|c s IH]; [done|].
  cbn [afterLastSlash].
  destruct (afterLastSlash s) as [r'|] eqn:Hs; [by intros [= <-]; apply IH|].
  destruct (Ascii.eqb c "/"); [|done].
  intros [= <-]. by apply afterLastSlash_None.
Qed.

Lemma length_append (a b : string) :
  String.length (a +:+ b) = (String.length a + String.length b)%nat.
Proof.
  induction a as [|c a IH]; [done|].
  rewrite append_cons. cbn [String.length]. by rewrite IH.
Qed.

Lemma lazyName_git (nm : string) :
  nm ≠ EmptyString → lazyName (nm +:+ ".git") = nm.
Proof.
  induction nm as [|c nm IH]; [done|]. intros _.
  rewrite append_cons. cbn [lazyName].
  destruct nm as [|d nm]; [done|].
  rewrite bool_decide_eq_false_2.
  - by rewrite IH.
  - intros Heq. apply (f_equal String.length) in Heq.
    rewrite append_cons in Heq. cbn [String.length] in Heq.
    rewrite length_append in Heq. cbn [String.length] in Heq. lia.
Qed.

Lemma lazyName_plain (nm : string) :
  endsWith nm ".git" = false → lazyName nm = nm.
Proof.
  induction nm as [|c nm IH]; [done|].
  cbn [endsWith lazyName]. intros [_ Hnm]%orb_false_iff.
  destruct (bool_decide_reflect (nm = ".git")) as [->|_]; [done|].
  by rewrite IH.
Qed.

Lemma lazyName_no_slash (seg : string) :
  JS.includes seg "/" = false → JS.includes (lazyName seg) "/" = false.
Proof.
  induction seg as [|c seg IH]; [done|].
  rewrite includes_char_cons. intros [Hc Hseg]%orb_false_iff.
  cbn [lazyName]. destruct (bool_decide _); rewrite includes_char_cons, Hc;
    [done|by apply IH].
Qed.

(** X3. For a URL that ends in [/<name>.git], with a non-empty name free of
    slashes, [getRepoNameFromUrl] returns the name without the suffix; for
    one that ends in [/<name>] with a name that does not end in [.git], it
    returns the name. *)
Theorem getRepoNameFromUrl_strips_git (base nm : string) :
  nm ≠ EmptyString →
  JS.includes nm "/" = false →
  getRepoNameFromUrl (base +:+ "/" +:+ nm +:+ ".git") = nm
  ∧ (endsWith nm ".git" = false →
     getRepoNameFromUrl (base +:+ "/" +:+ nm) = nm).
Proof.
  intros Hne Hslash. unfold getRepoNameFromUrl. split.
  - rewrite afterLastSlash_segment
      by (rewrite includes_char_app, Hslash; reflexivity).
    destruct nm as [|c nm]; [done|].
    rewrite append_cons, <- append_cons. by apply lazyName_git.
  - intros Hgit. rewrite afterLastSlash_segment by done.
    destruct nm as [|c nm]; [done|]. by apply lazyName_plain.
Qed.

Lemma getRepoNameFromUrl_strips_git_witness :
  getRepoNameFromUrl ("https://github.com/Code-Parth" +:+ "/" +:+ "github-merger"
                        +:+ ".git") = "github-merger"
  ∧ getRepoNameFromUrl ("https://github.com/Code-Parth" +:+ "/" +:+ "github-merger")
    = "github-merger".
Proof.
  destruct (getRepoNameFromUrl_strips_git "https://github.com/Code-Parth"
              "github-merger") as [H1 H2]; [discriminate|reflexivity|].
  split; [exact H1|]. apply H2. reflexivity.
Defined.

(** X4. The name [getRepoNameFromUrl] returns is never empty and holds no
    slash; it is the fallback ["repository"] for a URL without slash and
    for a URL that ends with a slash. *)
Theorem getRepoNameFromUrl_name (url : string) :
  getRepoNameFromUrl url ≠ EmptyString
  ∧ JS.includes (getRepoNameFromUrl url) "/" = false
  ∧ (JS.includes url "/" = false → getRepoNameFromUrl url = "repository")
  ∧ getRepoNameFromUrl (url +:+ "/") = "repository".
Proof.
  unfold getRepoNameFromUrl. split; [|split; [|split]].
  - destruct (afterLastSlash url) as [[|c rest]|]; [done| |done].
    cbn [lazyName]. by destruct (bool_decide _).
  - destruct (afterLastSlash url) as [[|c rest]|] eqn:Hs; [done| |done].
    by apply lazyName_no_slash, (afterLastSlash_Some url).
  - intros Hslash. by rewrite (proj2 (afterLastSlash_None url) Hslash).
  - replace (url +:+ "/") with (url +:+ "/" +:+ EmptyString)
      by (by rewrite append_empty_r).
    by rewrite afterLastSlash_segment.
Qed.

(** ** [getAvailableFileExtensions] *)

Lemma setAdd_elem (x y : string) (s : list string) :
  x ∈ setAdd y s ↔ x = y ∨ x ∈ s.
Proof.
  unfold setAdd. destruct (bool_decide_reflect (y ∈ s)) as [Hin|Hout].
  - naive_solver.
  - rewrite elem_of_app, list_elem_of_singleton. tauto.
Qed.

Lemma setAdd_NoDup (y : string) (s : list string) : NoDup s → NoDup (setAdd y s).
Proof.
  intros Hs. unfold setAdd.
  destruct (bool_decide_reflect (y ∈ s)) as [Hin|Hout]; [done|].
  apply NoDup_app. split; [done|]. split; [|apply NoDup_singleton].
  intros x Hx ->%list_elem_of_singleton. done.
Qed.

Lemma lowerChar_idemp (c : ascii) : JS.lowerChar (JS.lowerChar c) = JS.lowerChar c.
Proof. destruct c as [[] [] [] [] [] [] [] []]; reflexivity. Qed.

(** Lower-casing twice is lower-casing once. *)
Lemma toLowerCase_idemp (s : string) :
  JS.toLowerCase (JS.toLowerCase s) = JS.toLowerCase s.
Proof.
  induction s as [|c s IH]; [done|].
  cbn [JS.toLowerCase]. by rewrite lowerChar_idemp, IH.
Qed.

Section Scan.
Variable excludeDirs : list string.

(** The extension recorded for a file that the scan reaches. *)
Local Notation "'extOf'" :=
  (λ f : string * string * string, JS.toLowerCase (Path.extname f.1.2))
  (only parsing).

Lemma foldl_scanItem_elem (directory : string) (l : list Entry) : ∀ exts x,
  Forall (λ e, ∀ directory exts x,
            x ∈ scanItem excludeDirs e exts ↔
            x ∈ exts ∨ (x ≠ EmptyString
                        ∧ ∃ f, f ∈ reached excludeDirs directory e ∧ x = extOf f)) l →
  x ∈ foldl (λ exts e, scanItem excludeDirs e exts) exts l ↔
  x ∈ exts ∨ (x ≠ EmptyString
              ∧ ∃ f, f ∈ reachedFiles excludeDirs directory l ∧ x = extOf f).
Proof.
  induction l as [|e l IH]; intros exts x Hl.
  - cbn [foldl]. unfold reachedFiles. cbn [flat_map]. set_solver.
  - apply Forall_cons in Hl as [He Hl]. cbn [foldl].
    rewrite (IH _ _ Hl), (He directory).
    unfold reachedFiles. cbn [flat_map]. setoid_rewrite elem_of_app.
    naive_solver.
Qed.

(** After an entry has been scanned the set holds what it held and the
    non-empty lower-cased extensions of the files reached from the entry. *)
Lemma scanItem_elem (e : Entry) : ∀ directory exts x,
  x ∈ scanItem excludeDirs e exts ↔
  x ∈ exts ∨ (x ≠ EmptyString
              ∧ ∃ f, f ∈ reached excludeDirs directory e ∧ x = extOf f).
Proof.
  induction e as [item content|item sub IH|item|item] using Entry_nested_ind;
    intros directory exts x; cbn [scanItem reached].
  - destruct (bool_decide_reflect
                (JS.toLowerCase (Path.extname item) = EmptyString)) as [Hemp|Hne];
      cbn [negb].
    + split; [by left|]. intros [?|(Hx & f & Hf & ->)]; [done|].
      apply list_elem_of_singleton in Hf as ->. done.
    + rewrite setAdd_elem. split.
      * intros [->|?]; [right|by left]. split; [done|].
        eexists. split; [apply list_elem_of_here|done].
      * intros [?|(Hx & f & Hf & ->)]; [by right|].
        apply list_elem_of_singleton in Hf as ->. by left.
  - destruct (JS.arrayIncludes excludeDirs item); cbn [negb].
    + split; [by left|]. intros [?|(_ & f & Hf & _)]; [done|].
      by apply elem_of_nil in Hf.
    + by apply (foldl_scanItem_elem (Path.join directory item)).
  - split; [by left|]. intros [?|(_ & f & Hf & _)]; [done|].
    by apply elem_of_nil in Hf.
  - destruct (bool_decide_reflect
                (JS.toLowerCase (Path.extname item) = EmptyString)) as [Hemp|Hne];
      cbn [negb].
    + split; [by left|]. intros [?|(Hx & f & Hf & ->)]; [done|].
      apply list_elem_of_singleton in Hf as ->. done.
    + rewrite setAdd_elem. split.
      * intros [->|?]; [right|by left]. split; [done|].
        eexists. split; [apply list_elem_of_here|done].
      * intros [?|(Hx & f & Hf & ->)]; [by right|].
        apply list_elem_of_singleton in Hf as ->. by left.
Qed.

Lemma scanItem_NoDup (e : Entry) : ∀ exts,
  NoDup exts → NoDup (scanItem excludeDirs e exts).
Proof.
  induction e as [item content|item sub IH|item|item] using Entry_nested_ind;
    intros exts Hexts; cbn [scanItem]; [| |done|].
  - destruct (negb _); [by apply setAdd_NoDup|done].
  - destruct (negb _); [|done].
    revert exts Hexts. induction IH as [|e sub He _ IHsub]; intros exts Hexts;
      cbn [foldl]; [done|].
    by apply IHsub, He.
  - destruct (negb _); [by apply setAdd_NoDup|done].
Qed.

Lemma scanDirectorySync_elem (directory : string) (items : list Entry)
    (exts : list string) (x : string) :
  x ∈ scanDirectorySync excludeDirs items exts ↔
  x ∈ exts ∨ (x ≠ EmptyString
              ∧ ∃ f, f ∈ reachedFiles excludeDirs directory items ∧ x = extOf f).
Proof.
  apply foldl_scanItem_elem, Forall_forall. intros e _. apply scanItem_elem.
Qed.

Lemma scanDirectorySync_NoDup (items : list Entry) : ∀ exts,
  NoDup exts → NoDup (scanDirectorySync excludeDirs items exts).
Proof.
  unfold scanDirectorySync.
  induction items as [|e items IH]; intros exts Hexts; cbn [foldl]; [done|].
  by apply IH, scanItem_NoDup.
Qed.
End Scan.

(** What the scan finds: the non-empty lower-cased extensions of the files
    reached. *)
Lemma scanned_extension_elem (items : list Entry) (excludeDirs : list string)
    (directory ext : string) :
  ext ∈ getAvailableFileExtensions items excludeDirs ↔
  ext ≠ EmptyString
  ∧ ∃ f, f ∈ reachedFiles excludeDirs directory items
         ∧ ext = JS.toLowerCase (Path.extname f.1.2).
Proof.
  unfold getAvailableFileExtensions.
  rewrite sort_Permutation, (scanDirectorySync_elem excludeDirs directory).
  split; [|by right]. intros [Hnil|?]; [|done]. by apply elem_of_nil in Hnil.
Qed.

(** X5. [getAvailableFileExtensions] returns, in the order of the default
    [sort] (no extension after a later one, compared by UTF-16 code units)
    and without repetition, exactly the non-empty lower-cased extensions of
    the files reached from the directory through the directories that are
    not excluded; entries that cannot be examined are passed over. *)
Theorem getAvailableFileExtensions_spec
    (items : list Entry) (excludeDirs : list string) (directory : string) :
  let exts := getAvailableFileExtensions items excludeDirs in
  Sorted codeUnitLe exts
  ∧ NoDup exts
  ∧ ∀ ext, ext ∈ exts ↔
           ext ≠ EmptyString
           ∧ ∃ f, f ∈ reachedFiles excludeDirs directory items
                  ∧ ext = JS.toLowerCase (Path.extname f.1.2).
Proof.
  intros exts. subst exts.
  split; [apply default_sort_Sorted|]. split.
  - unfold getAvailableFileExtensions. rewrite sort_Permutation.
    apply scanDirectorySync_NoDup, NoDup_nil_2.
  - intros ext. apply scanned_extension_elem.
Qed.

Lemma scanned_extensions_lowered (items : list Entry) (excludeDirs : list string) :
  JS.toLowerCase <$> getAvailableFileExtensions items excludeDirs
  = getAvailableFileExtensions items excludeDirs.
Proof.
  assert (Hall : Forall (λ e, JS.toLowerCase e = e)
                   (getAvailableFileExtensions items excludeDirs)).
  { apply Forall_forall.
    intros e (_ & f & _ & ->)%(scanned_extension_elem _ _ EmptyString).
    apply toLowerCase_idemp. }
  induction Hall as [|e l He _ IH]; [reflexivity|].
  cbn [fmap list_fmap]. by rewrite He, IH.
Qed.

(** X6. With all the extensions found by the scan as [includeExtensions],
    a file reached by the scan passes the test on extensions exactly when
    its extension is not empty: selecting every file type still leaves out
    the files without extension. *)
Theorem all_scanned_extensions_selected
    (items : list Entry) (excludeDirs excludeFiles : list string)
    (directory : string) (f : string * string * string) :
  f ∈ reachedFiles excludeDirs directory items →
  let exts := getAvailableFileExtensions items excludeDirs in
  (extensionIncluded (Some exts) (JS.toLowerCase (Path.extname f.1.2)) = true
   ↔ Path.extname f.1.2 ≠ EmptyString)
  ∧ (qualifies excludeFiles (Some exts) f.1.2 = true
     ↔ (f.1.2 ∉ excludeFiles) ∧ Path.extname f.1.2 ≠ EmptyString).
Proof.
  intros Hf exts.
  assert (Hinc : extensionIncluded (Some exts)
                   (JS.toLowerCase (Path.extname f.1.2)) = true
                 ↔ Path.extname f.1.2 ≠ EmptyString).
  { unfold extensionIncluded, JS.arrayIncludes. subst exts.
    rewrite scanned_extensions_lowered, bool_decide_eq_true.
    rewrite (scanned_extension_elem _ _ directory), toLowerCase_empty.
    naive_solver. }
  split; [done|].
  unfold qualifies. cbv zeta.
  rewrite andb_true_iff, Hinc, negb_true_iff. unfold JS.arrayIncludes.
  by rewrite bool_decide_eq_false.
Qed.

Lemma all_scanned_extensions_selected_witness :
  (extensionIncluded
     (Some (getAvailableFileExtensions Samples.listingC scanExcludeDirs))
     (JS.toLowerCase (Path.extname "Makefile")) = true
   ↔ Path.extname "Makefile" ≠ EmptyString)
  ∧ (qualifies defaultExcludeFiles
       (Some (getAvailableFileExtensions Samples.listingC scanExcludeDirs))
       "Makefile" = true
     ↔ ("Makefile" ∉ defaultExcludeFiles) ∧ Path.extname "Makefile" ≠ EmptyString).
Proof.
  apply (all_scanned_extensions_selected Samples.listingC scanExcludeDirs
           defaultExcludeFiles Samples.tmp
           (Path.join Samples.tmp "Makefile", "Makefile", "all:")).
  apply list_elem_of_further, list_elem_of_here.
Defined.

Lemma reached_mono (ex1 ex2 : list string) (e : Entry) :
  (∀ d, d ∈ ex1 → d ∈ ex2) →
  ∀ directory f, f ∈ reached ex2 directory e → f ∈ reached ex1 directory e.
Proof.
  intros Hsub.
  induction e as [item content|item sub IH|item|item] using Entry_nested_ind;
    intros directory f; cbn [reached]; [done| |done|done].
  unfold JS.arrayIncludes.
  destruct (bool_decide_reflect (item ∈ ex2)) as [H2|H2];
    [by intros ?%elem_of_nil|].
  rewrite bool_decide_eq_false_2 by (intros H1; by apply H2, Hsub).
  generalize (Path.join directory item). intros d.
  induction IH as [|e sub He _ IHsub]; [done|].
  cbn [flat_map]. rewrite !elem_of_app. intros [?|?]; [left|right]; auto.
Qed.

(** X7. Excluding more directories can only take files and extensions
    away: with [ex1] contained in [ex2], the files reached past [ex2] are
    reached past [ex1], and the extensions found past [ex2] are found past
    [ex1].  The scan of [main] excludes four of the six directories that
    the merge excludes by default, so it offers the extension of every file
    the merge can reach. *)
Theorem excluding_more_finds_less
    (ex1 ex2 : list string) (items : list Entry) (directory : string) :
  (∀ d, d ∈ ex1 → d ∈ ex2) →
  (∀ f, f ∈ reachedFiles ex2 directory items → f ∈ reachedFiles ex1 directory items)
  ∧ (∀ ext, ext ∈ getAvailableFileExtensions items ex2 →
            ext ∈ getAvailableFileExtensions items ex1).
Proof.
  intros Hsub.
  assert (Hreach : ∀ f, f ∈ reachedFiles ex2 directory items →
                        f ∈ reachedFiles ex1 directory items).
  { unfold reachedFiles. induction items as [|e items IH]; [done|].
    intros f. cbn [flat_map]. rewrite !elem_of_app.
    intros [?|?]; [left; by eapply reached_mono|right; by apply IH]. }
  split; [done|]. intros ext.
  rewrite !(scanned_extension_elem _ _ directory). naive_solver.
Qed.

Lemma excluding_more_finds_less_witness :
  (∀ f, f ∈ reachedFiles defaultExcludeDirs Samples.tmp Samples.listingA →
        f ∈ reachedFiles scanExcludeDirs Samples.tmp Samples.listingA)
  ∧ (∀ ext, ext ∈ getAvailableFileExtensions Samples.listingA defaultExcludeDirs →
            ext ∈ getAvailableFileExtensions Samples.listingA scanExcludeDirs).
Proof.
  apply (excluding_more_finds_less scanExcludeDirs defaultExcludeDirs).
  intros d Hd. unfold scanExcludeDirs, defaultExcludeDirs in *.
  repeat (apply elem_of_cons in Hd as [->|Hd];
          [repeat (first [apply list_elem_of_here|apply list_elem_of_further])|]).
  by apply elem_of_nil in Hd.
Defined.

(** X8. In [main] the answer to the prompt is made of the choices offered
    (the extensions found, or the mark for all of them); whatever it is, the
    extensions handed to the merge never admit a file whose extension is
    empty: neither the tree nor the merged text can hold such a file. *)
Theorem main_never_selects_extensionless
    (scanItems : list Entry) (excludeDirs excludeFiles fileSelection : list string)
    (item : string) :
  let available := getAvailableFileExtensions scanItems excludeDirs in
  (∀ c, c ∈ fileSelection → c = "*ALL*" ∨ c ∈ available) →
  Path.extname item = EmptyString →
  extensionIncluded (Some (selectExtensions available fileSelection))
    (JS.toLowerCase (Path.extname item)) = false
  ∧ qualifies excludeFiles (Some (selectExtensions available fileSelection)) item
    = false.
Proof.
  intros available Hsel Hext.
  assert (Hav : EmptyString ∉ available).
  { intros Hin%(scanned_extension_elem _ _ EmptyString). by destruct Hin. }
  assert (Hnot : EmptyString ∉ selectExtensions available fileSelection).
  { unfold selectExtensions.
    destruct (0 <? length available)%nat; [|by intros ?%elem_of_nil].
    unfold JS.arrayIncludes.
    destruct (bool_decide_reflect ("*ALL*" ∈ fileSelection)); [done|].
    destruct (0 <? length fileSelection)%nat; [|done].
    intros [Heq|Hin]%Hsel; [discriminate Heq|done]. }
  assert (Hinc : extensionIncluded (Some (selectExtensions available fileSelection))
                   (JS.toLowerCase (Path.extname item)) = false).
  { rewrite Hext. apply not_true_is_false.
    unfold extensionIncluded. by rewrite lowered_includes_empty. }
  split; [done|]. unfold qualifies. cbv zeta. by rewrite Hinc, andb_false_r.
Qed.

Lemma main_never_selects_extensionless_witness :
  extensionIncluded
    (Some (selectExtensions
             (getAvailableFileExtensions Samples.listingC scanExcludeDirs) []))
    (JS.toLowerCase (Path.extname "Makefile")) = false
  ∧ qualifies defaultExcludeFiles
      (Some (selectExtensions
               (getAvailableFileExtensions Samples.listingC scanExcludeDirs) []))
      "Makefile" = false.
Proof.
  apply (main_never_selects_extensionless Samples.listingC scanExcludeDirs
           defaultExcludeFiles [] "Makefile").
  - intros c Hc. by apply elem_of_nil in Hc.
  - reflexivity.
Defined.

(** ** [mergeRepositoryFiles]: the outcome of a call *)







(** With nothing in [includeExtensions] no file passes, and the tree has no
    children. *)
Lemma buildFileTree_nothing_included (localeCompare : string → string → Z)
    (depth : nat) (items : list Entry) (excludeDirs : list string)
    (repoName : string) (t : FileTree) :
  buildFileTree localeCompare depth items excludeDirs repoName (Some []) = Some t →
  hasChildren t = false.
Proof.
  intros Ht.
  destruct (buildFileTree_nodes localeCompare excludeDirs (Some []) (λ _, False))
    with (depth := depth) (items := items) (repoName := repoName) (t := t)
    as [_ Hdesc]; [| |done|].
  - intros item. unfold extensionIncluded, JS.arrayIncludes.
    cbn [fmap list_fmap]. rewrite bool_decide_eq_false_2; [done|].
    by intros ?%elem_of_nil.
  - by intros nm c cs [? _]%Forall_cons.
  - destruct t as [nm ty [[|c cs]|]]; [done| |done].
    unfold descendants in Hdesc. cbn [children flat_map] in Hdesc.
    rewrite nodes_unfold in Hdesc. by apply Forall_cons in Hdesc as [? _].
Qed.

Section MergeOutcome.
Variable localeCompare : string → string → Z.
Variable TEMP_BASE_DIR : string.

(** The two ways out of the [try] block of [mergeRepositoryFiles]: [true]
    after one write, on a clone whose tree has children; or something else,
    with nothing written and at most the clone added to the disk. *)
Lemma mergeAttempt_cases githubUrl excludeDirs excludeFiles outputPath
    includeExtensions branch tempDir repoName run w :
  let out := mergeAttempt localeCompare githubUrl excludeDirs excludeFiles
               outputPath includeExtensions branch tempDir repoName run w in
  (∃ listing t,
     cloneOutcome run = Cloned listing
     ∧ buildFileTree localeCompare (S (listingHeight listing)) listing
         excludeDirs repoName includeExtensions = Some t
     ∧ hasChildren t = true
     ∧ (outputPath ∉ unwritable w)
     ∧ out = (Some true,
              MkWorld (tempDirectories w)
                ({[outputPath]} ∪ onDisk (cloneInto tempDir listing w))
                (undeletable w) (unwritable w)
                (written w
                 ++ [(outputPath,
                      header githubUrl branch (now run) (treeString repoName t)
                      +:+ renderBlocks tempDir repoName
                            (filter (λ f : string * string * string,
                                       qualifies excludeFiles includeExtensions
                                         f.1.2 = true)
                                    (reachedFiles excludeDirs tempDir listing)))])))
  ∨ (out.1 ≠ Some true
     ∧ (out.2 = w
        ∨ ∃ listing, cloneOutcome run = Cloned listing
                     ∧ out.2 = cloneInto tempDir listing w)
     ∧ ((∃ m, cloneOutcome run = CloneFailed m) → out = (Some false, w))).
Proof.
  unfold mergeAttempt. cbv zeta.
  destruct (cloneOutcome run) as [listing|msg]; cbn [fst snd];
    [|right; split; [done|split; [by left|done]]].
  destruct (buildFileTree _ _ _ _ _ _) as [t|] eqn:Ht; cbn [fst snd];
    [|right; split; [done|split; [right; by exists listing|by intros [? ?]]]].
  destruct (hasChildren t) eqn:Hc; cbn [fst snd negb];
    [|right; split; [done|split; [right; by exists listing|by intros [? ?]]]].
  destruct (processDirectory _ _ _ _ _ _ _ _) as [mc|] eqn:Hmc; cbn [fst snd];
    [|right; split; [done|split; [right; by exists listing|by intros [? ?]]]].
  apply processDirectory_appends in Hmc as ->.
  unfold writeFileSync.
  destruct (bool_decide_reflect
              (outputPath ∈ unwritable (cloneInto tempDir listing w)))
    as [Hro|Hrw]; cbn [fst snd];
    [right; split; [done|split; [right; by exists listing|by intros [? ?]]]|].
  left. exists listing, t. cbn [cloneInto unwritable] in Hrw. by repeat split.
Qed.

End MergeOutcome.

(** The [finally] block: the directory is deleted with what lies below it
    and leaves the registry, or the deletion fails and the call ends with
    that failure. *)
Lemma release_cases (tempDir : string) (result : bool) (w2 : World) :
  let out := if existsSync tempDir w2
             then match rmSync tempDir w2 with
                  | Some w => (Some result, dropTemp tempDir w)
                  | None => (None, w2)
                  end
             else (Some result, dropTemp tempDir w2) in
  (∃ disk,
     out = (Some result,
            MkWorld (filter (λ d, d ≠ tempDir) (tempDirectories w2))
              disk (undeletable w2) (unwritable w2) (written w2))
     ∧ (tempDir ∉ disk)
     ∧ (∀ p, under tempDir p = false → p ∈ disk ↔ p ∈ onDisk w2)
     ∧ (tempDir ∈ onDisk w2 →
        (tempDir ∉ undeletable w2)
        ∧ disk = filter (λ p, under tempDir p = false) (onDisk w2)))
  ∨ (out = (None, w2) ∧ tempDir ∈ onDisk w2 ∧ tempDir ∈ undeletable w2).
Proof.
  unfold existsSync, rmSync. cbv zeta.
  destruct (bool_decide_reflect (tempDir ∈ onDisk w2)) as [Hin|Hout].
  - destruct (bool_decide_reflect (tempDir ∈ undeletable w2)) as [Hl|Hl];
      [by right|left].
    exists (filter (λ p, under tempDir p = false) (onDisk w2)).
    split; [reflexivity|]. split; [apply not_elem_of_removed|].
    split; [|done]. intros p Hp. rewrite elem_of_filter. tauto.
  - left. exists (onDisk w2). by repeat split.
Qed.

(** X9. With an empty [includeExtensions] array, which is what [main]
    passes when the scan found no extension, [mergeRepositoryFiles] never
    succeeds: nothing is written and the result is not [true]. *)
Theorem mergeRepositoryFiles_nothing_selected
    (localeCompare : string → string → Z) (TEMP_BASE_DIR githubUrl : string)
    (options : Options) (run : Run) (w : World) :
  includeExtensions options = Some [] →
  let out := mergeRepositoryFiles localeCompare TEMP_BASE_DIR githubUrl options run w in
  written out.2 = written w ∧ out.1 ≠ Some true.
Proof.
  intros Hexts out. subst out. unfold mergeRepositoryFiles. cbv zeta.
  rewrite Hexts. set (tempDir := Path.join TEMP_BASE_DIR _).
  pose proof (mergeAttempt_cases localeCompare githubUrl
    (default defaultExcludeDirs (excludeDirs options))
    (default defaultExcludeFiles (excludeFiles options))
    (default defaultOutputPath (outputPath options)) (Some []) (branch options)
    tempDir (getRepoNameFromUrl githubUrl) run (pushTemp tempDir w)) as Hatt.
  cbv zeta in Hatt. destruct (mergeAttempt _ _ _ _ _ _ _ _ _ _ _) as [att w2].
  destruct Hatt as [(listing & t & _ & Ht & Hc & _)|(Hatt & Hw2 & _)].
  { apply buildFileTree_nothing_included in Ht. congruence. }
  cbn [fst snd] in Hatt, Hw2.
  assert (Hwr : written w2 = written w)
    by (by destruct Hw2 as [->|(listing & _ & ->)]).
  destruct (release_cases tempDir (tryCatch att false) w2)
    as [(disk & -> & _)|[-> _]];
    cbn [fst snd written]; (split; [done|]); [|done].
  destruct att as [[]|]; done.
Qed.

Lemma mergeRepositoryFiles_nothing_selected_witness :
  written (mergeRepositoryFiles Samples.compareNames Samples.tmp Samples.urlA
             Samples.nothingFound Samples.runA Samples.emptyWorld).2 = []
  ∧ (mergeRepositoryFiles Samples.compareNames Samples.tmp Samples.urlA
       Samples.nothingFound Samples.runA Samples.emptyWorld).1 ≠ Some true.
Proof.
  apply (mergeRepositoryFiles_nothing_selected Samples.compareNames Samples.tmp
           Samples.urlA Samples.nothingFound Samples.runA Samples.emptyWorld).
  reflexivity.
Defined.



(** With one file that passes the tests and cannot be read, the same call
    returns [false] and writes nothing. *)
Example mergeRepositoryFiles_unreadable_file :
  mergeRepositoryFiles Samples.compareNames Samples.tmp Samples.urlA
    Samples.onlyTs
    (MkRun "k1" "2024-01-01T00:00:00.000Z" (Cloned Samples.listingLocked))
    Samples.emptyWorld
  = (Some false, Samples.emptyWorld).
Proof. vm_compute. reflexivity. Qed.

Section MergeFrame.
Variable localeCompare : string → string → Z.
Variable TEMP_BASE_DIR : string.

End MergeFrame.

(** X11. When the clone fails, when building the tree throws, or when the
    output path cannot be written, [mergeRepositoryFiles] writes nothing
    and does not return [true]; if its directory can be deleted it returns
    [false], and the directory is gone from the disk and from the registry. *)
Theorem mergeRepositoryFiles_failure
    (localeCompare : string → string → Z) (TEMP_BASE_DIR githubUrl : string)
    (options : Options) (run : Run) (w : World) :
  let tempDir := tempDirOf TEMP_BASE_DIR run in
  let target := default defaultOutputPath (outputPath options) in
  let out := mergeRepositoryFiles localeCompare TEMP_BASE_DIR githubUrl options run w in
  builtTree localeCompare githubUrl options run = None ∨ target ∈ unwritable w →
  written out.2 = written w
  ∧ out.1 ≠ Some true
  ∧ (tempDir ∉ undeletable w →
     out.1 = Some false
     ∧ (tempDir ∉ onDisk out.2) ∧ (tempDir ∉ tempDirectories out.2)).
Proof.
  intros tempDir target out Hfail. subst out.
  unfold mergeRepositoryFiles. cbv zeta.
  fold (tempDirOf TEMP_BASE_DIR run). fold tempDir. fold target.
  pose proof (mergeAttempt_cases localeCompare githubUrl
    (default defaultExcludeDirs (excludeDirs options))
    (default defaultExcludeFiles (excludeFiles options))
    target (includeExtensions options) (branch options)
    tempDir (getRepoNameFromUrl githubUrl) run (pushTemp tempDir w)) as Hatt.
  cbv zeta in Hatt.
  destruct (mergeAttempt _ _ _ _ _ _ _ _ _ _ _) as [att w2].
  destruct Hatt as [(listing & t & Hcl & Ht & _ & Hrw & _)|(Hatt & Hw2 & _)].
  { exfalso. destruct Hfail as [Hnone|Hro]; [|done].
    unfold builtTree in Hnone. rewrite Hcl in Hnone. congruence. }
  cbn [fst snd] in Hatt, Hw2.
  assert (Hwr : written w2 = written w ∧ undeletable w2 = undeletable w)
    by (by destruct Hw2 as [->|(listing & _ & ->)]).
  destruct Hwr as [Hwr Hlock].
  assert (Hfalse : tryCatch att false = false) by (by destruct att as [[]|]).
  pose proof (release_cases tempDir (tryCatch att false) w2) as Hrel.
  cbv zeta in Hrel.
  destruct Hrel as [(disk & -> & Hgone & _)|[-> [_ Hl]]]; cbn [fst snd written].
  - rewrite Hfalse. split; [done|]. split; [done|]. intros _.
    split; [done|]. cbn [onDisk tempDirectories]. split; [done|].
    rewrite list_elem_of_filter. tauto.
  - split; [done|]. split; [done|]. intros Hdel. by rewrite Hlock in Hl.
Qed.

Lemma mergeRepositoryFiles_failure_witness :
  written (mergeRepositoryFiles Samples.compareNames Samples.tmp Samples.urlA
             Samples.onlyTs Samples.runFailed Samples.busyWorld).2 = []
  ∧ (mergeRepositoryFiles Samples.compareNames Samples.tmp Samples.urlA
       Samples.onlyTs Samples.runFailed Samples.busyWorld).1 ≠ Some true
  ∧ (tempDirOf Samples.tmp Samples.runFailed ∉ undeletable Samples.busyWorld →
     (mergeRepositoryFiles Samples.compareNames Samples.tmp Samples.urlA
        Samples.onlyTs Samples.runFailed Samples.busyWorld).1 = Some false
     ∧ (tempDirOf Samples.tmp Samples.runFailed
        ∉ onDisk (mergeRepositoryFiles Samples.compareNames Samples.tmp
                    Samples.urlA Samples.onlyTs Samples.runFailed
                    Samples.busyWorld).2)
     ∧ (tempDirOf Samples.tmp Samples.runFailed
        ∉ tempDirectories
            (mergeRepositoryFiles Samples.compareNames Samples.tmp Samples.urlA
               Samples.onlyTs Samples.runFailed Samples.busyWorld).2)).
Proof.
  apply (mergeRepositoryFiles_failure Samples.compareNames Samples.tmp
           Samples.urlA Samples.onlyTs Samples.runFailed Samples.busyWorld).
  left. reflexivity.
Defined.



(** ** The tree and the merged text hold the same files *)

Section SameFiles.
Variable localeCompare : string → string → Z.
Variables (excludeDirs : list string) (includeExtensions : option (list string)).
Variable g : string → string.

Local Notation "'build'" := (λ depth items repoName,
  buildFileTree localeCompare depth items excludeDirs repoName includeExtensions)
  (only parsing).
Local Notation "'kept'" :=
  (filter (λ f : string * string * string,
     extensionIncluded includeExtensions
       (JS.toLowerCase (Path.extname f.1.2)) = true))
  (only parsing).
Local Notation "'marked'" :=
  (map (λ f : string * string * string, (g f.1.1, f.1.2))) (only parsing).

Lemma reachedFiles_Permutation (D : string) (l l' : list Entry) :
  l ≡ₚ l' → reachedFiles excludeDirs D l ≡ₚ reachedFiles excludeDirs D l'.
Proof.
  unfold reachedFiles. induction 1 as [|e l l' _ IH|e e' l|l1 l2 l3 _ IH1 _ IH2];
    cbn [flat_map]; [done|by rewrite IH| |by etrans].
  rewrite !app_assoc. f_equiv. apply Permutation_app_comm.
Qed.

(** The loop of [buildFileTree], whatever the order of the array: the files
    of the children pushed are the files reached from the entries that pass
    the test on extensions. *)
Lemma forOf_buildItem_files (rec : list Entry → string → option FileTree)
    (D Y : string) (l : list Entry) : ∀ acc kids,
  (∀ sub nm t D' Y',
     rec sub nm = Some t →
     (∀ s, g (D' +:+ "/" +:+ s) = Y' +:+ s) →
     ∃ kids', t = MkFileTree nm directory (Some kids')
              ∧ flat_map (leaves Y') kids'
                ≡ₚ marked (kept (reachedFiles excludeDirs D' sub))) →
  (∀ s, g (D +:+ "/" +:+ s) = Y +:+ s) →
  forOf (buildItem rec excludeDirs includeExtensions) l acc = Some kids →
  flat_map (leaves Y) kids
  ≡ₚ flat_map (leaves Y) acc ++ marked (kept (reachedFiles excludeDirs D l)).
Proof.
  intros acc kids Hrec Hg. revert acc.
  induction l as [|e l IH]; intros acc Hloop.
  - cbn in Hloop. injection Hloop as <-. by rewrite app_nil_r.
  - cbn [forOf] in Hloop.
    destruct (buildItem rec excludeDirs includeExtensions e acc)
      as [acc1|] eqn:Hitem; [|done].
    cbn [mbind option_bind] in Hloop.
    rewrite (IH acc1 Hloop).
    unfold reachedFiles. cbn [flat_map].
    rewrite filter_app, map_app, app_assoc. f_equiv.
    unfold buildItem in Hitem.
    destruct e as [item content|item sub|item|item]; cbn [isDirectory] in Hitem;
      cbn [mbind option_bind entryName entryItems] in Hitem; [| |done|].
    + cbn [reached]. rewrite filter_cons, filter_nil. cbn [fst snd].
      destruct (extensionIncluded _ _) eqn:Hext.
      * injection Hitem as <-. rewrite decide_True by done.
        rewrite flat_map_app. cbn [flat_map leaves map]. rewrite app_nil_r.
        unfold Path.join, Path.sep. cbn [fst snd]. by rewrite Hg.
      * injection Hitem as <-. rewrite decide_False by done.
        by rewrite app_nil_r.
    + cbn [reached] in *.
      destruct (JS.arrayIncludes excludeDirs item); cbn [negb] in *.
      * injection Hitem as <-. by rewrite app_nil_r.
      * destruct (rec sub item) as [t|] eqn:Ht; [|done].
        cbn [mbind option_bind] in Hitem.
        destruct (Hrec sub item t (Path.join D item) (Y +:+ item +:+ "/") Ht)
          as (kids' & -> & Hleaves).
        { intros s'. unfold Path.join, Path.sep.
          by rewrite !append_assoc, Hg. }
        fold (reachedFiles excludeDirs (Path.join D item) sub).
        rewrite <- Hleaves.
        destruct kids' as [|k kids']; cbn [hasChildren children] in Hitem;
          injection Hitem as <-.
        -- by rewrite app_nil_r.
        -- rewrite flat_map_app. cbn [flat_map leaves]. by rewrite app_nil_r.
    + cbn [reached]. rewrite filter_cons, filter_nil. cbn [fst snd].
      destruct (extensionIncluded _ _) eqn:Hext.
      * injection Hitem as <-. rewrite decide_True by done.
        rewrite flat_map_app. cbn [flat_map leaves map]. rewrite app_nil_r.
        unfold Path.join, Path.sep. cbn [fst snd]. by rewrite Hg.
      * injection Hitem as <-. rewrite decide_False by done.
        by rewrite app_nil_r.
Qed.

Lemma buildFileTree_files depth : ∀ items repoName t D Y,
  build depth items repoName = Some t →
  (∀ s, g (D +:+ "/" +:+ s) = Y +:+ s) →
  ∃ kids, t = MkFileTree repoName directory (Some kids)
          ∧ flat_map (leaves Y) kids
            ≡ₚ marked (kept (reachedFiles excludeDirs D items)).
Proof.
  induction depth as [|depth IH]; intros items repoName t D Y Hb Hg; [done|].
  cbn [buildFileTree] in Hb.
  destruct (JS.sortM _ items) as [sorted|] eqn:Hsort; [|done].
  cbn [mbind option_bind] in Hb.
  destruct (forOf _ sorted []) as [kids|] eqn:Hloop; [|done].
  cbn [mbind option_bind] in Hb. injection Hb as <-.
  exists kids. split; [done|].
  apply sortM_Permutation in Hsort.
  apply (forOf_buildItem_files _ D Y sorted [] kids) in Hloop; [| |done].
  - rewrite Hloop. cbn [flat_map app].
    by rewrite (reachedFiles_Permutation D sorted items Hsort).
  - intros sub nm t D' Y' Ht Hg'. by apply (IH sub nm t D' Y').
Qed.
End SameFiles.

(** X13. The files of the tree [buildFileTree] returns are, each once and
    under its path below the name of the repository, exactly the files
    reached from the directory through the directories not excluded that
    pass the test on extensions; only their order may differ from the
    order of the listing. *)
Theorem buildFileTree_holds_reached_files
    (localeCompare : string → string → Z) (depth : nat) (items : list Entry)
    (excludeDirs : list string) (includeExtensions : option (list string))
    (tempDir repoName : string) (t : FileTree) :
  buildFileTree localeCompare depth items excludeDirs repoName includeExtensions
    = Some t →
  leaves EmptyString t
  ≡ₚ map (λ f : string * string * string,
            (markerPath tempDir repoName f.1.1, f.1.2))
         (filter (λ f : string * string * string,
                    extensionIncluded includeExtensions
                      (JS.toLowerCase (Path.extname f.1.2)) = true)
                 (reachedFiles excludeDirs tempDir items)).
Proof.
  intros Ht.
  destruct (buildFileTree_files localeCompare excludeDirs includeExtensions
              (markerPath tempDir repoName) depth items repoName t tempDir
              (repoName +:+ "/") Ht) as (kids & -> & Hleaves).
  { intros rest. apply markerPath_below. }
  cbn [leaves].
  change (EmptyString +:+ repoName +:+ "/") with (repoName +:+ "/").
  exact Hleaves.
Qed.

Lemma buildFileTree_holds_reached_files_witness :
  leaves EmptyString Samples.treeA
  ≡ₚ map (λ f : string * string * string,
            (markerPath Samples.tmp "repo" f.1.1, f.1.2))
         (filter (λ f : string * string * string,
                    extensionIncluded (Some [".ts"])
                      (JS.toLowerCase (Path.extname f.1.2)) = true)
                 (reachedFiles defaultExcludeDirs Samples.tmp Samples.listingA)).
Proof.
  apply (buildFileTree_holds_reached_files Samples.compareNames 2 Samples.listingA
           defaultExcludeDirs (Some [".ts"]) Samples.tmp "repo" Samples.treeA).
  vm_compute. reflexivity.
Defined.

(** X14. The tree and the contents of a merge hold the same files.  On a
    clone that does not stop the second walk, what [processDirectory]
    appends are the units of files that, each taken by its path below the
    name of the repository, are up to their order the files of the tree of
    [buildFileTree], without those excluded by name.  When the name of the
    repository holds no dollar sign, that path is the one written after
    [// File:]. *)
Theorem merged_files_are_tree_files
    (localeCompare : string → string → Z) (depth : nat) (items : list Entry)
    (excludeDirs excludeFiles : list string)
    (includeExtensions : option (list string))
    (tempDir repoName : string) (t : FileTree) (mc : string) :
  buildFileTree localeCompare depth items excludeDirs repoName includeExtensions
    = Some t →
  existsb (stopsMerge excludeDirs excludeFiles includeExtensions) items = false →
  let appended :=
    filter (λ f : string * string * string,
              qualifies excludeFiles includeExtensions f.1.2 = true)
           (reachedFiles excludeDirs tempDir items) in
  processDirectory excludeDirs excludeFiles includeExtensions tempDir repoName
    tempDir items mc
  = Some (mc +:+ renderBlocks tempDir repoName appended)
  ∧ map (λ f : string * string * string, markerPath tempDir repoName f.1.1)
        appended
    ≡ₚ map fst (filter (λ l : string * string, l.2 ∉ excludeFiles)
                       (leaves EmptyString t))
  ∧ (JS.includes repoName "$" = false →
     ∀ f, f ∈ appended →
       fileBlock tempDir repoName f.1.1 f.2
       = JS.nl +:+ "// File: " +:+ markerPath tempDir repoName f.1.1
           +:+ JS.nl +:+ f.2 +:+ JS.nl).
Proof.
  intros Ht Hrun appended. split; [|split].
  - by rewrite processDirectory_run, Hrun.
  - subst appended. rewrite selected_by_name.
    destruct (buildFileTree_files localeCompare excludeDirs includeExtensions
                (markerPath tempDir repoName) depth items repoName t tempDir
                (repoName +:+ "/") Ht) as (kids & -> & Hleaves).
    { intros rest. apply markerPath_below. }
    cbn [leaves].
    change (EmptyString +:+ repoName +:+ "/") with (repoName +:+ "/").
    by rewrite Hleaves.
  - intros Hname f _. by apply fileBlock_plain.
Qed.

Lemma merged_files_are_tree_files_witness :
  processDirectory defaultExcludeDirs defaultExcludeFiles (Some [".ts"])
    Samples.tmp "repo" Samples.tmp Samples.listedByName EmptyString
  = Some (Samples.blockTop +:+ Samples.blockSrc)
  ∧ map (λ f : string * string * string, markerPath Samples.tmp "repo" f.1.1)
        (filter (λ f : string * string * string,
                   qualifies defaultExcludeFiles (Some [".ts"]) f.1.2 = true)
                (reachedFiles defaultExcludeDirs Samples.tmp Samples.listedByName))
    ≡ₚ map fst (filter (λ l : string * string, l.2 ∉ defaultExcludeFiles)
                       (leaves EmptyString Samples.treeA)).
Proof.
  destruct (merged_files_are_tree_files Samples.compareNames 2
              Samples.listedByName defaultExcludeDirs defaultExcludeFiles
              (Some [".ts"]) Samples.tmp "repo" Samples.treeA EmptyString)
    as (Hout & Hsame & _).
  - vm_compute. reflexivity.
  - vm_compute. reflexivity.
  - split; [|exact Hsame]. rewrite Hout. vm_compute. reflexivity.
Defined.

(** ** When the walks throw *)


Section Throws.
Variable localeCompare : string → string → Z.
Variables (excludeDirs excludeFiles : list string).
Variable includeExtensions : option (list string).
Variables (tempDir repoName : string).






End Throws.



(** ** The order of the children of a node *)

Section SortMSorted.
Context {A : Type}.
Variable cmp : A → A → option Z.

Local Notation "'le'" :=
  (λ a b, match cmp a b with Some c => c <=? 0 | None => false end = true)
  (only parsing).

Hypothesis cmp_total : ∀ a b c, cmp a b = Some c → 0 < c → le b a.

Lemma insertM_Sorted (x : A) (l r : list A) :
  Sorted le l → JS.insertM cmp x l = Some r → Sorted le r.
Proof.
  intros Hl. revert r.
  induction Hl as [|y l Hl IH Hhd]; intros r Hr; cbn [JS.insertM] in Hr.
  - injection Hr as <-. repeat constructor.
  - destruct (cmp x y) as [c|] eqn:Hc; [|done].
    cbn [mbind option_bind] in Hr.
    destruct (Z.leb_spec c 0) as [Hle|Hgt].
    + injection Hr as <-. constructor; [by constructor|].
      constructor. rewrite Hc. by apply Z.leb_le.
    + destruct (JS.insertM cmp x l) as [r'|] eqn:Hins; [|done].
      cbn [mbind option_bind] in Hr. injection Hr as <-.
      constructor; [by apply IH|].
      destruct Hhd as [|z l Hz]; cbn [JS.insertM] in Hins.
      * injection Hins as <-. constructor. by apply (cmp_total x y c).
      * destruct (cmp x z) as [c'|]; [|done].
        cbn [mbind option_bind] in Hins.
        destruct (c' <=? 0).
        -- injection Hins as <-. constructor. by apply (cmp_total x y c).
        -- destruct (JS.insertM cmp x l) as [r''|]; [|done].
           cbn [mbind option_bind] in Hins. injection Hins as <-.
           by constructor.
Qed.

Lemma sortM_Sorted (l s : list A) : JS.sortM cmp l = Some s → Sorted le s.
Proof.
  revert s. induction l as [|x l IH]; intros s Hs; cbn [JS.sortM] in Hs.
  - injection Hs as <-. constructor.
  - destruct (JS.sortM cmp l) as [s'|]; [|done].
    cbn [mbind option_bind] in Hs.
    by apply (insertM_Sorted x s' s); [apply IH|].
Qed.
End SortMSorted.

Section SiblingOrder.
Variable localeCompare : string → string → Z.
Variables (excludeDirs : list string) (includeExtensions : option (list string)).
Hypothesis localeCompare_total : ∀ a b,
  0 < localeCompare a b → localeCompare b a ≤ 0.
Hypothesis localeCompare_trans : ∀ a b c,
  localeCompare a b ≤ 0 → localeCompare b c ≤ 0 → localeCompare a c ≤ 0.

Local Notation "'before'" := (λ a b, leItems localeCompare a b = true)
  (only parsing).
(** The node [k] stands for the entry [e]. *)
Local Notation "'standsFor'" :=
  (λ (k : FileTree) (e : Entry),
     name k = entryName e
     ∧ isDirectory e = Some match type k with directory => true | file => false end)
  (only parsing).
Local Notation "'childrenInOrder'" :=
  (λ n : FileTree, ∀ kids, children n = Some kids →
     StronglySorted (nodeBefore localeCompare) kids)
  (only parsing).

Lemma compareItems_swap a b c :
  compareItems localeCompare a b = Some c → 0 < c → before b a.
Proof.
  unfold leItems, compareItems.
  destruct (isDirectory a) as [[]|], (isDirectory b) as [[]|];
    cbn [mbind option_bind andb negb]; intros [= <-] Hc; try lia;
    try (apply Z.leb_le; by apply localeCompare_total); done.
Qed.

Lemma leItems_trans a b c : before a b → before b c → before a c.
Proof.
  unfold leItems, compareItems.
  destruct (isDirectory a) as [[]|], (isDirectory b) as [[]|],
    (isDirectory c) as [[]|]; cbn [mbind option_bind andb negb];
    rewrite ?Z.leb_le; try done; try lia;
    apply localeCompare_trans.
Qed.

Lemma nodeBefore_of_entries e e' (k k' : FileTree) :
  before e e' → standsFor k e → standsFor k' e' →
  nodeBefore localeCompare k k'.
Proof.
  unfold leItems, compareItems, nodeBefore.
  intros Hle [Hn Hd] [Hn' Hd']. rewrite Hd, Hd', <- Hn, <- Hn' in Hle.
  cbn [mbind option_bind] in Hle.
  destruct (type k), (type k'); cbn [andb negb] in Hle;
    rewrite ?Z.leb_le in Hle; try done; lia.
Qed.

Lemma forOf_buildItem_in_order (rec : list Entry → string → option FileTree)
    (l : list Entry) : ∀ acc kids,
  (∀ sub nm t, rec sub nm = Some t → name t = nm ∧ type t = directory) →
  StronglySorted before l →
  forOf (buildItem rec excludeDirs includeExtensions) l acc = Some kids →
  ∃ new, kids = acc ++ new
         ∧ StronglySorted (nodeBefore localeCompare) new
         ∧ Forall (λ k, ∃ e, e ∈ l ∧ standsFor k e) new.
Proof.
  intros acc kids Hrec Hl. revert acc.
  induction Hl as [|e l Hl IH Hall]; intros acc Hloop; cbn [forOf] in Hloop.
  - injection Hloop as <-. exists []. rewrite app_nil_r.
    split; [done|]. split; constructor.
  - destruct (buildItem rec excludeDirs includeExtensions e acc)
      as [acc1|] eqn:Hitem; [|done].
    cbn [mbind option_bind] in Hloop.
    destruct (IH acc1 Hloop) as (new & -> & Hnew & Hfrom).
    assert (Hlater : Forall (λ k, ∃ e', e' ∈ e :: l ∧ standsFor k e') new).
    { eapply Forall_impl; [exact Hfrom|].
      intros k (e' & He' & Hk). exists e'. split; [by right|done]. }
    assert (Hthis : acc1 = acc
                    ∨ ∃ k, acc1 = acc ++ [k] ∧ standsFor k e).
    { unfold buildItem in Hitem.
      destruct (isDirectory e) as [[]|] eqn:Hdir;
        cbn [mbind option_bind] in Hitem; [| |done].
      - destruct (negb _); [|by left; injection Hitem].
        destruct (rec _ _) as [t|] eqn:Ht; [|done].
        cbn [mbind option_bind] in Hitem.
        destruct (Hrec _ _ _ Ht) as [Hnm Hty].
        destruct (hasChildren t); injection Hitem as <-; [|by left].
        right. exists t. split; [done|]. by rewrite Hty.
      - destruct (extensionIncluded _ _); injection Hitem as <-; [|by left].
        right. eexists. split; [done|]. by cbn [name type]. }
    destruct Hthis as [->|(k & -> & Hk)].
    + by exists new.
    + exists (k :: new). rewrite <- app_assoc. split; [done|].
      split; [|constructor; [exists e; split; [left|done]|done]].
      constructor; [done|].
      apply Forall_forall. intros k' Hk'.
      destruct (proj1 (Forall_forall _ _) Hfrom k' Hk') as (e' & He' & Hke').
      apply (nodeBefore_of_entries e e'); [|done..].
      by apply (proj1 (Forall_forall _ _) Hall).
Qed.

Lemma buildFileTree_in_order depth : ∀ items repoName t,
  buildFileTree localeCompare depth items excludeDirs repoName includeExtensions
    = Some t →
  name t = repoName ∧ type t = directory ∧ Forall childrenInOrder (nodes t).
Proof.
  induction depth as [|depth IH]; intros items repoName t Hb; [done|].
  cbn [buildFileTree] in Hb.
  destruct (JS.sortM _ items) as [sorted|] eqn:Hsort; [|done].
  cbn [mbind option_bind] in Hb.
  destruct (forOf _ sorted []) as [kids|] eqn:Hloop; [|done].
  cbn [mbind option_bind] in Hb. injection Hb as <-.
  split; [done|]. split; [done|].
  cbn [nodes]. constructor.
  - intros kids' [= <-].
    apply sortM_Sorted in Hsort; [|apply compareItems_swap].
    assert (Hstrong : StronglySorted
                        (λ a b, leItems localeCompare a b = true) sorted).
    { apply Sorted.Sorted_StronglySorted; [|exact Hsort].
      intros a b c. apply leItems_trans. }
    clear Hsort. rename Hstrong into Hsort.
    destruct (forOf_buildItem_in_order
                (λ sub nm, buildFileTree localeCompare depth sub excludeDirs nm
                             includeExtensions) sorted [] kids)
      as (new & -> & Hnew & _); [|exact Hsort|exact Hloop|exact Hnew].
    intros sub nm t Ht. destruct (IH sub nm t Ht) as (? & ? & _). done.
  - apply Forall_flat_map_nodes.
    eapply (forOf_invariant _ _ sorted [] kids); [|constructor|exact Hloop].
    intros e s1 s2 _ Hs1 Hitem. unfold buildItem in Hitem.
    destruct (isDirectory e) as [[]|]; cbn [mbind option_bind] in Hitem;
      [| |done].
    + destruct (negb _); [|by injection Hitem as <-].
      destruct (buildFileTree _ depth _ _ _ _) as [t|] eqn:Ht; [|done].
      cbn [mbind option_bind] in Hitem.
      destruct (hasChildren t); injection Hitem as <-; [|done].
      apply Forall_app. split; [done|]. constructor; [|done].
      by destruct (IH _ _ _ Ht) as (_ & _ & ?).
    + destruct (extensionIncluded _ _); injection Hitem as <-; [|done].
      apply Forall_app. split; [done|]. constructor; [|done].
      cbn [nodes]. constructor; [|done]. by intros kids' [=].
Qed.
End SiblingOrder.

(** X16. Under every node of the tree [buildFileTree] returns, the children
    stand in the order of the comparison given to [items.sort]: each
    directory before each file, and among directories and among files each
    name not after the names that follow it; this for a [localeCompare]
    that is a total preorder. *)
Theorem buildFileTree_orders_children
    (localeCompare : string → string → Z) (depth : nat) (items : list Entry)
    (excludeDirs : list string) (repoName : string)
    (includeExtensions : option (list string)) (t n : FileTree)
    (kids : list FileTree) :
  (∀ a b, 0 < localeCompare a b → localeCompare b a ≤ 0) →
  (∀ a b c, localeCompare a b ≤ 0 → localeCompare b c ≤ 0 →
            localeCompare a c ≤ 0) →
  buildFileTree localeCompare depth items excludeDirs repoName includeExtensions
    = Some t →
  n ∈ nodes t → children n = Some kids →
  StronglySorted (nodeBefore localeCompare) kids.
Proof.
  intros Htot Htrans Ht Hn Hkids.
  destruct (buildFileTree_in_order localeCompare excludeDirs includeExtensions
              Htot Htrans depth items repoName t Ht) as (_ & _ & Hall).
  by apply (proj1 (Forall_forall _ _) Hall n Hn).
Qed.

Lemma buildFileTree_orders_children_witness :
  StronglySorted (nodeBefore Samples.compareNames)
    [Samples.srcNode; MkFileTree "a.ts" file None].
Proof.
  apply (buildFileTree_orders_children Samples.compareNames 2 Samples.listingA
           defaultExcludeDirs "repo" (Some [".ts"]) Samples.treeA Samples.treeA).
  - apply defaultCompare_total.
  - apply defaultCompare_trans.
  - vm_compute. reflexivity.
  - left.
  - reflexivity.
Defined.

(** ** The older copy of [mergeRepositoryFiles] *)

(** On a tree without children no file passes the tests of the second
    walk. *)
Lemma no_children_nothing_selected (localeCompare : string → string → Z)
    (depth : nat) (items : list Entry) (excludeDirs excludeFiles : list string)
    (includeExtensions : option (list string)) (tempDir repoName : string)
    (t : FileTree) :
  buildFileTree localeCompare depth items excludeDirs repoName includeExtensions
    = Some t →
  hasChildren t = false →
  filter (λ f : string * string * string,
            qualifies excludeFiles includeExtensions f.1.2 = true)
         (reachedFiles excludeDirs tempDir items) = [].
Proof.
  intros Ht Hc.
  destruct (buildFileTree_files localeCompare excludeDirs includeExtensions
              (markerPath tempDir repoName) depth items repoName t tempDir
              (repoName +:+ "/") Ht) as (kids & -> & Hleaves).
  { intros rest. apply markerPath_below. }
  destruct kids as [|k kids]; [|done]. cbn [flat_map] in Hleaves.
  apply Permutation_nil in Hleaves.
  apply (map_eq_nil (λ f : string * string * string,
                       markerPath tempDir repoName f.1.1)).
  rewrite selected_by_name. by rewrite Hleaves.
Qed.

(** X17. The older copy of [mergeRepositoryFiles] against the one of
    [src/index.ts], on the same call.  When the newer one returns [true]
    the older one resolves and leaves the same files, directories and
    registry.  When the older one resolves, either the newer one returns
    [true], or the tree has no children: there the newer one returns
    [false] and writes nothing, where the older one has written a file that
    holds the header alone. *)
Theorem mergeRepositoryFiles_legacy_compared
    (localeCompare : string → string → Z) (TEMP_BASE_DIR githubUrl : string)
    (options : Options) (run : Run) (w : World) :
  let r := mergeRepositoryFiles localeCompare TEMP_BASE_DIR githubUrl options run w in
  let r' := mergeRepositoryFiles_legacy localeCompare TEMP_BASE_DIR githubUrl
              options run w in
  let target := default defaultOutputPath (outputPath options) in
  let repoName := getRepoNameFromUrl githubUrl in
  (r.1 = Some true → r' = (Some (), r.2))
  ∧ (r'.1 = Some () →
     r = (Some true, r'.2)
     ∨ ∃ t, builtTree localeCompare githubUrl options run = Some t
            ∧ hasChildren t = false
            ∧ r.1 = Some false
            ∧ written r.2 = written w
            ∧ written r'.2
              = written w
                ++ [(target,
                     header githubUrl (branch options) (now run)
                       (treeString repoName t))]).
Proof.
  intros r r' target repoName. subst r r'.
  unfold mergeRepositoryFiles, mergeRepositoryFiles_legacy, builtTree.
  cbv zeta. fold target. fold repoName.
  set (tempDir := Path.join TEMP_BASE_DIR _).
  unfold mergeAttempt, mergeAttempt_legacy. cbv zeta.
  destruct (cloneOutcome run) as [listing|msg].
  2:{ unfold existsSync, rmSync.
      repeat (case_bool_decide; cbn [fst snd tryCatch]); split; done. }
  destruct (buildFileTree _ _ _ _ _ _) as [t|] eqn:Ht.
  2:{ unfold existsSync, rmSync.
      repeat (case_bool_decide; cbn [fst snd tryCatch]); split; done. }
  destruct (hasChildren t) eqn:Hc; cbn [negb].
  - destruct (processDirectory _ _ _ _ _ _ _ _) as [mc|].
    2:{ unfold existsSync, rmSync.
        repeat (case_bool_decide; cbn [fst snd tryCatch]); split; done. }
    unfold writeFileSync, existsSync, rmSync.
    repeat (case_bool_decide;
            cbn [fst snd tryCatch onDisk undeletable unwritable cloneInto pushTemp]);
      split; try done; intros _; by left.
  - destruct (processDirectory _ _ _ _ _ _ _ _) as [mc|] eqn:Hmc.
    2:{ unfold existsSync, rmSync.
        repeat (case_bool_decide; cbn [fst snd tryCatch]); split; done. }
    apply processDirectory_appends in Hmc.
    rewrite (no_children_nothing_selected localeCompare _ listing _ _ _ tempDir
               repoName t Ht Hc) in Hmc.
    cbn [renderBlocks] in Hmc. rewrite append_empty_r in Hmc. subst mc.
    unfold writeFileSync, existsSync, rmSync.
    repeat (case_bool_decide;
            cbn [fst snd tryCatch onDisk undeletable unwritable cloneInto pushTemp]);
      try (exfalso; set_solver);
      split; try done; intros _; right; exists t; by repeat split.
Qed.

(** On the sample clone with only [.rs] asked for, the older copy writes
    the header and the newer one nothing. *)
Example legacy_writes_header_alone :
  written (mergeRepositoryFiles_legacy Samples.compareNames Samples.tmp
             Samples.urlA Samples.onlyRs Samples.runA Samples.emptyWorld).2
  = [(defaultOutputPath,
      header Samples.urlA None "2024-01-01T00:00:00.000Z" ("repo/" +:+ JS.nl))]
  ∧ mergeRepositoryFiles Samples.compareNames Samples.tmp Samples.urlA
      Samples.onlyRs Samples.runA Samples.emptyWorld
    = (Some false, Samples.emptyWorld).
Proof. split; vm_compute; reflexivity. Qed.

(** ** [isValidGitHubUrl] *)

Lemma nullable_Matches (r : Re.Regex) :
  Re.nullable r = true → Matches r EmptyString.
Proof.
  induction r as [| |p|r1 IH1 r2 IH2|r1 IH1 r2 IH2|r IH];
    cbn [Re.nullable]; intros Hn; try done.
  - constructor.
  - apply andb_true_iff in Hn as [H1 H2].
    change EmptyString with (EmptyString +:+ EmptyString).
    constructor; auto.
  - apply orb_true_iff in Hn as [H|H];
      [apply MatchesAltL|apply MatchesAltR]; auto.
  - apply MatchesPlusOne; auto.
Qed.

Lemma derive_Matches (c : ascii) (r : Re.Regex) : ∀ s,
  Matches (Re.derive c r) s → Matches r (String c s).
Proof.
  induction r as [| |p|r1 IH1 r2 IH2|r1 IH1 r2 IH2|r IH]; intros s H;
    cbn [Re.derive] in H.
  - inversion H.
  - inversion H.
  - destruct (p c) eqn:Hp; inversion H; subst. by constructor.
  - destruct (Re.nullable r1) eqn:Hn.
    + inversion H as [| | |? ? ? H'|? ? ? H'| |]; subst.
      * inversion H' as [| |? ? s1 s2 Ha Hb| | | |]; subst.
        change (String c (s1 +:+ s2)) with (String c s1 +:+ s2).
        constructor; auto.
      * change (String c s) with (EmptyString +:+ String c s).
        constructor; [by apply nullable_Matches|auto].
    + inversion H as [| |? ? s1 s2 Ha Hb| | | |]; subst.
      change (String c (s1 +:+ s2)) with (String c s1 +:+ s2).
      constructor; auto.
  - inversion H; subst; [apply MatchesAltL|apply MatchesAltR]; auto.
  - inversion H as [| |? ? s1 s2 Ha Hb| | | |]; subst.
    inversion Hb as [| | |? ? ? Hb'|? ? ? Hb'| |]; subst.
    + change (String c (s1 +:+ s2)) with (String c s1 +:+ s2).
      apply MatchesPlusMore; auto.
    + inversion Hb'; subst. rewrite append_empty_r.
      apply MatchesPlusOne; auto.
Qed.

(** What the test lets through is a text of the pattern. *)
Lemma test_Matches (s : string) : ∀ r, Re.test r s = true → Matches r s.
Proof.
  induction s as [|c s IH]; intros r; cbn [Re.test].
  - apply nullable_Matches.
  - intros H. by apply derive_Matches, IH.
Qed.

Lemma Matches_seq (r1 r2 : Re.Regex) (s : string) :
  Matches (Re.Seq r1 r2) s →
  ∃ s1 s2, s = s1 +:+ s2 ∧ Matches r1 s1 ∧ Matches r2 s2.
Proof. inversion 1; subst. eauto. Qed.

Lemma Matches_alt (r1 r2 : Re.Regex) (s : string) :
  Matches (Re.Alt r1 r2) s → Matches r1 s ∨ Matches r2 s.
Proof. inversion 1; subst; auto. Qed.

Lemma Matches_opt (r : Re.Regex) (s : string) :
  Matches (Re.opt r) s → Matches r s ∨ s = EmptyString.
Proof.
  intros [H|H]%Matches_alt; [by left|]. right. by inversion H.
Qed.

Lemma Matches_chr (c : ascii) (s : string) :
  Matches (Re.chr c) s → s = String c EmptyString.
Proof.
  inversion 1 as [|? c' Hc| | | | |]; subst.
  by apply Ascii.eqb_eq in Hc as ->.
Qed.

Lemma Matches_lit (l s : string) : Matches (Re.lit l) s → s = l.
Proof.
  revert s. induction l as [|c l IH]; intros s; cbn [Re.lit].
  - by inversion 1.
  - intros (s1 & s2 & -> & ->%Matches_chr & ->%IH)%Matches_seq. done.
Qed.

Lemma Matches_plus_class (p : ascii → bool) (s : string) :
  Matches (Re.Plus (Re.Class p)) s → s ≠ EmptyString ∧ allChars p s = true.
Proof.
  intros H. remember (Re.Plus (Re.Class p)) as r eqn:Hr.
  induction H as [| | | | |r s H _|r s1 s2 H1 _ _ IH]; try discriminate;
    injection Hr as ->.
  - inversion H; subst. cbn [allChars]. split; [done|].
    by rewrite andb_true_r.
  - inversion H1; subst. destruct (IH eq_refl) as [_ Hall].
    change (String c EmptyString +:+ s2) with (String c s2).
    cbn [allChars]. split; [done|]. by apply andb_true_iff.
Qed.

Lemma allChars_app (p : ascii → bool) (a b : string) :
  allChars p (a +:+ b) = allChars p a && allChars p b.
Proof.
  induction a as [|c a IH]; [done|].
  rewrite append_cons. cbn [allChars]. by rewrite IH, andb_assoc.
Qed.

Lemma allChars_impl (p q : ascii → bool) (s : string) :
  (∀ c, p c = true → q c = true) → allChars p s = true → allChars q s = true.
Proof.
  intros Hpq. induction s as [|c s IH]; [done|]. cbn [allChars].
  intros [Hc Hs]%andb_true_iff. apply andb_true_iff. auto.
Qed.

Lemma ownerChar_urlChar (c : ascii) : ownerChar c = true → urlChar c = true.
Proof.
  unfold ownerChar, urlChar, repoChar.
  destruct (Re.word c), (Ascii.eqb c "-"), (Ascii.eqb c "."); done.
Qed.

Lemma repoChar_urlChar (c : ascii) : repoChar c = true → urlChar c = true.
Proof. unfold urlChar. by intros ->. Qed.

Lemma urlChar_not_space (c : ascii) : urlChar c = true → JS.isWhiteSpace c = false.
Proof.
  destruct c as [[] [] [] [] [] [] [] []]; vm_compute; congruence.
Qed.

Lemma repoChar_not_slash (c : ascii) : repoChar c = true → Ascii.eqb "/" c = false.
Proof.
  destruct c as [[] [] [] [] [] [] [] []]; vm_compute; congruence.
Qed.

Lemma allChars_no_slash (s : string) :
  allChars repoChar s = true → JS.includes s "/" = false.
Proof.
  induction s as [|c s IH]; [done|]. cbn [allChars].
  intros [Hc Hs]%andb_true_iff.
  by rewrite includes_char_cons, (repoChar_not_slash c Hc), IH.
Qed.

(** A text without white space is left as it is by [trim]. *)
Lemma trim_no_space (s : string) :
  allChars (λ c, negb (JS.isWhiteSpace c)) s = true → JS.trim s = s.
Proof.
  intros Hs. unfold JS.trim.
  assert (Hstart : JS.trimStart s = s).
  { destruct s as [|c s]; [done|]. cbn [allChars] in Hs.
    apply andb_true_iff in Hs as [Hc _]. cbn [JS.trimStart].
    by destruct (JS.isWhiteSpace c). }
  rewrite Hstart. clear Hstart.
  induction s as [|c s IH]; [done|]. cbn [allChars] in Hs.
  apply andb_true_iff in Hs as [Hc Hs]. cbn [JS.trimEnd]. rewrite (IH Hs).
  destruct s; [|done]. by destruct (JS.isWhiteSpace c).
Qed.

Lemma Matches_scheme (s : string) :
  Matches (Re.opt (Re.Seq (Re.lit "http")
                     (Re.Seq (Re.opt (Re.chr "s")) (Re.lit "://")))) s →
  s ∈ [EmptyString; "http://"; "https://"].
Proof.
  intros [H| ->]%Matches_opt; [|by left].
  apply Matches_seq in H as (s1 & s' & -> & ->%Matches_lit & H).
  apply Matches_seq in H as (s2 & s3 & -> & H2 & ->%Matches_lit).
  apply Matches_opt in H2 as [->%Matches_chr| ->].
  - right. right. left.
  - right. left.
Qed.

Lemma Matches_ref (s : string) :
  Matches (Re.opt (Re.Seq (Re.chr "/")
                  (Re.Seq (Re.Alt (Re.lit "tree") (Re.lit "blob"))
                  (Re.Seq (Re.chr "/") (Re.Plus (Re.Class repoChar)))))) s →
  s = EmptyString
  ∨ ∃ kind ref, kind ∈ ["tree"; "blob"] ∧ ref ≠ EmptyString
                ∧ allChars repoChar ref = true
                ∧ s = "/" +:+ kind +:+ "/" +:+ ref.
Proof.
  intros [H| ->]%Matches_opt; [right|by left].
  apply Matches_seq in H as (s1 & s' & -> & ->%Matches_chr & H).
  apply Matches_seq in H as (kind & s'' & -> & Hkind & H).
  apply Matches_seq in H as (s2 & ref & -> & ->%Matches_chr & Href).
  apply Matches_plus_class in Href as [Hne Hall].
  exists kind, ref. split; [|done].
  apply Matches_alt in Hkind as [->%Matches_lit| ->%Matches_lit];
    [left|right; left].
Qed.

(** The shape of the texts [isValidGitHubUrl] lets through. *)
Lemma gitHubUrl_shape (url : string) :
  isValidGitHubUrl url = true →
  ∃ scheme www owner repo tail,
    url = scheme +:+ www +:+ "github.com/" +:+ owner +:+ "/" +:+ repo +:+ tail
    ∧ scheme ∈ [EmptyString; "http://"; "https://"]
    ∧ www ∈ [EmptyString; "www."]
    ∧ (owner ≠ EmptyString ∧ allChars ownerChar owner = true)
    ∧ (repo ≠ EmptyString ∧ allChars repoChar repo = true)
    ∧ (tail = EmptyString
       ∨ ∃ kind ref, kind ∈ ["tree"; "blob"] ∧ ref ≠ EmptyString
                     ∧ allChars repoChar ref = true
                     ∧ tail = "/" +:+ kind +:+ "/" +:+ ref).
Proof.
  intros H%test_Matches. unfold gitHubUrlPattern in H.
  apply Matches_seq in H as (scheme & s1 & -> & Hscheme%Matches_scheme & H).
  apply Matches_seq in H as (www & s2 & -> & Hwww & H).
  apply Matches_seq in H as (host & s3 & -> & ->%Matches_lit & H).
  apply Matches_seq in H as (owner & s4 & -> & Howner%Matches_plus_class & H).
  apply Matches_seq in H as (sl & s5 & -> & ->%Matches_chr & H).
  apply Matches_seq in H as (repo & tail & -> & Hrepo%Matches_plus_class
                             & Htail%Matches_ref).
  exists scheme, www, owner, repo, tail. repeat split; try tauto.
  apply Matches_opt in Hwww as [->%Matches_lit| ->]; [right; left|left].
Qed.

(** X18. What [isValidGitHubUrl] lets through: an optional [http://] or
    [https://], an optional [www.], [github.com/], an owner and a
    repository, both non-empty, and possibly [/tree/] or [/blob/] and a
    reference.  Every character of such a URL is a letter, a digit or one
    of [_ . - / :], so there is no white space in it, and the test on
    [input.trim()] in the prompt rejects nothing that this one lets
    through. *)
Theorem isValidGitHubUrl_accepted (url : string) :
  isValidGitHubUrl url = true →
  (∃ scheme www owner repo tail,
     url = scheme +:+ www +:+ "github.com/" +:+ owner +:+ "/" +:+ repo +:+ tail
     ∧ scheme ∈ [EmptyString; "http://"; "https://"]
     ∧ www ∈ [EmptyString; "www."]
     ∧ (owner ≠ EmptyString ∧ allChars ownerChar owner = true)
     ∧ (repo ≠ EmptyString ∧ allChars repoChar repo = true)
     ∧ (tail = EmptyString
        ∨ ∃ kind ref, kind ∈ ["tree"; "blob"] ∧ ref ≠ EmptyString
                      ∧ allChars repoChar ref = true
                      ∧ tail = "/" +:+ kind +:+ "/" +:+ ref))
  ∧ allChars urlChar url = true
  ∧ promptAccepts url = true.
Proof.
  intros Hvalid. pose proof (gitHubUrl_shape url Hvalid) as Hshape.
  split; [exact Hshape|].
  destruct Hshape as (scheme & www & owner & repo & tail & Hurl & Hscheme
                      & Hwww & [Hone Howner] & [Hrne Hrepo] & Htail).
  assert (Hchars : allChars urlChar url = true).
  { rewrite Hurl, !allChars_app.
    assert (allChars urlChar scheme = true) as ->.
    { rewrite !elem_of_cons in Hscheme.
      destruct Hscheme as [->|[->|[->|[]%elem_of_nil]]]; reflexivity. }
    assert (allChars urlChar www = true) as ->.
    { rewrite !elem_of_cons in Hwww.
      destruct Hwww as [->|[->|[]%elem_of_nil]]; reflexivity. }
    rewrite (allChars_impl _ _ owner ownerChar_urlChar Howner).
    rewrite (allChars_impl _ _ repo repoChar_urlChar Hrepo).
    destruct Htail as [->|(kind & ref & Hkind & _ & Href & ->)]; [reflexivity|].
    rewrite !allChars_app, (allChars_impl _ _ ref repoChar_urlChar Href).
    rewrite !elem_of_cons in Hkind.
    destruct Hkind as [->|[->|[]%elem_of_nil]]; reflexivity. }
  split; [exact Hchars|].
  unfold promptAccepts. rewrite Hvalid, andb_true_r.
  rewrite trim_no_space.
  - rewrite bool_decide_eq_false_2; [done|]. intros ->.
    by vm_compute in Hvalid.
  - eapply allChars_impl; [|exact Hchars].
    intros c Hc. by rewrite (urlChar_not_space c Hc).
Qed.

Lemma isValidGitHubUrl_accepted_witness :
  allChars urlChar "https://github.com/Code-Parth/github-merger" = true
  ∧ promptAccepts "https://github.com/Code-Parth/github-merger" = true.
Proof.
  apply (isValidGitHubUrl_accepted "https://github.com/Code-Parth/github-merger").
  vm_compute. reflexivity.
Defined.

Lemma lazyName_cases (seg : string) :
  lazyName seg = seg ∨ seg = lazyName seg +:+ ".git".
Proof.
  induction seg as [|c rest IH]; [by left|]. cbn [lazyName].
  destruct (bool_decide_reflect (rest = ".git")) as [->|_]; [by right|].
  destruct IH as [->|IH]; [by left|right].
  rewrite append_cons. by rewrite <- IH.
Qed.

(** X19. For a URL that [isValidGitHubUrl] lets through, the pattern of
    [getRepoNameFromUrl] always matches: the name is the last segment of
    the URL, or that segment without one [.git] at its end, and never the
    fallback for want of a match.  The last segment is the repository, or
    the reference of a [/tree/] or [/blob/] URL. *)
Theorem getRepoNameFromUrl_of_valid_url (url : string) :
  isValidGitHubUrl url = true →
  ∃ base seg,
    url = base +:+ "/" +:+ seg
    ∧ seg ≠ EmptyString
    ∧ allChars repoChar seg = true
    ∧ afterLastSlash url = Some seg
    ∧ (getRepoNameFromUrl url = seg
       ∨ seg = getRepoNameFromUrl url +:+ ".git").
Proof.
  intros (scheme & www & owner & repo & tail & Hurl & _ & _ & _ & [Hrne Hrepo]
          & Htail)%gitHubUrl_shape.
  assert (Hsplit : ∃ base seg, url = base +:+ "/" +:+ seg
                               ∧ seg ≠ EmptyString
                               ∧ allChars repoChar seg = true).
  { destruct Htail as [->|(kind & ref & _ & Hne & Href & ->)].
    - exists (scheme +:+ www +:+ "github.com/" +:+ owner), repo.
      split; [|done]. by rewrite Hurl, !append_assoc, append_empty_r.
    - exists (scheme +:+ www +:+ "github.com/" +:+ owner +:+ "/" +:+ repo
                +:+ "/" +:+ kind), ref.
      split; [|done]. by rewrite Hurl, !append_assoc. }
  destruct Hsplit as (base & seg & -> & Hne & Hseg).
  exists base, seg. split; [done|]. split; [done|]. split; [done|].
  unfold getRepoNameFromUrl.
  rewrite afterLastSlash_segment by by apply allChars_no_slash.
  split; [done|].
  destruct seg as [|c rest]; [done|]. apply lazyName_cases.
Qed.

Lemma getRepoNameFromUrl_of_valid_url_witness :
  ∃ base seg,
    "https://github.com/u/repo/tree/main" = base +:+ "/" +:+ seg
    ∧ seg ≠ EmptyString
    ∧ allChars repoChar seg = true
    ∧ afterLastSlash "https://github.com/u/repo/tree/main" = Some seg
    ∧ (getRepoNameFromUrl "https://github.com/u/repo/tree/main" = seg
       ∨ seg = getRepoNameFromUrl "https://github.com/u/repo/tree/main"
               +:+ ".git").
Proof.
  apply (getRepoNameFromUrl_of_valid_url "https://github.com/u/repo/tree/main").
  vm_compute. reflexivity.
Defined.

(** A [/tree/] URL passes the test, and the name taken from it is the one
    of the reference. *)
Example tree_url_named_after_reference :
  isValidGitHubUrl "https://github.com/u/repo/tree/main" = true
  ∧ getRepoNameFromUrl "https://github.com/u/repo/tree/main" = "main"
  ∧ isValidGitHubUrl "https://github.com/u/repo.git" = true
  ∧ isValidGitHubUrl "https://github.com/u/repo; ls" = false
  ∧ isValidGitHubUrl "https://gitlab.com/u/repo" = false.
Proof. repeat split; vm_compute; reflexivity. Qed.

(** ** The lines of [generateTreeString] *)

Lemma treeLines_nodes (t : FileTree) : ∀ prefix isLast,
  Forall2 (λ line n, ∃ indent marker,
             marker ∈ [elbow; tee]
             ∧ line = prefix +:+ indent +:+ marker +:+ name n)
          (treeLines t prefix isLast) (nodes t).
Proof.
  induction t as [nm ty|nm ty cs IH] using FileTree_nested_ind;
    intros prefix isLast; cbn [treeLines nodes].
  - constructor; [|constructor].
    exists EmptyString, (if isLast then elbow else tee).
    split; [destruct isLast; [left|right; left]|done].
  - constructor.
    { exists EmptyString, (if isLast then elbow else tee).
      split; [destruct isLast; [left|right; left]|done]. }
    set (cont := if isLast then blank else pipe).
    induction IH as [|c cs Hc _ IHcs]; [constructor|].
    cbn [flat_map]. apply Forall2_app; [|exact IHcs].
    eapply Forall2_impl; [apply (Hc (prefix +:+ cont) (isNil cs))|].
    intros line n (indent & marker & Hm & ->).
    exists (cont +:+ indent), marker. split; [done|].
    by rewrite !append_assoc.
Qed.

(** X20. The text [generateTreeString] returns, read back line by line:
    when no name holds a line feed, splitting it at the line feeds gives
    one line for each node of the tree, in the order parent first and
    then the children in their order, and an empty string after the last
    line feed; the line of a node is the prefix, an indentation, one of
    the two markers and the name of the node. *)
Theorem generateTreeString_read_back (t : FileTree) (prefix : string)
    (isLast : bool) :
  oneLine prefix = true →
  Forall (λ n, oneLine (name n) = true) (nodes t) →
  ∃ lines,
    JS.split_lines (generateTreeString t prefix isLast) = lines ++ [EmptyString]
    ∧ Forall2 (λ line n, ∃ indent marker,
                 marker ∈ [elbow; tee]
                 ∧ line = prefix +:+ indent +:+ marker +:+ name n)
              lines (nodes t).
Proof.
  intros Hprefix Hnames. exists (treeLines t prefix isLast).
  split; [|apply treeLines_nodes].
  rewrite generateTreeString_lines.
  by apply split_lines_unlines, treeLines_oneLine.
Qed.

Lemma generateTreeString_read_back_witness :
  ∃ lines,
    JS.split_lines (generateTreeString Samples.treeA EmptyString true)
    = lines ++ [EmptyString]
    ∧ Forall2 (λ line n, ∃ indent marker,
                 marker ∈ [elbow; tee]
                 ∧ line = EmptyString +:+ indent +:+ marker +:+ name n)
              lines (nodes Samples.treeA).
Proof.
  apply (generateTreeString_read_back Samples.treeA EmptyString true).
  - reflexivity.
  - vm_compute. repeat constructor.
Defined.
